(** * graph_tools.py: labelled undirected graphs and degeneracy orientation

    A shallow embedding of the classes [graph] and [DAG] of
    [graph_tools.py].  Python objects that are mutated in place are modelled
    by explicit state passing: a method that only touches [self] is a
    state-and-exception computation over the object, [Degeneracy], which
    allocates a deep copy and an output [DAG], is a computation over an
    object store. *)

From Stdlib Require Import ZArith Lia.
From stdpp Require Import base option list gmap fin_maps fin_sets strings.

Open Scope Z_scope.
Set Warnings "-clear-no-such-hyp".

(** ** Exceptions and the two monads *)

(** The Python exceptions the modelled code can raise.  [Stuck] is not a
    Python exception: it marks a dangling object reference or an exhausted
    loop budget in the model, and is shown not to occur. *)
Inductive pyerr : Set :=
  | KeyError | IndexError | AttributeError | TypeError
  | ValueError | OverflowError | RuntimeError | Stuck.

#[global] Instance pyerr_eq_dec : EqDecision pyerr.
Proof. solve_decision. Defined.

Inductive result (A : Type) : Type :=
  | Ok (a : A)
  | Err (e : pyerr).
Arguments Ok {A} a.
Arguments Err {A} e.

#[global] Instance result_ret : MRet result := λ A a, Ok a.
#[global] Instance result_bind : MBind result := λ A B f m,
  match m with
  | Ok a => f a
  | Err e => Err e
  end.

(** [x[k]] on a dict: [KeyError] when the key is absent. *)
Definition getitem `{Countable K} {A} (m : gmap K A) (k : K) : result A :=
  match m !! k with
  | Some a => Ok a
  | None => Err KeyError
  end.

(** State and exception: the state reached when the exception is raised is
    kept, as the mutations made before a Python exception persist. *)
Definition SE (S A : Type) : Type := S → result A * S.

Definition se_ret {S A} (a : A) : SE S A := λ s, (Ok a, s).
Definition se_bind {S A B} (m : SE S A) (f : A → SE S B) : SE S B := λ s,
  match m s with
  | (Ok a, s') => f a s'
  | (Err e, s') => (Err e, s')
  end.
Definition se_raise {S A} (e : pyerr) : SE S A := λ s, (Err e, s).
Definition se_get {S} : SE S S := λ s, (Ok s, s).
Definition se_gets {S A} (f : S → A) : SE S A := λ s, (Ok (f s), s).
Definition se_modify {S} (f : S → S) : SE S unit := λ s, (Ok tt, f s).
Definition se_lift {S A} (r : result A) : SE S A := λ s, (r, s).

#[global] Instance SE_ret S : MRet (SE S) := λ A a, se_ret a.
#[global] Instance SE_bind S : MBind (SE S) := λ A B f m, se_bind m f.

(** [for x in xs: body x], stopping at the first exception. *)
Fixpoint se_for {S A} (xs : list A) (body : A → SE S unit) : SE S unit :=
  match xs with
  | [] => mret tt
  | x :: xs' => se_bind (body x) (λ _, se_for xs' body)
  end.

(** ** Python numbers as [Size] produces them *)

(** A binary64 float whose value is an integer, or +inf.  Every float that
    [Size] computes is the rounding of a non-negative integer, so integer
    values suffice. *)
Inductive pyfloat : Set :=
  | Finite (z : Z)
  | Infinity.

Inductive pynum : Set :=
  | PyInt (z : Z)
  | PyFloat (f : pyfloat).

#[global] Instance pyfloat_eq_dec : EqDecision pyfloat.
Proof. solve_decision. Defined.
#[global] Instance pynum_eq_dec : EqDecision pynum.
Proof. solve_decision. Defined.

(** Round a non-negative integer to the nearest integer with a 53-bit
    significand, ties to even. *)
Definition f64_round_nonneg (z : Z) : Z :=
  let e := Z.log2 z - 52 in
  if e <=? 0 then z
  else
    let q := Z.shiftr z e in
    let r := Z.land z (Z.ones e) in
    let half := Z.shiftl 1 (e - 1) in
    let q' := if (half <? r) || ((r =? half) && Z.odd q) then q + 1 else q in
    Z.shiftl q' e.

Definition f64_round (z : Z) : Z :=
  if 0 <=? z then f64_round_nonneg z else - f64_round_nonneg (- z).

(** The first power of two beyond the binary64 range. *)
Definition f64_limit : Z := 2 ^ 1024.

(** int -> float, as in [int / int] and in [int + float]: correctly rounded,
    [OverflowError] beyond the range. *)
Definition float_of_int (z : Z) : result pyfloat :=
  let r := f64_round z in
  if Z.abs r <? f64_limit then Ok (Finite r) else Err OverflowError.

(** float + float: correctly rounded, overflow gives inf (no exception). *)
Definition float_add (a b : pyfloat) : pyfloat :=
  match a, b with
  | Finite x, Finite y =>
      let r := f64_round (x + y) in
      if Z.abs r <? f64_limit then Finite r else Infinity
  | _, _ => Infinity
  end.

(** [deg*(deg-1)/2] in Python 3: the product is an exact int, and [/] is
    true division, which returns the float nearest to the quotient.  The
    product of two consecutive integers is even, so the quotient is the
    integer [(deg*(deg-1)) `div` 2]. *)
Definition wedges_at (deg : Z) : result pyfloat :=
  float_of_int ((deg * (deg - 1)) `div` 2).

(** [wedge + f] with [f] a float: an int [wedge] is converted first. *)
Definition num_add_float (wedge : pynum) (f : pyfloat) : result pynum :=
  match wedge with
  | PyInt z => w ← float_of_int z; mret (PyFloat (float_add w f))
  | PyFloat w => mret (PyFloat (float_add w f))
  end.

(** [np.bincount(xs)] for a list of ints, from numpy's documentation: one
    bin per value from 0 to the largest value of [xs], each holding the
    number of occurrences; no bin for an empty [xs]; [ValueError] on a
    negative entry. *)
Definition bincount (xs : list Z) : result (list Z) :=
  if decide (Forall (λ x, 0 ≤ x) xs) then
    let bins := match xs with
                | [] => 0%nat
                | _ => S (Z.to_nat (foldr Z.max 0 xs))
                end in
    Ok ((λ i, Z.of_nat (length (filter (λ x, x = Z.of_nat i) xs))) <$> seq 0 bins)
  else Err ValueError.

(** [l[i]] on a Python list: a negative index counts from the end. *)
Definition list_index {A} (l : list A) (i : Z) : result (nat * A) :=
  let n := Z.of_nat (length l) in
  let j := if 0 <=? i then i else n + i in
  if (0 <=? j) && (j <? n) then
    match l !! Z.to_nat j with
    | Some a => Ok (Z.to_nat j, a)
    | None => Err IndexError
    end
  else Err IndexError.

(** ** The iteration order of sets *)

(** Python leaves the iteration order of a set (and the element that
    [set.pop] takes) unspecified.  The model is parametric in it. *)
Class SetOrder (V : Type) `{Countable V} := {
  set_order : gset V → list V;
  set_order_perm : ∀ s, set_order s ≡ₚ elements s
}.

(** One instance, used to run the model: the order of [elements]. *)
#[global] Instance elements_order (V : Type) `{Countable V} : SetOrder V :=
  {| set_order := elements; set_order_perm := λ s, reflexivity _ |}.

(** ** Python strings, as [Read_edges] uses them *)

(** A [str] is a sequence of code points. *)
Definition pystr : Type := list N.

(** The code points that [str.strip()] removes (those of [str.isspace]). *)
Definition is_space (c : N) : bool :=
  (((9 <=? c) && (c <=? 13)) || ((28 <=? c) && (c <=? 32))
   || (c =? 133) || (c =? 160) || (c =? 5760)
   || ((8192 <=? c) && (c <=? 8202))
   || (c =? 8232) || (c =? 8233) || (c =? 8239) || (c =? 8287)
   || (c =? 12288))%N.

Fixpoint lstrip (s : pystr) : pystr :=
  match s with
  | [] => []
  | c :: r => if is_space c then lstrip r else s
  end.

(** [s.strip()] *)
Definition strip (s : pystr) : pystr :=
  reverse (lstrip (reverse (lstrip s))).

(** [s.split(sep)] for a one-character separator: every occurrence of
    [sep] ends a token, so two separators in a row give an empty token and
    the empty string gives one empty token. *)
Fixpoint split_on (sep : N) (s : pystr) : list pystr :=
  match s with
  | [] => [[]]
  | c :: r =>
      if (c =? sep)%N then [] :: split_on sep r
      else match split_on sep r with
           | t :: ts => (c :: t) :: ts
           | [] => [[c]]
           end
  end.

(** [itertools.combinations(l, 2)]: the pairs of entries of [l] at two
    positions [i < j], in lexicographic order of the positions. *)
Fixpoint combinations2 {A} (l : list A) : list (A * A) :=
  match l with
  | [] => []
  | x :: r => ((λ y, (x, y)) <$> r) ++ combinations2 r
  end.

(** The code points of an ASCII literal. *)
Definition py (s : string) : pystr :=
  Ascii.N_of_ascii <$> String.list_ascii_of_string s.

Module GraphTools.
Section Graph.
Context {V : Type} `{Countable V} {L : Type}.

(** ** Objects *)

(** The value stored under a vertex in [adj_list]: a dict from neighbours
    to labels in a [graph], a set of successors in the [DAG] that
    [Degeneracy] fills ([core_G.adj_list[node] = set()]). *)
Inductive container : Type :=
  | CDict (d : gmap V L)
  | CSet (s : gset V).

Inductive pyclass : Set := ClsGraph | ClsDAG.

(** The instance attributes set by [graph.__init__]. *)
Record obj : Type := mkObj {
  cls : pyclass;
  adj_list : gmap V container;
  vertices : gset V;
  degrees : gmap V Z
}.

Definition set_adj_list (f : gmap V container → gmap V container) (g : obj) : obj :=
  mkObj (cls g) (f (adj_list g)) (vertices g) (degrees g).
Definition set_vertices (f : gset V → gset V) (g : obj) : obj :=
  mkObj (cls g) (adj_list g) (f (vertices g)) (degrees g).
Definition set_degrees (f : gmap V Z → gmap V Z) (g : obj) : obj :=
  mkObj (cls g) (adj_list g) (vertices g) (f (degrees g)).

(** [graph.__init__] *)
Definition graph_init : obj := mkObj ClsGraph ∅ ∅ ∅.

(** [x in c], [len(c)] and the keys that iterating [c] yields.  A dict is
    iterated in insertion order, which the model does not record: it
    iterates the key set in the set order.  No statement below depends on
    which order it is. *)
Definition container_keys (c : container) : gset V :=
  match c with
  | CDict d => dom d
  | CSet s => s
  end.
Definition container_mem (x : V) (c : container) : bool :=
  bool_decide (x ∈ container_keys c).
Definition container_len (c : container) : Z :=
  Z.of_nat (size (container_keys c)).

(** [c[x] = value]: a set does not support item assignment. *)
Definition container_setitem (x : V) (value : L) (c : container) : result container :=
  match c with
  | CDict d => Ok (CDict (<[x := value]> d))
  | CSet _ => Err TypeError
  end.

(** [c.remove(x)]: a dict has no method [remove]; on a set, [KeyError] when
    [x] is absent. *)
Definition container_remove (x : V) (c : container) : result container :=
  match c with
  | CDict _ => Err AttributeError
  | CSet s => if decide (x ∈ s) then Ok (CSet (s ∖ {[x]})) else Err KeyError
  end.

(** [c.add(x)]: a dict has no method [add]. *)
Definition container_add (x : V) (c : container) : result container :=
  match c with
  | CDict _ => Err AttributeError
  | CSet s => Ok (CSet ({[x]} ∪ s))
  end.

(** ** Methods of [graph] that act on [self] only *)

Definition isNode (node : V) (g : obj) : bool := bool_decide (node ∈ vertices g).

(** [isEdge], lines 49-58. *)
Definition isEdge (node1 node2 : V) (g : obj) : result Z :=
  found1 ← (if decide (node1 ∈ vertices g) then
              c ← getitem (adj_list g) node1; mret (container_mem node2 c)
            else mret false);
  if (found1 : bool) then mret 1
  else
    found2 ← (if decide (node2 ∈ vertices g) then
                c ← getitem (adj_list g) node2; mret (container_mem node1 c)
              else mret false);
    if (found2 : bool) then mret 1 else mret 0.

(** The two symmetric halves of [Add_und_edge], lines 67-77 and 79-89, with
    [a] the endpoint handled and [b] the other one. *)
Definition add_endpoint (a b : V) (value : L) : SE obj unit :=
  vs ← se_gets vertices;
  if decide (a ∈ vs) then
    al ← se_gets adj_list;
    nbrs ← se_lift (getitem al a);
    if container_mem b nbrs then mret tt
    else
      nbrs' ← se_lift (container_setitem b value nbrs);
      se_modify (set_adj_list <[a := nbrs']>) ;;
      dg ← se_gets degrees;
      d ← se_lift (getitem dg a);
      se_modify (set_degrees <[a := d + 1]>)
  else
    se_modify (set_vertices (λ vs, {[a]} ∪ vs)) ;;
    se_modify (set_adj_list <[a := CDict ∅]>) ;;
    al ← se_gets adj_list;
    nbrs ← se_lift (getitem al a);
    nbrs' ← se_lift (container_setitem b value nbrs);
    se_modify (set_adj_list <[a := nbrs']>) ;;
    se_modify (set_degrees <[a := 1]>).

(** [Add_und_edge], lines 64-89. *)
Definition Add_und_edge (node1 node2 : V) (value : L) : SE obj unit :=
  if decide (node1 = node2) then mret tt
  else add_endpoint node1 node2 value ;; add_endpoint node2 node1 value.

(** A sequence of [Add_und_edge] calls on one graph. *)
Definition add_edges (es : list (V * V * L)) : SE obj unit :=
  se_for es (λ e, Add_und_edge e.1.1 e.1.2 e.2).

(** ** Read-only methods *)

Context {order : SetOrder V}.

(** The loop of [Size], lines 141-144, over the vertices in iteration
    order. *)
Fixpoint Size_loop (g : obj) (nodes : list V) (m : Z) (wedge : pynum)
  : result (Z * pynum) :=
  match nodes with
  | [] => Ok (m, wedge)
  | node :: rest =>
      deg ← getitem (degrees g) node;
      f ← wedges_at deg;
      wedge' ← num_add_float wedge f;
      Size_loop g rest (m + deg) wedge'
  end.

(** [Size], lines 136-145: the list [n, m, wedge]. *)
Definition Size (g : obj) : result (Z * Z * pynum) :=
  let n := Z.of_nat (size (vertices g)) in
  '(m, wedge) ← Size_loop g (set_order (vertices g)) 0 (PyInt 0);
  mret (n, m, wedge).

(** [Deg_dist] with the default [fname=''], lines 167-175. *)
Definition Deg_dist (g : obj) : result (list Z) :=
  let degs := (map_to_list (degrees g)).*2 in
  bincount degs.

(** ** The object store and the class [DAG] *)

(** Objects live in a store and are referred to by their index.  An object
    holds its three containers by value: each of them is created by the
    method that stores it ([dict()], [set()]) and [copy.deepcopy] copies
    them all, so no container is ever shared between two objects.  The
    class attribute [DAG.top_order] is part of the store: [DAG.__init__]
    binds it (line 248), and no instance has a [top_order] of its own. *)
Record state : Type := mkState {
  objs : list obj;
  DAG_top_order : option (list V)
}.

Definition alloc (o : obj) : SE state nat := λ st,
  (Ok (length (objs st)), mkState (objs st ++ [o]) (DAG_top_order st)).

Definition load (l : nat) : SE state obj := λ st,
  match objs st !! l with
  | Some o => (Ok o, st)
  | None => (Err Stuck, st)
  end.

Definition field {A} (l : nat) (f : obj → A) : SE state A :=
  o ← load l; mret (f o).

Definition store (l : nat) (f : obj → obj) : SE state unit :=
  se_modify (λ st, mkState (alter f l (objs st)) (DAG_top_order st)).

(** [graph()] *)
Definition graph_new : SE state nat := alloc graph_init.

(** [DAG()], lines 246-248: the attributes of [graph.__init__], then the
    class attribute is bound to a new empty list. *)
Definition DAG_new : SE state nat :=
  self ← alloc (mkObj ClsDAG ∅ ∅ ∅);
  se_modify (λ st, mkState (objs st) (Some [])) ;;
  mret self.

(** [self.top_order]: not found on the instance, found on the class [DAG]. *)
Definition get_top_order (self : nat) : SE state (list V) :=
  o ← load self;
  match cls o with
  | ClsDAG =>
      st ← se_get;
      match DAG_top_order st with
      | Some l => mret l
      | None => se_raise AttributeError
      end
  | ClsGraph => se_raise AttributeError
  end.

(** [self.top_order.append(x)], as on line 216: the list that the class
    attribute refers to is extended in place. *)
Definition top_order_append (self : nat) (x : V) : SE state unit :=
  l ← get_top_order self;
  se_modify (λ st, mkState (objs st) (Some (l ++ [x]))).

(** A method on [self] run on the object at [self] in the store. *)
Definition call {A} (self : nat) (m : SE obj A) : SE state A := λ st,
  match objs st !! self with
  | Some o =>
      let '(r, o') := m o in
      (r, mkState (<[self := o']> (objs st)) (DAG_top_order st))
  | None => (Err Stuck, st)
  end.

(** ** [Degeneracy], lines 185-238 *)

(** [s.remove(x)] and [s.pop()] on a set. *)
Definition set_remove (x : V) (s : gset V) : result (gset V) :=
  if decide (x ∈ s) then Ok (s ∖ {[x]}) else Err KeyError.
Definition set_pop (s : gset V) : result (V * gset V) :=
  match set_order s with
  | x :: _ => Ok (x, s ∖ {[x]})
  | [] => Err KeyError
  end.

(** Lines 191-193. *)
Definition core_init_loop (core_G : nat) (nodes : list V) : SE state unit :=
  se_for nodes (λ node,
    store core_G (set_adj_list <[node := CSet ∅]>) ;;
    store core_G (set_degrees <[node := 0]>)).

(** Lines 199-203. *)
Fixpoint bucket_loop (G : nat) (nodes : list V)
    (deg_list : list (gset V)) (min_deg : Z) : SE state (list (gset V) * Z) :=
  match nodes with
  | [] => mret (deg_list, min_deg)
  | node :: rest =>
      dg ← field G degrees;
      deg ← se_lift (getitem dg node);
      '(i, s) ← se_lift (list_index deg_list deg);
      let deg_list := <[i := {[node]} ∪ s]> deg_list in
      let min_deg := if deg <? min_deg then deg else min_deg in
      bucket_loop G rest deg_list min_deg
  end.

(** The [while] of lines 212-213.  Each round either stops or moves
    [min_deg] one step towards the end of [deg_list], where indexing
    raises; [fuel] bounds the rounds. *)
Fixpoint advance (fuel : nat) (deg_list : list (gset V)) (min_deg : Z) : result Z :=
  match fuel with
  | O => Err Stuck
  | S fuel' =>
      '(_, s) ← list_index deg_list min_deg;
      if decide (size s = 0%nat) then advance fuel' deg_list (min_deg + 1)
      else Ok min_deg
  end.

Definition advance_fuel (deg_list : list (gset V)) : nat :=
  (2 * length deg_list + 2)%nat.

(** Lines 221-236, over the neighbours [nodes] of [source].  The body
    changes the container being iterated only when [node] is [source]
    itself; the iterator then raises at its next step. *)
Fixpoint peel_loop (G core_G : nat) (source : V) (nodes : list V)
    (deg_list : list (gset V)) (min_deg : Z) : SE state (list (gset V) * Z) :=
  match nodes with
  | [] => mret (deg_list, min_deg)
  | node :: rest =>
      dg ← field G degrees;
      deg ← se_lift (getitem dg node);
      '(i, s) ← se_lift (list_index deg_list deg);
      s' ← se_lift (set_remove node s);
      let deg_list := <[i := s']> deg_list in
      '(j, t) ← se_lift (list_index deg_list (deg - 1));
      let deg_list := <[j := {[node]} ∪ t]> deg_list in
      let min_deg := if deg - 1 <? min_deg then deg - 1 else min_deg in
      al ← field G adj_list;
      c ← se_lift (getitem al node);
      c' ← se_lift (container_remove source c);
      store G (set_adj_list <[node := c']>) ;;
      dg' ← field G degrees;
      d ← se_lift (getitem dg' node);
      store G (set_degrees <[node := d - 1]>) ;;
      cal ← field core_G adj_list;
      cc ← se_lift (getitem cal source);
      cc' ← se_lift (container_add node cc);
      store core_G (set_adj_list <[source := cc']>) ;;
      cdg ← field core_G degrees;
      cd ← se_lift (getitem cdg source);
      store core_G (set_degrees <[source := cd + 1]>) ;;
      (if decide (node = source) then se_raise RuntimeError else mret tt) ;;
      peel_loop G core_G source rest deg_list min_deg
  end.

(** Lines 207-236: the main loop, [iters] rounds. *)
Fixpoint main_loop (iters : nat) (G core_G : nat)
    (deg_list : list (gset V)) (min_deg : Z) : SE state unit :=
  match iters with
  | O => mret tt
  | S iters' =>
      min_deg ← se_lift (advance (advance_fuel deg_list) deg_list min_deg);
      '(i, s) ← se_lift (list_index deg_list min_deg);
      '(source, s') ← se_lift (set_pop s);
      let deg_list := <[i := s']> deg_list in
      top_order_append core_G source ;;
      al ← field G adj_list;
      c ← se_lift (getitem al source);
      '(deg_list, min_deg) ←
        peel_loop G core_G source (set_order (container_keys c)) deg_list min_deg;
      main_loop iters' G core_G deg_list min_deg
  end.

(** [Degeneracy].  The local list [top_order] of line 188 is never read
    and is left out. *)
Definition Degeneracy (self : nat) : SE state nat :=
  o ← load self;
  G ← alloc o;
  gv ← field G vertices;
  let n := size gv in
  core_G ← DAG_new;
  store core_G (set_vertices (λ _, gv)) ;;
  cv ← field core_G vertices;
  core_init_loop core_G (set_order cv) ;;
  let deg_list := replicate n (∅ : gset V) in
  let min_deg := Z.of_nat n in
  gv' ← field G vertices;
  '(deg_list, min_deg) ← bucket_loop G (set_order gv') deg_list min_deg;
  main_loop n G core_G deg_list min_deg ;;
  mret core_G.

(** A graph built from nothing by a sequence of [Add_und_edge] calls, in a
    fresh store. *)
Definition build (es : list (V * V * L)) : SE state nat :=
  g ← graph_new;
  call g (add_edges es) ;;
  mret g.

Definition empty_state : state := mkState [] None.

(** ** Well-formed graphs *)

(** The neighbour dict of [v], empty when [v] has none. *)
Definition nbrs (g : obj) (v : V) : gmap V L :=
  match adj_list g !! v with
  | Some (CDict d) => d
  | _ => ∅
  end.

(** What one half of [Add_und_edge] does when it inserts: [b] with its
    label enters the neighbour dict of [a], and the degree of [a] grows. *)
Definition link (a b : V) (value : L) (g : obj) : obj :=
  mkObj (cls g)
        (<[a := CDict (<[b := value]> (nbrs g a))]> (adj_list g))
        ({[a]} ∪ vertices g)
        (<[a := Z.of_nat (size (nbrs g a)) + 1]> (degrees g)).

(** The part of the invariant that each half of [Add_und_edge] keeps. *)
Record wf_local (g : obj) : Prop := {
  wf_adj_dom : dom (adj_list g) = vertices g;
  wf_deg_dom : dom (degrees g) = vertices g;
  wf_dicts : ∀ v c, adj_list g !! v = Some c → c = CDict (nbrs g v);
  wf_degree : ∀ v, v ∈ vertices g →
                degrees g !! v = Some (Z.of_nat (size (nbrs g v)))
}.

(** The invariant of graphs built by [Add_und_edge]. *)
Record wf (g : obj) : Prop := {
  wf_loc : wf_local g;
  wf_sym : ∀ u v l, nbrs g u !! v = Some l → nbrs g v !! u = Some l;
  wf_noloop : ∀ v, nbrs g v !! v = None;
  wf_nonisolated : ∀ v, v ∈ vertices g → nbrs g v ≠ ∅
}.

(** [m] is the largest degree of [g]. *)
Definition max_degree (g : obj) (m : Z) : Prop :=
  (∃ v, v ∈ vertices g ∧ degrees g !! v = Some m) ∧
  ∀ v d, v ∈ vertices g → degrees g !! v = Some d → d ≤ m.

(** The number of vertices of degree [i]. *)
Definition count_degree (g : obj) (i : Z) : Z :=
  Z.of_nat (size (filter (λ v, degrees g !! v = Some i) (vertices g))).

(** [m] leaves the first [n0] objects of the store as they are, and its
    result satisfies [Q]. *)
Definition keeps {A} (n0 : nat) (Q : A → Prop) (m : SE state A) : Prop :=
  ∀ st, (n0 ≤ length (objs st))%nat →
    (n0 ≤ length (objs (m st).2))%nat ∧
    take n0 (objs (m st).2) = take n0 (objs st) ∧
    ∀ a, (m st).1 = Ok a → Q a.

(** The buckets of [Degeneracy] while the vertices [P] have been placed:
    a bucket holds placed vertices of its own degree only, and every placed
    vertex is in the bucket of its degree. *)
Definition buckets_ok (g : obj) (deg_list : list (gset V)) (P : gset V) : Prop :=
  length deg_list = size (vertices g) ∧
  (∀ i s x, deg_list !! i = Some s → x ∈ s →
            x ∈ P ∧ degrees g !! x = Some (Z.of_nat i)) ∧
  (∀ x, x ∈ P → ∃ i s, degrees g !! x = Some (Z.of_nat i) ∧
                       deg_list !! i = Some s ∧ x ∈ s).

(** [min_deg] while the vertices [P] have been placed: the start value when
    there is none, the degree of a placed vertex otherwise. *)
Definition min_ok (g : obj) (P : gset V) (min_deg : Z) : Prop :=
  (P = ∅ ∧ min_deg = Z.of_nat (size (vertices g))) ∨
  (∃ x, x ∈ P ∧ degrees g !! x = Some min_deg).

(** The successors recorded for [u] in the object [d] of the store. *)
Definition out_edges (st : state) (d : nat) (u : V) : option (gset V) :=
  o ← objs st !! d; c ← adj_list o !! u; Some (container_keys c).

(** The exact quantities that [Size] is meant to report: the sum of the
    degrees and the number of wedges, the sum of C(deg, 2). *)
Definition degree_of (g : obj) (v : V) : Z := default 0 (degrees g !! v).
Definition choose2 (d : Z) : Z := (d * (d - 1)) `div` 2.
Definition degree_sum (g : obj) : Z :=
  foldr Z.add 0 (degree_of g <$> elements (vertices g)).
Definition wedge_count (g : obj) : Z :=
  foldr Z.add 0 ((λ v, choose2 (degree_of g v)) <$> elements (vertices g)).

(** The star with centre [h]: one edge from [h] to each leaf. *)
Definition star_edges (h : V) (leaves : list V) (value : L) : list (V * V * L) :=
  (λ x, (h, x, value)) <$> leaves.

(** The graph after the edges from [h] to the leaves [S]. *)
Record star_inv (h : V) (S : gset V) (g : obj) : Prop := {
  star_wf : wf g;
  star_vertices : vertices g = if decide (S = ∅) then ∅ else {[h]} ∪ S;
  star_hub : dom (nbrs g h) = S;
  star_leaf : ∀ x, x ∈ S → dom (nbrs g x) = {[h]}
}.

(** [m] does not get stuck in a store with at least [N] objects, and
    leaves at least [N] objects. *)
Definition runs {A} (N : nat) (m : SE state A) : Prop :=
  ∀ st, (N ≤ length (objs st))%nat →
    (m st).1 ≠ Err Stuck ∧ (N ≤ length (objs (m st).2))%nat.

(** The graph after a sequence of [Add_und_edge] calls on the empty graph. *)
Definition graph_of (es : list (V * V * L)) : obj :=
  (add_edges es graph_init).2.

(** [g.adj_list[u][v]], the way a caller reads the label of an edge: a set
    is not subscriptable. *)
Definition edge_label (g : obj) (u v : V) : result L :=
  c ← getitem (adj_list g) u;
  match c with
  | CDict d => getitem d v
  | CSet _ => Err TypeError
  end.

(** [d.setdefault(b, value)] in effect: what lines 69-70 and 81-82 do to a
    neighbour dict. *)
Definition insert_if_absent (b : V) (value : L) (d : gmap V L) : gmap V L :=
  if decide (b ∈ dom d) then d else <[b := value]> d.

(** Lines 130-131 of [Read_edges]: an edge labelled [movie] between every
    two of the [actors] of one line. *)
Definition add_cast (movie : L) (actors : list V) : SE obj unit :=
  se_for (combinations2 actors) (λ p, Add_und_edge p.1 p.2 movie).

(** The calls that [add_cast] makes. *)
Definition cast_edges (movie : L) (actors : list V) : list (V * V * L) :=
  (λ p, (p.1, p.2, movie)) <$> combinations2 actors.

(** ** [Degeneracy] on adjacency sets *)

(** The keys of [g.adj_list[v]], empty when [v] has no entry. *)
Definition succs (g : obj) (v : V) : gset V :=
  match adj_list g !! v with
  | Some c => container_keys c
  | None => ∅
  end.

(** An undirected graph whose adjacency values are sets, the kind of value
    that lines 192, 232 and 235 of [Degeneracy] work on: every vertex has
    the set of its neighbours and its size as degree, neighbours are
    vertices, adjacency is symmetric and there is no self loop. *)
Record set_graph (g : obj) : Prop := {
  sg_adj : ∀ v, v ∈ vertices g → adj_list g !! v = Some (CSet (succs g v));
  sg_degree : ∀ v, v ∈ vertices g →
                degrees g !! v = Some (Z.of_nat (size (succs g v)));
  sg_closed : ∀ u v, u ∈ vertices g → v ∈ succs g u → v ∈ vertices g;
  sg_sym : ∀ u v, u ∈ vertices g → v ∈ succs g u → u ∈ succs g v;
  sg_noloop : ∀ v, v ∈ vertices g → v ∉ succs g v
}.

(** The store while [Degeneracy] runs: the objects that were there, the
    copy [G], the output [core_G], and the order so far. *)
Definition working (pre : list obj) (gG gc : obj) (t : list V) : state :=
  mkState (pre ++ [gG; gc]) (Some t).

(** The copy [G] and the buckets while the vertices [Rm] are in the
    buckets: each of them has its set of current neighbours and its size as
    degree, bucket [i] holds those of degree [i], and [min_deg] is at most
    every degree. *)
Definition peel_ok (gG : obj) (Rm : gset V) (dl : list (gset V)) (md : Z) : Prop :=
  (∀ x, x ∈ Rm →
     adj_list gG !! x = Some (CSet (succs gG x)) ∧
     degrees gG !! x = Some (Z.of_nat (size (succs gG x))) ∧
     (size (succs gG x) < length dl)%nat) ∧
  (∀ i s, dl !! i = Some s → ∀ x, x ∈ s ↔ x ∈ Rm ∧ size (succs gG x) = i) ∧
  0 ≤ md ∧
  (∀ x, x ∈ Rm → md ≤ Z.of_nat (size (succs gG x))).

(** The output [core_G]: a [DAG] in which every vertex of [vs] has a set
    of successors and its size as degree. *)
Definition dag_ok (vs : gset V) (gc : obj) : Prop :=
  cls gc = ClsDAG ∧ vertices gc = vs ∧
  ∀ u, u ∈ vs →
    adj_list gc !! u = Some (CSet (succs gc u)) ∧
    degrees gc !! u = Some (Z.of_nat (size (succs gc u))).

(** The state of [Degeneracy] between two rounds of the main loop, with
    [t] the vertices removed so far, in order. *)
Record peel_inv (g gG gc : obj) (t : list V) (dl : list (gset V)) (md : Z)
  : Prop := {
  pi_nodup : NoDup t;
  pi_sub : ∀ x, x ∈ t → x ∈ vertices g;
  pi_peel : peel_ok gG (vertices g ∖ list_to_set t) dl md;
  pi_cur : ∀ x, x ∈ vertices g → x ∉ t →
             succs gG x = succs g x ∖ list_to_set t;
  pi_dag : dag_ok (vertices g) gc;
  pi_none : ∀ u, u ∈ vertices g → u ∉ t → succs gc u = ∅;
  pi_out : ∀ t1 u t2, t = t1 ++ u :: t2 →
             succs gc u = succs g u ∖ list_to_set t1;
  pi_min : ∀ t1 u t2 w, t = t1 ++ u :: t2 → w ∈ vertices g → w ∉ t1 →
             (size (succs g u ∖ list_to_set t1)
              ≤ size (succs g w ∖ list_to_set t1))%nat
}.

#[global] Instance container_eq_dec `{!EqDecision L} : EqDecision container.
Proof. solve_decision. Defined.

(** ** Running the monads *)

Lemma se_bind_unfold {S A B} (m : SE S A) (f : A → SE S B) (s : S) :
  (m ≫= f) s = match m s with
               | (Ok a, s') => f a s'
               | (Err e, s') => (Err e, s')
               end.
Proof. reflexivity. Qed.

Lemma se_bind_ok {S A B} (m : SE S A) (f : A → SE S B) s a s' :
  m s = (Ok a, s') → (m ≫= f) s = f a s'.
Proof. intros Hm. rewrite se_bind_unfold, Hm. reflexivity. Qed.

Ltac se_unfold :=
  unfold mbind, mret, SE_bind, SE_ret, se_bind, se_ret, se_lift, se_gets,
    se_get, se_modify, se_raise.

Lemma getitem_Some `{Countable K} {A} (m : gmap K A) k a :
  m !! k = Some a → getitem m k = Ok a.
Proof. unfold getitem. intros ->. reflexivity. Qed.

(** ** The iteration order *)

Lemma set_order_elem_of s x : x ∈ set_order s ↔ x ∈ s.
Proof. rewrite set_order_perm. apply elem_of_elements. Qed.

Lemma set_order_nonempty s : s ≠ ∅ → ∃ x rest, set_order s = x :: rest ∧ x ∈ s.
Proof.
  intros Hs. destruct (set_order s) as [|x rest] eqn:Hord.
  - exfalso. apply Hs. apply set_eq. intros y.
    rewrite <- set_order_elem_of, Hord. split; intros Hy; [inversion Hy|].
    apply not_elem_of_empty in Hy. contradiction.
  - exists x, rest. split; [reflexivity|].
    apply set_order_elem_of. rewrite Hord. left.
Qed.

Lemma set_order_empty : set_order (∅ : gset V) = [].
Proof.
  destruct (set_order (∅ : gset V)) as [|x rest] eqn:Hord; [reflexivity|].
  assert (Hx : x ∈ (∅ : gset V)) by (apply set_order_elem_of; rewrite Hord; left).
  apply not_elem_of_empty in Hx. contradiction.
Qed.

(** ** [Add_und_edge] keeps the invariant *)

Lemma nbrs_None g v : adj_list g !! v = None → nbrs g v = ∅.
Proof. unfold nbrs. intros ->. reflexivity. Qed.

Lemma nbrs_link a b value g x :
  nbrs (link a b value g) x =
    if decide (x = a) then <[b := value]> (nbrs g a) else nbrs g x.
Proof.
  unfold nbrs at 1. simpl. case_decide as Hx.
  - subst x. rewrite lookup_insert_eq. reflexivity.
  - rewrite lookup_insert_ne by congruence. reflexivity.
Qed.

Lemma wf_local_adj g v :
  wf_local g → v ∈ vertices g → adj_list g !! v = Some (CDict (nbrs g v)).
Proof.
  intros Hg Hv. rewrite <- (wf_adj_dom g Hg) in Hv.
  apply elem_of_dom in Hv as [c Hc]. rewrite Hc. f_equal.
  eapply wf_dicts; eauto.
Qed.

Lemma wf_local_not_vertex g v :
  wf_local g → v ∉ vertices g → nbrs g v = ∅.
Proof.
  intros Hg Hv. apply nbrs_None. apply not_elem_of_dom.
  rewrite (wf_adj_dom g Hg). exact Hv.
Qed.

Lemma wf_local_link a b value g :
  wf_local g → nbrs g a !! b = None → wf_local (link a b value g).
Proof.
  intros Hg Hb. split.
  - simpl. rewrite dom_insert_L, (wf_adj_dom g Hg). reflexivity.
  - simpl. rewrite dom_insert_L, (wf_deg_dom g Hg). reflexivity.
  - intros v c. rewrite nbrs_link. simpl. case_decide as Hv.
    + subst v. rewrite lookup_insert_eq. congruence.
    + rewrite lookup_insert_ne by congruence. apply (wf_dicts g Hg).
  - intros v Hv. rewrite nbrs_link. simpl. case_decide as Hva.
    + subst v. rewrite lookup_insert_eq. f_equal.
      rewrite map_size_insert_None by exact Hb. lia.
    + rewrite lookup_insert_ne by congruence. apply (wf_degree g Hg).
      simpl in Hv. apply elem_of_union in Hv as [Hv|Hv]; [|exact Hv].
      apply elem_of_singleton in Hv. congruence.
Qed.

(** One half of [Add_und_edge] on a locally well-formed graph. *)
Lemma add_endpoint_spec a b value g :
  wf_local g →
  add_endpoint a b value g =
    (Ok tt, if decide (b ∈ dom (nbrs g a)) then g else link a b value g).
Proof.
  intros Hg. unfold add_endpoint.
  rewrite se_bind_unfold. unfold se_gets at 1. cbv beta iota.
  destruct (decide (a ∈ vertices g)) as [Ha|Ha].
  - pose proof (wf_local_adj g a Hg Ha) as Hadj.
    pose proof (wf_degree g Hg a Ha) as Hdeg.
    rewrite se_bind_unfold. unfold se_gets at 1. cbv beta iota.
    rewrite se_bind_unfold. unfold se_lift at 1.
    rewrite (getitem_Some _ _ _ Hadj). cbv beta iota.
    unfold container_mem, container_keys.
    destruct (decide (b ∈ dom (nbrs g a))) as [Hb|Hb].
    + rewrite bool_decide_eq_true_2 by exact Hb. reflexivity.
    + rewrite bool_decide_eq_false_2 by exact Hb.
      se_unfold. cbn.
      rewrite (getitem_Some _ _ _ Hdeg).
      f_equal. unfold link, set_degrees, set_adj_list. cbn.
      f_equal. symmetry. apply subseteq_union_1_L, singleton_subseteq_l, Ha.
  - pose proof (wf_local_not_vertex g a Hg Ha) as Hn.
    rewrite decide_False by (rewrite Hn, dom_empty_L; set_solver).
    se_unfold. cbn.
    rewrite (getitem_Some _ a (CDict ∅)) by apply lookup_insert_eq. cbn.
    f_equal. unfold link. rewrite Hn. cbn.
    unfold set_degrees, set_adj_list, set_vertices. cbn.
    rewrite insert_insert_eq, map_size_empty. reflexivity.
Qed.

Lemma nbrs_graph_init v : nbrs graph_init v = ∅.
Proof. apply nbrs_None. apply lookup_empty. Qed.

Lemma wf_graph_init : wf graph_init.
Proof.
  split; [split|..].
  - apply dom_empty_L.
  - apply dom_empty_L.
  - intros v c Hc. simpl in Hc. rewrite lookup_empty in Hc. discriminate.
  - intros v Hv. apply not_elem_of_empty in Hv. contradiction.
  - intros u v l. rewrite !nbrs_graph_init, lookup_empty. discriminate.
  - intros v. rewrite nbrs_graph_init. apply lookup_empty.
  - intros v Hv. apply not_elem_of_empty in Hv. contradiction.
Qed.

(** An edge that is present is present from both sides. *)
Lemma wf_edge_dom g u v :
  wf g → v ∈ dom (nbrs g u) ↔ u ∈ dom (nbrs g v).
Proof.
  intros Hg. split; intros Hd; apply elem_of_dom in Hd as [l Hl];
    apply elem_of_dom; exists l; apply (wf_sym g Hg); exact Hl.
Qed.

Lemma wf_link_link u v value g :
  wf g → u ≠ v → nbrs g u !! v = None →
  wf (link v u value (link u v value g)).
Proof.
  intros Hg Huv Hnone.
  assert (Hnone' : nbrs g v !! u = None).
  { destruct (nbrs g v !! u) as [l|] eqn:Hl; [|reflexivity].
    apply (wf_sym g Hg) in Hl. congruence. }
  assert (Hn : ∀ x, nbrs (link v u value (link u v value g)) x =
                 if decide (x = v) then <[u := value]> (nbrs g v)
                 else if decide (x = u) then <[v := value]> (nbrs g u)
                 else nbrs g x).
  { intros x. rewrite !nbrs_link. repeat case_decide; congruence. }
  split.
  - apply wf_local_link.
    + apply wf_local_link; [apply (wf_loc g Hg)|exact Hnone].
    + rewrite nbrs_link. rewrite decide_False by congruence. exact Hnone'.
  - intros x y l. rewrite !Hn.
    pose proof (wf_noloop g Hg x) as Hxx.
    destruct (decide (x = v)), (decide (x = u)), (decide (y = v)),
      (decide (y = u)); subst; try congruence;
      rewrite ?lookup_insert_eq; rewrite ?lookup_insert_ne by congruence;
      try congruence; apply (wf_sym g Hg).
  - intros x. rewrite Hn. pose proof (wf_noloop g Hg x) as Hxx.
    repeat case_decide; subst; rewrite ?lookup_insert_ne by congruence;
      assumption.
  - intros x Hx. rewrite Hn. repeat case_decide.
    + apply insert_non_empty.
    + apply insert_non_empty.
    + apply (wf_nonisolated g Hg). simpl in Hx.
      apply elem_of_union in Hx as [Hx|Hx];
        [apply elem_of_singleton in Hx; congruence|].
      apply elem_of_union in Hx as [Hx|Hx];
        [apply elem_of_singleton in Hx; congruence|exact Hx].
Qed.

(** [Add_und_edge] on a well-formed graph: nothing for a self loop or an
    edge that is present, both halves inserted otherwise. *)
Lemma Add_und_edge_spec u v value g :
  wf g →
  Add_und_edge u v value g =
    (Ok tt,
     if decide (u = v) then g
     else if decide (v ∈ dom (nbrs g u)) then g
     else link v u value (link u v value g)).
Proof.
  intros Hg. unfold Add_und_edge.
  destruct (decide (u = v)) as [Huv|Huv]; [reflexivity|].
  rewrite se_bind_unfold, (add_endpoint_spec u v value g (wf_loc g Hg)).
  destruct (decide (v ∈ dom (nbrs g u))) as [Hd|Hd].
  - rewrite (add_endpoint_spec v u value g (wf_loc g Hg)).
    rewrite decide_True by (apply (wf_edge_dom g u v Hg); exact Hd).
    reflexivity.
  - assert (Hl : wf_local (link u v value g)).
    { apply wf_local_link; [apply (wf_loc g Hg)|].
      apply not_elem_of_dom. exact Hd. }
    rewrite (add_endpoint_spec v u value _ Hl).
    rewrite nbrs_link, (decide_False (P := v = u)) by congruence.
    rewrite decide_False; [reflexivity|].
    intros Hd'. apply Hd. apply (wf_edge_dom g u v Hg). exact Hd'.
Qed.

Lemma Add_und_edge_wf u v value g :
  wf g → ∃ g', Add_und_edge u v value g = (Ok tt, g') ∧ wf g'.
Proof.
  intros Hg. rewrite (Add_und_edge_spec u v value g Hg).
  eexists. split; [reflexivity|].
  repeat case_decide; try assumption.
  apply wf_link_link; [assumption..|]. apply not_elem_of_dom. assumption.
Qed.

Lemma add_edges_wf es g :
  wf g → ∃ g', add_edges es g = (Ok tt, g') ∧ wf g'.
Proof.
  revert g. induction es as [|[[u v] value] es IH]; intros g Hg.
  - exists g. split; [reflexivity|exact Hg].
  - destruct (Add_und_edge_wf u v value g Hg) as (g1 & Hrun & Hg1).
    destruct (IH g1 Hg1) as (g2 & Hrun2 & Hg2).
    exists g2. split; [|exact Hg2].
    unfold add_edges. simpl. unfold se_bind. rewrite Hrun. exact Hrun2.
Qed.

(** Every sequence of [Add_und_edge] calls from the empty graph completes
    and gives a well-formed graph. *)
Lemma built_wf es :
  ∃ g, add_edges es graph_init = (Ok tt, g) ∧ wf g.
Proof. apply add_edges_wf, wf_graph_init. Qed.

(** ** The read-only methods on well-formed graphs *)

Lemma isEdge_ok u v g : wf_local g → ∃ b, isEdge u v g = Ok b.
Proof.
  intros Hg. unfold isEdge.
  destruct (decide (u ∈ vertices g)) as [Hu|Hu];
    [rewrite (getitem_Some _ _ _ (wf_local_adj g u Hg Hu))|]; simpl;
    (match goal with |- context [container_mem ?x ?c] =>
       destruct (container_mem x c) end; simpl; [eauto|]) || idtac;
    destruct (decide (v ∈ vertices g)) as [Hv|Hv];
    [rewrite (getitem_Some _ _ _ (wf_local_adj g v Hg Hv))| |
     rewrite (getitem_Some _ _ _ (wf_local_adj g v Hg Hv))|]; simpl;
    try (match goal with |- context [container_mem ?x ?c] =>
       destruct (container_mem x c) end); simpl; eauto.
Qed.

Lemma Size_loop_no_KeyError g nodes m w e :
  wf_local g → (∀ x, x ∈ nodes → x ∈ vertices g) →
  Size_loop g nodes m w = Err e → e = OverflowError.
Proof.
  intros Hg. revert m w.
  induction nodes as [|x nodes IH]; intros m w Hin; simpl; [discriminate|].
  assert (Hx : x ∈ vertices g) by (apply Hin; left).
  rewrite (getitem_Some _ _ _ (wf_degree g Hg x Hx)). simpl.
  unfold wedges_at, float_of_int at 1.
  case_match; simpl; [|congruence].
  unfold num_add_float. destruct w as [z|f]; simpl.
  - unfold float_of_int. case_match; simpl; [|congruence].
    apply IH. intros y Hy. apply Hin. right. exact Hy.
  - apply IH. intros y Hy. apply Hin. right. exact Hy.
Qed.

Lemma Size_no_KeyError g e :
  wf_local g → Size g = Err e → e = OverflowError.
Proof.
  intros Hg. unfold Size.
  destruct (Size_loop g (set_order (vertices g)) 0 (PyInt 0)) as [[m w]|e']
    eqn:Hloop; simpl; [discriminate|].
  intros [= <-]. eapply Size_loop_no_KeyError; [exact Hg| |exact Hloop].
  intros x Hx. rewrite set_order_perm in Hx. apply elem_of_elements in Hx.
  exact Hx.
Qed.

(** *** What [Size] returns *)

Lemma f64_round_exact z : 0 ≤ z < 2 ^ 53 → f64_round z = z.
Proof.
  intros [Hlo Hhi]. unfold f64_round.
  rewrite (proj2 (Z.leb_le 0 z)) by exact Hlo. unfold f64_round_nonneg.
  assert (Hlog : Z.log2 z - 52 ≤ 0).
  { destruct (Z.eq_dec z 0) as [->|Hz]; [vm_compute; discriminate|].
    assert (Z.log2 z < 53) by (apply Z.log2_lt_pow2; lia). lia. }
  rewrite (proj2 (Z.leb_le _ _) Hlog). reflexivity.
Qed.

Lemma f64_limit_above : 2 ^ 53 < f64_limit.
Proof. reflexivity. Qed.

Lemma float_of_int_exact z : 0 ≤ z < 2 ^ 53 → float_of_int z = Ok (Finite z).
Proof.
  intros Hz. unfold float_of_int. rewrite (f64_round_exact z Hz).
  pose proof f64_limit_above.
  rewrite (proj2 (Z.ltb_lt _ _)) by lia. reflexivity.
Qed.

Lemma float_add_exact x y :
  0 ≤ x → 0 ≤ y → x + y < 2 ^ 53 →
  float_add (Finite x) (Finite y) = Finite (x + y).
Proof.
  intros Hx Hy Hxy. unfold float_add.
  rewrite (f64_round_exact (x + y)) by lia. pose proof f64_limit_above.
  rewrite (proj2 (Z.ltb_lt _ _)) by lia. reflexivity.
Qed.

Lemma choose2_nonneg d : 0 ≤ choose2 d.
Proof. unfold choose2. apply Z.div_pos; nia. Qed.

Lemma sum_nonneg {A} (f : A → Z) xs :
  (∀ x, 0 ≤ f x) → 0 ≤ foldr Z.add 0 (f <$> xs).
Proof.
  intros Hf. induction xs as [|x xs IH]; [simpl; lia|].
  rewrite fmap_cons. cbn [foldr]. specialize (Hf x). lia.
Qed.

Lemma sum_permutation {A} (f : A → Z) xs ys :
  xs ≡ₚ ys → foldr Z.add 0 (f <$> xs) = foldr Z.add 0 (f <$> ys).
Proof. induction 1; rewrite ?fmap_cons; cbn [foldr]; lia. Qed.

Lemma degree_of_vertex g v :
  wf_local g → v ∈ vertices g → getitem (degrees g) v = Ok (degree_of g v).
Proof.
  intros Hg Hv. unfold degree_of.
  rewrite (getitem_Some _ _ _ (wf_degree g Hg v Hv)).
  rewrite (wf_degree g Hg v Hv). reflexivity.
Qed.

(** [m] is exact in every case: Python ints do not overflow. *)
Lemma Size_loop_m g nodes m w m' w' :
  wf_local g → (∀ x, x ∈ nodes → x ∈ vertices g) →
  Size_loop g nodes m w = Ok (m', w') →
  m' = m + foldr Z.add 0 (degree_of g <$> nodes).
Proof.
  intros Hg. revert m w.
  induction nodes as [|x nodes IH]; intros m w Hin.
  - simpl. intros [= <- <-]. lia.
  - assert (Hx : x ∈ vertices g) by (apply Hin; left).
    rewrite fmap_cons. cbn [foldr Size_loop].
    rewrite (degree_of_vertex g x Hg Hx). cbn [mbind result_bind].
    destruct (wedges_at (degree_of g x)) as [f|e]; [|discriminate].
    cbn [mbind result_bind].
    destruct (num_add_float w f) as [w1|e]; [|discriminate].
    cbn [mbind result_bind].
    intros Hrun. apply IH in Hrun; [lia|].
    intros y Hy. apply Hin. right. exact Hy.
Qed.

Lemma Size_n_m_exact g n m w :
  wf_local g → Size g = Ok (n, m, w) →
  n = Z.of_nat (size (vertices g)) ∧ m = degree_sum g.
Proof.
  intros Hg. unfold Size.
  destruct (Size_loop g (set_order (vertices g)) 0 (PyInt 0)) as [[m1 w1]|e]
    eqn:Hloop; simpl; [|discriminate].
  intros [= <- <- <-]. split; [reflexivity|].
  apply Size_loop_m in Hloop; [|exact Hg|].
  - rewrite Hloop. unfold degree_sum.
    rewrite (sum_permutation _ _ _ (set_order_perm (vertices g))). lia.
  - intros x Hx. apply set_order_elem_of. exact Hx.
Qed.

(** The wedge count is accumulated in floating point; it is exact as long
    as it stays below 2^53. *)
Lemma Size_loop_exact g nodes m w a :
  wf_local g → (∀ x, x ∈ nodes → x ∈ vertices g) →
  w = PyInt 0 ∧ a = 0 ∨ w = PyFloat (Finite a) →
  0 ≤ a →
  a + foldr Z.add 0 ((λ v, choose2 (degree_of g v)) <$> nodes) < 2 ^ 53 →
  Size_loop g nodes m w =
    Ok (m + foldr Z.add 0 (degree_of g <$> nodes),
        match nodes with
        | [] => w
        | _ => PyFloat (Finite
                 (a + foldr Z.add 0 ((λ v, choose2 (degree_of g v)) <$> nodes)))
        end).
Proof.
  intros Hg. revert m w a.
  induction nodes as [|x nodes IH]; intros m w a Hin Hw Ha Hsum.
  - simpl. do 2 f_equal. lia.
  - assert (Hx : x ∈ vertices g) by (apply Hin; left).
    rewrite !fmap_cons in *. cbn [foldr Size_loop] in *.
    pose proof (choose2_nonneg (degree_of g x)) as Hc.
    pose proof (sum_nonneg (λ v, choose2 (degree_of g v)) nodes
                  (λ v, choose2_nonneg _)) as Hrest.
    rewrite (degree_of_vertex g x Hg Hx). cbn [mbind result_bind].
    unfold wedges_at. fold (choose2 (degree_of g x)).
    rewrite float_of_int_exact by lia. cbn [mbind result_bind].
    assert (Hadd : num_add_float w (Finite (choose2 (degree_of g x))) =
                   Ok (PyFloat (Finite (a + choose2 (degree_of g x))))).
    { destruct Hw as [[-> ->]| ->]; unfold num_add_float.
      - rewrite float_of_int_exact by lia. cbn [mbind result_bind mret result_ret].
        rewrite float_add_exact by lia. reflexivity.
      - cbn [mret result_ret]. rewrite float_add_exact by lia. reflexivity. }
    rewrite Hadd. cbn [mbind result_bind].
    rewrite (IH _ _ (a + choose2 (degree_of g x))); [| |right; reflexivity|lia|lia].
    2:{ intros y Hy. apply Hin. right. exact Hy. }
    f_equal. f_equal; [lia|].
    destruct nodes as [|y nodes]; [simpl; do 2 f_equal; lia|].
    do 2 f_equal. lia.
Qed.

Lemma Size_exact_below_2_53 g :
  wf_local g → wedge_count g < 2 ^ 53 →
  Size g =
    Ok (Z.of_nat (size (vertices g)), degree_sum g,
        if decide (vertices g = ∅) then PyInt 0
        else PyFloat (Finite (wedge_count g))).
Proof.
  intros Hg Hsmall. unfold Size.
  assert (Hperm := set_order_perm (vertices g)).
  unfold wedge_count in Hsmall.
  rewrite <- (sum_permutation _ _ _ Hperm) in Hsmall.
  rewrite (Size_loop_exact g _ 0 (PyInt 0) 0 Hg); [|
    intros x Hx; apply set_order_elem_of; exact Hx | left; auto | lia |
    rewrite Z.add_0_l; exact Hsmall].
  simpl. unfold degree_sum, wedge_count.
  rewrite <- (sum_permutation (degree_of g) _ _ Hperm).
  rewrite <- (sum_permutation (λ v, choose2 (degree_of g v)) _ _ Hperm).
  do 2 f_equal. case_decide as Hv.
  - rewrite Hv, set_order_empty. reflexivity.
  - destruct (set_order_nonempty _ Hv) as (x & rest & -> & _). reflexivity.
Qed.

(** *** [bincount] *)

Lemma bincount_length xs dd :
  bincount xs = Ok dd →
  length dd = match xs with
              | [] => 0%nat
              | _ => S (Z.to_nat (foldr Z.max 0 xs))
              end.
Proof.
  unfold bincount. case_decide; [|discriminate]. intros [= <-].
  rewrite length_fmap, length_seq. reflexivity.
Qed.

Lemma bincount_lookup xs dd (i : nat) :
  bincount xs = Ok dd → (i < length dd)%nat →
  dd !! i = Some (Z.of_nat (length (filter (λ x, x = Z.of_nat i) xs))).
Proof.
  unfold bincount. case_decide; [|discriminate]. intros [= <-].
  rewrite length_fmap, length_seq. intros Hi.
  rewrite list_lookup_fmap, lookup_seq_lt by exact Hi. reflexivity.
Qed.

Lemma foldr_max_bound xs x : x ∈ xs → x ≤ foldr Z.max 0 xs.
Proof.
  induction xs as [|y xs IH]; intros Hx; [inversion Hx|].
  simpl. apply elem_of_cons in Hx as [->|Hx]; [lia|].
  specialize (IH Hx). lia.
Qed.

Lemma foldr_max_le xs m :
  0 ≤ m → (∀ x, x ∈ xs → x ≤ m) → foldr Z.max 0 xs ≤ m.
Proof.
  intros Hm. induction xs as [|y xs IH]; intros Hall; simpl; [exact Hm|].
  assert (y ≤ m) by (apply Hall; left).
  assert (foldr Z.max 0 xs ≤ m) by (apply IH; intros x Hx; apply Hall; right; exact Hx).
  lia.
Qed.

Lemma foldr_max_elem xs :
  xs ≠ [] → (∀ x, x ∈ xs → 0 ≤ x) → foldr Z.max 0 xs ∈ xs.
Proof.
  induction xs as [|y xs IH]; intros Hne Hpos; [congruence|].
  cbn [foldr]. assert (Hy : 0 ≤ y) by (apply Hpos; left).
  destruct xs as [|z xs].
  - simpl. rewrite Z.max_l by lia. left.
  - assert (Hin : foldr Z.max 0 (z :: xs) ∈ z :: xs).
    { apply IH; [discriminate|]. intros x Hx. apply Hpos. right. exact Hx. }
    destruct (Z.max_spec y (foldr Z.max 0 (z :: xs))) as [[_ ->]|[_ ->]];
      [right; exact Hin|left].
Qed.

(** The values of a dict, counted, against the keys, counted. *)
Lemma count_values_keys (m : gmap V Z) (i : Z) :
  length (filter (λ x, x = i) (map_to_list m).*2) =
  size (filter (λ v, m !! v = Some i) (dom m)).
Proof.
  induction m as [|k x m Hk Hfirst IH] using map_first_key_ind.
  - rewrite map_to_list_empty, dom_empty_L. simpl. symmetry.
    apply size_empty_iff, equiv_empty. intros v Hv.
    apply elem_of_filter in Hv as [_ Hv]. exact Hv.
  - rewrite map_to_list_insert_first_key by assumption.
    rewrite dom_insert_L.
    rewrite (filter_union_L (C := gset V)) by apply _.
    assert (Hrest : filter (λ v, <[k:=x]> m !! v = Some i) (dom m) =
                    filter (λ v, m !! v = Some i) (dom m)).
    { apply set_eq. intros v. rewrite !elem_of_filter.
      split; intros [Hv Hd]; (split; [|exact Hd]);
        apply elem_of_dom in Hd as [y Hy];
        (rewrite lookup_insert_ne in * by congruence); exact Hv. }
    rewrite Hrest, size_union.
    2:{ intros v Hv1 Hv2. apply elem_of_filter in Hv1 as [_ Hv1].
        apply elem_of_filter in Hv2 as [_ Hv2].
        apply elem_of_singleton in Hv1 as ->.
        apply elem_of_dom in Hv2 as [y Hy]. congruence. }
    rewrite <- IH. simpl. rewrite filter_cons. simpl.
    destruct (decide (x = i)) as [->|Hxi].
    + rewrite (filter_singleton_True_L (C := gset V));
        [|apply _|apply lookup_insert_eq].
      rewrite size_singleton. reflexivity.
    + rewrite (filter_singleton_False_L (C := gset V));
        [|apply _|rewrite lookup_insert_eq; congruence].
      rewrite size_empty. reflexivity.
Qed.

Lemma Deg_dist_ok g : wf_local g → ∃ dd, Deg_dist g = Ok dd.
Proof.
  intros Hg. unfold Deg_dist, bincount. rewrite decide_True; [eauto|].
  apply Forall_forall. intros d Hd.
  apply list_elem_of_fmap in Hd as [[v d'] [-> Hvd]]. simpl.
  apply elem_of_map_to_list in Hvd.
  assert (Hv : v ∈ vertices g).
  { rewrite <- (wf_deg_dom g Hg). apply elem_of_dom. eauto. }
  rewrite (wf_degree g Hg v Hv) in Hvd. injection Hvd as <-. lia.
Qed.

(** ** [Degeneracy] leaves the objects that exist alone *)

Lemma keeps_bind {A B} n0 (Q : A → Prop) (R : B → Prop) m (f : A → SE state B) :
  keeps n0 Q m → (∀ a, Q a → keeps n0 R (f a)) → keeps n0 R (m ≫= f).
Proof.
  intros Hm Hf st Hst. destruct (Hm st Hst) as (Hlen & Htake & Hres).
  rewrite se_bind_unfold. destruct (m st) as [[a|e] st'] eqn:Hrun; simpl in *.
  - destruct (Hf a (Hres a eq_refl) st' Hlen) as (Hlen' & Htake' & Hres').
    repeat split; [exact Hlen'|congruence|exact Hres'].
  - repeat split; [exact Hlen|exact Htake|discriminate].
Qed.

Lemma keeps_pure {A} n0 (Q : A → Prop) (f : state → result A) :
  (∀ st a, f st = Ok a → Q a) → keeps n0 Q (λ st, (f st, st)).
Proof. intros HQ st Hst. simpl. repeat split; eauto. Qed.

Lemma keeps_ret {A} n0 (a : A) : keeps n0 (λ _, True) (mret a).
Proof. apply (keeps_pure n0 _ (λ _, Ok a)). auto. Qed.

Lemma keeps_lift {A} n0 (r : result A) : keeps n0 (λ _, True) (se_lift r).
Proof. apply (keeps_pure n0 _ (λ _, r)). auto. Qed.

Lemma keeps_raise {A} n0 e : keeps n0 (λ _ : A, True) (se_raise e).
Proof. apply (keeps_pure n0 _ (λ _, Err e)). auto. Qed.

Lemma keeps_get n0 : keeps n0 (λ _, True) se_get.
Proof. apply (keeps_pure n0 _ (λ st, Ok st)). auto. Qed.

Lemma keeps_load n0 l : keeps n0 (λ _, True) (load l).
Proof.
  intros st Hst. unfold load. destruct (objs st !! l); simpl; auto.
Qed.

Lemma keeps_field {A} n0 l (f : obj → A) : keeps n0 (λ _, True) (field l f).
Proof.
  unfold field. eapply keeps_bind; [apply keeps_load|].
  intros o _. apply keeps_ret.
Qed.

Lemma keeps_alloc n0 o : keeps n0 (λ l, (n0 ≤ l)%nat) (alloc o).
Proof.
  intros st Hst. unfold alloc. simpl. rewrite length_app. simpl.
  repeat split; [lia|apply take_app_le; exact Hst|].
  intros a [= <-]. exact Hst.
Qed.

Lemma keeps_store n0 l f : (n0 ≤ l)%nat → keeps n0 (λ _, True) (store l f).
Proof.
  intros Hl st Hst. unfold store, se_modify. simpl.
  rewrite length_alter. repeat split; [exact Hst|].
  apply take_alter_ge. exact Hl.
Qed.

Lemma keeps_set_top_order n0 o :
  keeps n0 (λ _, True) (se_modify (λ st, mkState (objs st) o)).
Proof. intros st Hst. unfold se_modify. simpl. auto. Qed.

Lemma keeps_for {A} n0 (xs : list A) body :
  (∀ x, keeps n0 (λ _, True) (body x)) → keeps n0 (λ _, True) (se_for xs body).
Proof.
  intros Hbody. induction xs as [|x xs IH]; simpl.
  - apply keeps_ret.
  - apply (keeps_bind n0 (λ _, True)); [apply Hbody|]. intros _ _. exact IH.
Qed.

Lemma keeps_DAG_new n0 : keeps n0 (λ l, (n0 ≤ l)%nat) DAG_new.
Proof.
  unfold DAG_new. eapply keeps_bind; [apply keeps_alloc|].
  intros l Hl. simpl. eapply keeps_bind; [apply keeps_set_top_order|].
  intros _ _. apply (keeps_pure n0 _ (λ _, Ok l)). intros _ a [= <-]. exact Hl.
Qed.

Lemma keeps_get_top_order n0 l : keeps n0 (λ _, True) (get_top_order l).
Proof.
  unfold get_top_order. eapply keeps_bind; [apply keeps_load|].
  intros o _. destruct (cls o); [apply keeps_raise|].
  eapply keeps_bind; [apply keeps_get|]. intros st _.
  destruct (DAG_top_order st); [apply keeps_ret|apply keeps_raise].
Qed.

Lemma keeps_top_order_append n0 l x :
  keeps n0 (λ _, True) (top_order_append l x).
Proof.
  unfold top_order_append. eapply keeps_bind; [apply keeps_get_top_order|].
  intros t _. apply keeps_set_top_order.
Qed.

Ltac keeps_step :=
  first
    [ apply keeps_ret | apply keeps_lift | apply keeps_raise
    | apply keeps_field | apply keeps_load | apply keeps_top_order_append
    | apply keeps_store; assumption
    | eapply keeps_bind;
      [ first [ apply keeps_lift | apply keeps_field | apply keeps_load
              | apply keeps_top_order_append
              | apply keeps_store; assumption ]
      | intros ? _ ] ].

Lemma keeps_core_init_loop n0 core_G nodes :
  (n0 ≤ core_G)%nat → keeps n0 (λ _, True) (core_init_loop core_G nodes).
Proof.
  intros Hc. unfold core_init_loop. apply keeps_for. intros x.
  repeat keeps_step.
Qed.

Lemma keeps_bucket_loop n0 G nodes deg_list min_deg :
  keeps n0 (λ _, True) (bucket_loop G nodes deg_list min_deg).
Proof.
  revert deg_list min_deg.
  induction nodes as [|x nodes IH]; intros deg_list min_deg; simpl.
  - apply keeps_ret.
  - do 3 keeps_step. destruct a1 as [i s]. apply IH.
Qed.

Lemma keeps_peel_loop n0 G core_G source nodes deg_list min_deg :
  (n0 ≤ G)%nat → (n0 ≤ core_G)%nat →
  keeps n0 (λ _, True) (peel_loop G core_G source nodes deg_list min_deg).
Proof.
  intros HG Hc. revert deg_list min_deg.
  induction nodes as [|x nodes IH]; intros deg_list min_deg; simpl.
  - apply keeps_ret.
  - do 3 keeps_step. destruct a1 as [i s]. keeps_step.
    keeps_step. destruct a2 as [j t]. do 14 keeps_step.
    eapply keeps_bind; [case_decide; [apply keeps_raise|apply keeps_ret]|].
    intros _ _. apply IH.
Qed.

Lemma keeps_main_loop n0 iters G core_G deg_list min_deg :
  (n0 ≤ G)%nat → (n0 ≤ core_G)%nat →
  keeps n0 (λ _, True) (main_loop iters G core_G deg_list min_deg).
Proof.
  intros HG Hc. revert deg_list min_deg.
  induction iters as [|iters IH]; intros deg_list min_deg; simpl.
  - apply keeps_ret.
  - do 2 keeps_step. destruct a0 as [i s]. keeps_step.
    destruct a0 as [source s']. do 3 keeps_step.
    eapply keeps_bind; [apply keeps_peel_loop; assumption|].
    intros [dl md] _. apply IH.
Qed.

Lemma keeps_Degeneracy n0 self : keeps n0 (λ _, True) (Degeneracy self).
Proof.
  unfold Degeneracy. keeps_step.
  eapply keeps_bind; [apply keeps_alloc|]. intros G HG. simpl in HG.
  keeps_step.
  eapply keeps_bind; [apply keeps_DAG_new|]. intros core_G Hc. simpl in Hc.
  do 2 keeps_step.
  eapply keeps_bind; [apply keeps_core_init_loop; assumption|]. intros _ _.
  keeps_step.
  eapply keeps_bind; [apply keeps_bucket_loop|]. intros [dl md] _.
  eapply keeps_bind; [apply keeps_main_loop; assumption|]. intros _ _.
  apply keeps_ret.
Qed.

(** ** [Degeneracy] on well-formed graphs *)

Lemma list_index_nat {A} (l : list A) (k : nat) a :
  l !! k = Some a → list_index l (Z.of_nat k) = Ok (k, a).
Proof.
  intros Hk. pose proof (lookup_lt_Some _ _ _ Hk) as Hlt.
  unfold list_index.
  rewrite (proj2 (Z.leb_le 0 (Z.of_nat k))) by lia.
  rewrite (proj2 (Z.leb_le 0 (Z.of_nat k))) by lia.
  rewrite (proj2 (Z.ltb_lt _ _)) by lia. simpl.
  rewrite Nat2Z.id, Hk. reflexivity.
Qed.

Lemma wf_nbr_vertex g u v :
  wf g → v ∈ dom (nbrs g u) → v ∈ vertices g ∧ u ≠ v.
Proof.
  intros Hg Hv. split.
  - apply (wf_edge_dom g u v Hg) in Hv.
    rewrite <- (wf_adj_dom g (wf_loc g Hg)).
    apply elem_of_dom. destruct (adj_list g !! v) eqn:Hadj; [eauto|].
    rewrite (nbrs_None g v Hadj), dom_empty_L in Hv.
    apply not_elem_of_empty in Hv. contradiction.
  - intros ->. apply elem_of_dom in Hv as [l Hl].
    rewrite (wf_noloop g Hg v) in Hl. discriminate.
Qed.

Lemma wf_degree_bounds g v :
  wf g → v ∈ vertices g →
  (1 ≤ size (nbrs g v) < size (vertices g))%nat.
Proof.
  intros Hg Hv. split.
  - pose proof (wf_nonisolated g Hg v Hv) as Hne.
    destruct (size (nbrs g v)) eqn:Hsz; [|lia].
    apply map_size_empty_iff in Hsz. contradiction.
  - rewrite <- size_dom. apply subset_size. split.
    + intros u Hu. apply (wf_nbr_vertex g v u Hg Hu).
    + intros Hsub. specialize (Hsub v Hv).
      destruct (wf_nbr_vertex g v v Hg Hsub) as [_ Hneq]. congruence.
Qed.

Lemma field_run {A} l (f : obj → A) st o :
  objs st !! l = Some o → field l f st = (Ok (f o), st).
Proof. intros Hl. unfold field, load. se_unfold. rewrite Hl. reflexivity. Qed.

(** Lines 199-203 place every vertex in the bucket of its degree. *)
Lemma bucket_loop_run G g st nodes deg_list min_deg P :
  objs st !! G = Some g → wf g →
  (∀ x, x ∈ nodes → x ∈ vertices g) →
  buckets_ok g deg_list P → min_ok g P min_deg →
  ∃ dl md,
    bucket_loop G nodes deg_list min_deg st = (Ok (dl, md), st) ∧
    buckets_ok g dl (P ∪ list_to_set nodes) ∧
    min_ok g (P ∪ list_to_set nodes) md.
Proof.
  intros HG Hg. revert deg_list min_deg P.
  induction nodes as [|x nodes IH]; intros dl md P Hin Hb Hm.
  - exists dl, md. simpl. rewrite union_empty_r_L. auto.
  - assert (Hx : x ∈ vertices g) by (apply Hin; left).
    pose proof (wf_degree g (wf_loc g Hg) x Hx) as Hdeg.
    pose proof (wf_degree_bounds g x Hg Hx) as Hbound.
    destruct Hb as (Hlen & Hb1 & Hb2).
    destruct (lookup_lt_is_Some_2 dl (size (nbrs g x))) as [s Hs]; [lia|].
    cbn [bucket_loop].
    rewrite (se_bind_ok _ _ _ _ _ (field_run G degrees st g HG)).
    rewrite se_bind_unfold. unfold se_lift at 1.
    rewrite (getitem_Some _ _ _ Hdeg). cbv beta iota.
    rewrite se_bind_unfold. unfold se_lift at 1.
    rewrite (list_index_nat _ _ _ Hs). cbv beta iota.
    set (dl' := <[size (nbrs g x) := {[x]} ∪ s]> dl).
    set (md' := if Z.of_nat (size (nbrs g x)) <? md
                then Z.of_nat (size (nbrs g x)) else md).
    destruct (IH dl' md' (P ∪ {[x]})) as (dl2 & md2 & Hrun & Hb' & Hm').
    + intros y Hy. apply Hin. right. exact Hy.
    + split; [|split].
      * unfold dl'. rewrite length_insert. exact Hlen.
      * intros i t y Hi Hy. unfold dl' in Hi.
        destruct (decide (i = size (nbrs g x))) as [->|Hne].
        -- rewrite list_lookup_insert_eq in Hi by (rewrite Hlen; lia).
           injection Hi as <-. apply elem_of_union in Hy as [Hy|Hy].
           ++ apply elem_of_singleton in Hy as ->.
              split; [set_solver|exact Hdeg].
           ++ destruct (Hb1 _ _ _ Hs Hy). split; [set_solver|assumption].
        -- rewrite list_lookup_insert_ne in Hi by congruence.
           destruct (Hb1 _ _ _ Hi Hy). split; [set_solver|assumption].
      * intros y Hy. unfold dl'. apply elem_of_union in Hy as [Hy|Hy].
        -- destruct (Hb2 y Hy) as (i & t & Hd & Hi & Hyt).
           destruct (decide (i = size (nbrs g x))) as [->|Hne].
           ++ exists (size (nbrs g x)), ({[x]} ∪ s). split; [exact Hd|].
              rewrite list_lookup_insert_eq by (rewrite Hlen; lia).
              split; [reflexivity|]. rewrite Hs in Hi. injection Hi as <-.
              set_solver.
           ++ exists i, t. rewrite list_lookup_insert_ne by congruence. auto.
        -- apply elem_of_singleton in Hy as ->.
           exists (size (nbrs g x)), ({[x]} ∪ s). split; [exact Hdeg|].
           rewrite list_lookup_insert_eq by (rewrite Hlen; lia).
           split; [reflexivity|set_solver].
    + right. unfold md'. destruct Hm as [[-> ->]|(y & Hy & Hyd)].
      * exists x. split; [set_solver|].
        rewrite (proj2 (Z.ltb_lt _ _)) by lia. exact Hdeg.
      * destruct (Z.ltb_spec (Z.of_nat (size (nbrs g x))) md).
        -- exists x. split; [set_solver|exact Hdeg].
        -- exists y. split; [set_solver|exact Hyd].
    + exists dl2, md2. split; [exact Hrun|].
      replace (P ∪ list_to_set (x :: nodes)) with (P ∪ {[x]} ∪ list_to_set nodes)
        by (simpl; set_solver).
      auto.
Qed.

Lemma top_order_append_run core c t x st :
  objs st !! core = Some c → cls c = ClsDAG → DAG_top_order st = Some t →
  top_order_append core x st = (Ok tt, mkState (objs st) (Some (t ++ [x]))).
Proof.
  intros Hc Hcls Ht. unfold top_order_append, get_top_order, load.
  se_unfold. rewrite Hc, Hcls, Ht. reflexivity.
Qed.

Lemma advance_stop deg_list (k : nat) s :
  deg_list !! k = Some s → size s ≠ 0%nat →
  advance (advance_fuel deg_list) deg_list (Z.of_nat k) = Ok (Z.of_nat k).
Proof.
  intros Hs Hsz. unfold advance_fuel.
  replace (2 * length deg_list + 2)%nat with (S (2 * length deg_list + 1)) by lia.
  cbn [advance]. rewrite (list_index_nat _ _ _ Hs). cbn [mbind result_bind].
  rewrite decide_False by exact Hsz. reflexivity.
Qed.

(** On a well-formed graph with a vertex, the first round of the main loop
    takes a vertex of least degree, reaches its first neighbour, and stops
    at line 232: the neighbour's adjacency is a dict, which has no
    [remove]. *)
Lemma main_loop_raises G core g c t st deg_list min_deg iters :
  objs st !! G = Some g → objs st !! core = Some c → cls c = ClsDAG →
  DAG_top_order st = Some t →
  wf g → vertices g ≠ ∅ →
  buckets_ok g deg_list (vertices g) → min_ok g (vertices g) min_deg →
  (main_loop (S iters) G core deg_list min_deg st).1 = Err AttributeError.
Proof.
  intros HG Hc Hcls Ht Hg Hne (Hlen & Hb1 & Hb2) Hm.
  destruct Hm as [[Hempty _]|(x0 & Hx0 & Hx0d)]; [contradiction|].
  destruct (Hb2 x0 Hx0) as (k & s & Hk & Hs & Hx0s).
  assert (min_deg = Z.of_nat k) as -> by congruence.
  assert (Hsne : s ≠ ∅) by (intros ->; apply not_elem_of_empty in Hx0s; exact Hx0s).
  assert (Hsz : size s ≠ 0%nat).
  { intros Hz. apply size_empty_iff in Hz. apply Hsne.
    apply leibniz_equiv. exact Hz. }
  destruct (set_order_nonempty s Hsne) as (source & rest & Hord & Hsrc).
  destruct (Hb1 k s source Hs Hsrc) as [Hsv Hsd].
  pose proof (wf_local_adj g source (wf_loc g Hg) Hsv) as Hadj.
  pose proof (wf_nonisolated g Hg source Hsv) as Hnbr.
  assert (Hdne : dom (nbrs g source) ≠ ∅).
  { intros Hd. apply Hnbr. apply dom_empty_iff_L. exact Hd. }
  destruct (set_order_nonempty _ Hdne) as (node & rest' & Hord' & Hnode).
  destruct (wf_nbr_vertex g source node Hg Hnode) as [Hnv Hneq].
  pose proof (wf_degree g (wf_loc g Hg) node Hnv) as Hnd.
  pose proof (wf_degree_bounds g node Hg Hnv) as Hnb.
  destruct (Hb2 node Hnv) as (kn & sn & Hkn & Hsn & Hnsn).
  assert (kn = size (nbrs g node)) as ->.
  { rewrite Hnd in Hkn. injection Hkn as Hkn. lia. }
  pose proof (wf_local_adj g node (wf_loc g Hg) Hnv) as Hnadj.
  set (st' := mkState (objs st) (Some (t ++ [source]))).
  assert (HG' : objs st' !! G = Some g) by exact HG.
  cbn [main_loop].
  (* the while loop stops at once *)
  rewrite se_bind_unfold. unfold se_lift at 1.
  rewrite (advance_stop _ _ _ Hs Hsz). cbv beta iota.
  rewrite se_bind_unfold. unfold se_lift at 1.
  rewrite (list_index_nat _ _ _ Hs). cbv beta iota.
  rewrite se_bind_unfold. unfold se_lift at 1.
  unfold set_pop. rewrite Hord. cbv beta iota.
  rewrite (se_bind_ok _ _ _ _ _ (top_order_append_run core c t source st Hc Hcls Ht)).
  fold st'.
  rewrite (se_bind_ok _ _ _ _ _ (field_run G adj_list st' g HG')).
  rewrite se_bind_unfold. unfold se_lift at 1.
  rewrite (getitem_Some _ _ _ Hadj). cbv beta iota.
  cbn [container_keys]. rewrite Hord'.
  (* the first neighbour *)
  set (dl1 := <[k := s ∖ {[source]}]> deg_list).
  assert (Hdl1 : dl1 !! size (nbrs g node) = Some (if decide (k = size (nbrs g node)) then s ∖ {[source]} else sn)).
  { unfold dl1. case_decide as Hkk.
    - subst k. apply list_lookup_insert_eq. rewrite Hlen. lia.
    - rewrite list_lookup_insert_ne by exact Hkk. exact Hsn. }
  cbn [peel_loop]. rewrite se_bind_unfold.
  rewrite (se_bind_ok _ _ _ _ _ (field_run G degrees st' g HG')).
  rewrite se_bind_unfold. unfold se_lift at 1.
  rewrite (getitem_Some _ _ _ Hnd). cbv beta iota.
  rewrite se_bind_unfold. unfold se_lift at 1.
  rewrite (list_index_nat _ _ _ Hdl1). cbv beta iota.
  rewrite se_bind_unfold. unfold se_lift at 1.
  unfold set_remove. rewrite decide_True.
  2:{ case_decide as Hkk.
      - subst k. rewrite Hs in Hsn. injection Hsn as <-.
        apply elem_of_difference. split; [exact Hnsn|].
        rewrite elem_of_singleton. congruence.
      - exact Hnsn. }
  cbv beta iota.
  set (dl2 := <[size (nbrs g node) := _]> dl1).
  assert (Hdl2 : is_Some (dl2 !! (size (nbrs g node) - 1)%nat)).
  { apply lookup_lt_is_Some_2. unfold dl2, dl1.
    rewrite !length_insert, Hlen. lia. }
  destruct Hdl2 as [t2 Hdl2].
  replace (Z.of_nat (size (nbrs g node)) - 1)
    with (Z.of_nat (size (nbrs g node) - 1)) by lia.
  rewrite se_bind_unfold. unfold se_lift at 1.
  rewrite (list_index_nat _ _ _ Hdl2). cbv beta iota.
  rewrite (se_bind_ok _ _ _ _ _ (field_run G adj_list st' g HG')).
  rewrite se_bind_unfold. unfold se_lift at 1.
  rewrite (getitem_Some _ _ _ Hnadj). cbv beta iota.
  reflexivity.
Qed.

Lemma se_for_cons {S A} (x : A) xs (body : A → SE S unit) :
  se_for (x :: xs) body = (body x ≫= λ _, se_for xs body).
Proof. reflexivity. Qed.

Lemma alloc_run o st :
  alloc o st = (Ok (length (objs st)), mkState (objs st ++ [o]) (DAG_top_order st)).
Proof. reflexivity. Qed.

Lemma DAG_new_run st :
  DAG_new st =
    (Ok (length (objs st)),
     mkState (objs st ++ [mkObj ClsDAG ∅ ∅ ∅]) (Some [])).
Proof. reflexivity. Qed.

Lemma store_run l f st :
  store l f st = (Ok tt, mkState (alter f l (objs st)) (DAG_top_order st)).
Proof. reflexivity. Qed.

(** Lines 191-193 only write to [core_G]. *)
Lemma core_init_loop_run core nodes st c :
  objs st !! core = Some c →
  ∃ st' c',
    core_init_loop core nodes st = (Ok tt, st') ∧
    DAG_top_order st' = DAG_top_order st ∧
    (∀ l, l ≠ core → objs st' !! l = objs st !! l) ∧
    objs st' !! core = Some c' ∧ cls c' = cls c ∧ vertices c' = vertices c.
Proof.
  revert st c. induction nodes as [|x nodes IH]; intros st c Hc.
  - exists st, c. repeat split; auto.
  - unfold core_init_loop. rewrite se_for_cons.
    rewrite !se_bind_unfold, store_run. cbv beta iota. rewrite store_run.
    cbv beta iota. cbn [objs DAG_top_order].
    set (st1 := mkState _ _).
    assert (Hc1 : objs st1 !! core =
                  Some (set_degrees <[x := 0]> (set_adj_list <[x := CSet ∅]> c))).
    { unfold st1. cbn [objs]. rewrite !list_lookup_alter_eq, Hc. reflexivity. }
    destruct (IH st1 _ Hc1) as (st' & c' & Hrun & Htop & Hother & Hc' & Hcls & Hvs).
    exists st', c'. split; [exact Hrun|]. split; [exact Htop|].
    split; [|auto].
    intros l Hl. rewrite (Hother l Hl). unfold st1. cbn [objs].
    rewrite !list_lookup_alter_ne by congruence. reflexivity.
Qed.

(** The start of [Degeneracy], lines 186-190: the copy [G] and the output
    [core_G] are the two objects after those that exist. *)
Lemma Degeneracy_start self st g :
  objs st !! self = Some g →
  let G := length (objs st) in
  let core_G := S G in
  let n := size (vertices g) in
  Degeneracy self st =
    (core_init_loop core_G (set_order (vertices g)) ;;
     gv' ← field G vertices;
     '(deg_list, min_deg) ←
       bucket_loop G (set_order gv') (replicate n (∅ : gset V)) (Z.of_nat n);
     main_loop n G core_G deg_list min_deg ;;
     mret core_G)
      (mkState (objs st ++ [g; mkObj ClsDAG ∅ (vertices g) ∅]) (Some [])).
Proof.
  intros Hself G core_G n. unfold Degeneracy.
  rewrite se_bind_unfold. unfold load at 1. rewrite Hself.
  rewrite (se_bind_ok _ _ _ _ _ (alloc_run g st)). fold G.
  set (st1 := mkState (objs st ++ [g]) (DAG_top_order st)).
  assert (HG : objs st1 !! G = Some g).
  { unfold st1, G. cbn [objs]. apply list_lookup_middle. reflexivity. }
  rewrite (se_bind_ok _ _ _ _ _ (field_run G vertices st1 g HG)).
  rewrite (se_bind_ok _ _ _ _ _ (DAG_new_run st1)).
  assert (Hlen1 : length (objs st1) = core_G).
  { unfold st1, core_G, G. cbn [objs]. rewrite length_app. simpl. lia. }
  rewrite !Hlen1.
  rewrite se_bind_unfold, store_run. cbn [objs DAG_top_order].
  clear HG Hlen1. subst st1. cbn [objs].
  assert (Halter : alter (set_vertices (λ _, vertices g)) core_G
                     ((objs st ++ [g]) ++ [mkObj ClsDAG ∅ ∅ ∅]) =
                   objs st ++ [g; mkObj ClsDAG ∅ (vertices g) ∅]).
  { rewrite <- (assoc_L (++)). simpl.
    unfold core_G, G. rewrite (cons_middle g), (assoc_L (++)).
    rewrite alter_app_r_alt; [|rewrite length_app; simpl; lia].
    rewrite length_app. simpl.
    replace (S (length (objs st)) - (length (objs st) + 1))%nat with 0%nat by lia.
    rewrite <- (assoc_L (++)). reflexivity. }
  rewrite Halter.
  set (st2 := mkState _ (Some [])).
  assert (Hcore : objs st2 !! core_G = Some (mkObj ClsDAG ∅ (vertices g) ∅)).
  { unfold st2, core_G, G. cbn [objs].
    rewrite (cons_middle g), (assoc_L (++)).
    apply list_lookup_middle. rewrite length_app. simpl. lia. }
  rewrite (se_bind_ok _ _ _ _ _ (field_run core_G vertices st2 _ Hcore)).
  reflexivity.
Qed.

Lemma buckets_ok_start g :
  buckets_ok g (replicate (size (vertices g)) ∅) ∅.
Proof.
  split; [apply length_replicate|]. split.
  - intros i s x Hi Hx. apply lookup_replicate in Hi as [-> _].
    apply not_elem_of_empty in Hx. contradiction.
  - intros x Hx. apply not_elem_of_empty in Hx. contradiction.
Qed.

(** On a well-formed graph with at least one vertex, [Degeneracy] raises
    [AttributeError]. *)
Lemma Degeneracy_raises self st g :
  objs st !! self = Some g → wf g → vertices g ≠ ∅ →
  (Degeneracy self st).1 = Err AttributeError.
Proof.
  intros Hself Hg Hne. rewrite (Degeneracy_start self st g Hself).
  cbv zeta.
  set (G := length (objs st)). set (core_G := S G).
  set (st2 := mkState _ (Some [])).
  assert (HG2 : objs st2 !! G = Some g).
  { unfold st2, G. cbn [objs]. apply list_lookup_middle. reflexivity. }
  assert (Hcore : objs st2 !! core_G = Some (mkObj ClsDAG ∅ (vertices g) ∅)).
  { unfold st2, core_G, G. cbn [objs].
    rewrite (cons_middle g), (assoc_L (++)).
    apply list_lookup_middle. rewrite length_app. simpl. lia. }
  destruct (core_init_loop_run core_G (set_order (vertices g)) st2 _ Hcore)
    as (st3 & c' & Hrun & Htop & Hother & Hc' & Hcls & _).
  rewrite (se_bind_ok _ _ _ _ _ Hrun).
  assert (HG3 : objs st3 !! G = Some g).
  { rewrite Hother by (unfold core_G; lia). exact HG2. }
  rewrite (se_bind_ok _ _ _ _ _ (field_run G vertices st3 g HG3)).
  destruct (bucket_loop_run G g st3 (set_order (vertices g))
              (replicate (size (vertices g)) ∅)
              (Z.of_nat (size (vertices g))) ∅ HG3 Hg)
    as (dl & md & Hbrun & Hb & Hm).
  { intros x Hx. apply set_order_elem_of. exact Hx. }
  { apply buckets_ok_start. }
  { left. auto. }
  assert (Hall : ∅ ∪ list_to_set (set_order (vertices g)) = vertices g).
  { apply set_eq. intros x. rewrite elem_of_union, elem_of_list_to_set.
    rewrite set_order_elem_of. split; [intros [Hx|Hx]; [|exact Hx]|auto].
    apply not_elem_of_empty in Hx. contradiction. }
  rewrite Hall in Hb, Hm.
  rewrite (se_bind_ok _ _ _ _ _ Hbrun). cbv beta iota.
  destruct (size (vertices g)) as [|n'] eqn:Hsz.
  { exfalso. apply Hne. apply leibniz_equiv. apply size_empty_iff. exact Hsz. }
  assert (Htop3 : DAG_top_order st3 = Some []) by (rewrite Htop; reflexivity).
  pose proof (main_loop_raises G core_G g c' [] st3 dl md n'
                HG3 Hc' Hcls Htop3 Hg Hne Hb Hm) as Hmain.
  rewrite se_bind_unfold.
  destruct (main_loop (S n') G core_G dl md st3) as [[[]|e] st4];
    simpl in Hmain; [discriminate|].
  simpl. injection Hmain as ->. reflexivity.
Qed.

(** On a graph without vertices, [Degeneracy] returns a new [DAG] without
    vertices, and the topological order is the empty list. *)
Lemma Degeneracy_empty self st g :
  objs st !! self = Some g → vertices g = ∅ →
  Degeneracy self st =
    (Ok (S (length (objs st))),
     mkState (objs st ++ [g; mkObj ClsDAG ∅ ∅ ∅]) (Some [])).
Proof.
  intros Hself Hempty. rewrite (Degeneracy_start self st g Hself).
  cbv zeta. rewrite Hempty, size_empty, set_order_empty.
  set (st2 := mkState _ (Some [])).
  assert (HG2 : objs st2 !! length (objs st) = Some g).
  { unfold st2. cbn [objs]. apply list_lookup_middle. reflexivity. }
  unfold core_init_loop. cbn [se_for].
  rewrite se_bind_unfold. unfold mret at 1, SE_ret, se_ret. cbv beta iota.
  rewrite (se_bind_ok _ _ _ _ _ (field_run _ vertices st2 g HG2)).
  rewrite Hempty, set_order_empty. reflexivity.
Qed.

(** ** [Size] on a star *)

Lemma star_inv_init h : star_inv h ∅ graph_init.
Proof.
  split.
  - apply wf_graph_init.
  - rewrite decide_True by reflexivity. reflexivity.
  - rewrite nbrs_graph_init. apply dom_empty_L.
  - intros x Hx. apply not_elem_of_empty in Hx. contradiction.
Qed.

Lemma star_step h S g x value :
  star_inv h S g → x ≠ h → x ∉ S → h ∉ S →
  ∃ g', Add_und_edge h x value g = (Ok tt, g') ∧ star_inv h ({[x]} ∪ S) g'.
Proof.
  intros [Hg Hvs Hhub Hleaf] Hxh HxS HhS.
  rewrite (Add_und_edge_spec h x value g Hg).
  rewrite decide_False by congruence.
  rewrite decide_False by (rewrite Hhub; exact HxS).
  eexists. split; [reflexivity|].
  assert (Hnone : nbrs g h !! x = None).
  { apply not_elem_of_dom. rewrite Hhub. exact HxS. }
  assert (Hxv : x ∉ vertices g).
  { rewrite Hvs. case_decide; [apply not_elem_of_empty|].
    rewrite elem_of_union, elem_of_singleton. intros [?|?]; contradiction. }
  split.
  - apply wf_link_link; [exact Hg|congruence|exact Hnone].
  - rewrite decide_False.
    2:{ intros Hempty. apply (not_elem_of_empty (C := gset V) x).
        rewrite <- Hempty. apply elem_of_union_l, elem_of_singleton.
        reflexivity. }
    simpl. rewrite Hvs. case_decide as HS.
    + rewrite HS. apply set_eq. intros y.
      rewrite !elem_of_union, !elem_of_singleton. rewrite elem_of_empty.
      tauto.
    + apply set_eq. intros y. rewrite !elem_of_union, !elem_of_singleton.
      tauto.
  - rewrite !nbrs_link. rewrite decide_False by congruence.
    rewrite decide_True by reflexivity. rewrite dom_insert_L, Hhub.
    reflexivity.
  - intros y Hy. rewrite !nbrs_link.
    apply elem_of_union in Hy as [Hy|Hy].
    + apply elem_of_singleton in Hy as ->.
      rewrite decide_True by reflexivity.
      rewrite decide_False by congruence.
      rewrite (wf_local_not_vertex g x (wf_loc g Hg) Hxv).
      rewrite dom_insert_L, dom_empty_L. apply union_empty_r_L.
    + rewrite decide_False by (intros ->; contradiction).
      rewrite decide_False by (intros ->; contradiction).
      apply Hleaf. exact Hy.
Qed.

Lemma star_grow h leaves value g S :
  star_inv h S g → NoDup leaves → h ∉ leaves → h ∉ S →
  (∀ x, x ∈ leaves → x ∉ S) →
  ∃ g', add_edges (star_edges h leaves value) g = (Ok tt, g') ∧
        star_inv h (list_to_set leaves ∪ S) g'.
Proof.
  revert g S. induction leaves as [|x leaves IH]; intros g S Hinv Hnd Hh HhS Hfresh.
  - exists g. split; [reflexivity|]. simpl. rewrite union_empty_l_L. exact Hinv.
  - apply NoDup_cons in Hnd as [Hx Hnd].
    apply not_elem_of_cons in Hh as [Hhx Hh].
    destruct (star_step h S g x value Hinv) as (g1 & Hrun1 & Hinv1);
      [congruence|apply Hfresh; left|exact HhS|].
    destruct (IH g1 ({[x]} ∪ S) Hinv1 Hnd Hh) as (g2 & Hrun2 & Hinv2).
    + rewrite elem_of_union, elem_of_singleton. intros [?|?]; [congruence|contradiction].
    + intros y Hy. rewrite elem_of_union, elem_of_singleton.
      intros [->|HyS]; [contradiction|]. apply (Hfresh y); [right; exact Hy|exact HyS].
    + exists g2. split.
      * unfold add_edges, star_edges. rewrite fmap_cons, se_for_cons.
        rewrite se_bind_unfold. cbn [fst snd]. rewrite Hrun1. exact Hrun2.
      * replace (list_to_set (x :: leaves) ∪ S)
          with (list_to_set leaves ∪ ({[x]} ∪ S)); [exact Hinv2|].
        simpl. apply set_eq. intros y.
        rewrite !elem_of_union, !elem_of_singleton. tauto.
Qed.

Lemma star_degrees h S g v :
  star_inv h S g → h ∉ S → v ∈ vertices g →
  degrees g !! v = Some (if decide (v = h) then Z.of_nat (size S) else 1).
Proof.
  intros [Hg Hvs Hhub Hleaf] HhS Hv.
  rewrite (wf_degree g (wf_loc g Hg) v Hv). f_equal.
  rewrite <- size_dom. rewrite Hvs in Hv.
  case_decide as HS; [apply not_elem_of_empty in Hv; contradiction|].
  case_decide as Hvh.
  - subst v. rewrite Hhub. reflexivity.
  - apply elem_of_union in Hv as [Hv|Hv];
      [apply elem_of_singleton in Hv; contradiction|].
    rewrite (Hleaf v Hv), size_singleton. reflexivity.
Qed.

(** After the centre has been visited, every leaf adds 0.0. *)
Lemma Size_loop_leaves g h D R nodes m :
  (∀ v, v ∈ nodes → degrees g !! v = Some (if decide (v = h) then D else 1)) →
  h ∉ nodes → Z.abs R < f64_limit → f64_round R = R →
  ∃ m', Size_loop g nodes m (PyFloat (Finite R)) = Ok (m', PyFloat (Finite R)).
Proof.
  intros Hdeg Hh Hlim Hround. revert m.
  induction nodes as [|x nodes IH]; intros m.
  - eexists. reflexivity.
  - apply not_elem_of_cons in Hh as [Hhx Hh].
    cbn [Size_loop].
    assert (Hdx := Hdeg x (list_elem_of_here x nodes)).
    rewrite (getitem_Some _ _ _ Hdx).
    rewrite decide_False by congruence. cbn [mbind result_bind].
    change (wedges_at 1) with (Ok (Finite 0)). cbn [mbind result_bind].
    unfold num_add_float, float_add. cbn [mret result_ret mbind result_bind].
    rewrite Z.add_0_r, Hround, (proj2 (Z.ltb_lt _ _) Hlim).
    apply IH; [|exact Hh]. intros v Hv. apply Hdeg. right. exact Hv.
Qed.

Lemma Size_loop_star g h D R nodes m w :
  (∀ v, v ∈ nodes → degrees g !! v = Some (if decide (v = h) then D else 1)) →
  NoDup nodes → h ∈ nodes →
  wedges_at D = Ok (Finite R) → f64_round R = R →
  w = PyInt 0 ∨ w = PyFloat (Finite 0) →
  ∃ m', Size_loop g nodes m w = Ok (m', PyFloat (Finite R)).
Proof.
  intros Hdeg Hnd Hh HR Hround. revert m w.
  assert (Hlim : Z.abs R < f64_limit).
  { unfold wedges_at, float_of_int in HR.
    destruct (Z.ltb_spec (Z.abs (f64_round ((D * (D - 1)) `div` 2))) f64_limit)
      as [Hlt|Hge]; [|discriminate].
    injection HR as <-. exact Hlt. }
  induction nodes as [|x nodes IH]; intros m w Hw; [inversion Hh|].
  apply NoDup_cons in Hnd as [Hx Hnd].
  cbn [Size_loop].
  assert (Hdx := Hdeg x (list_elem_of_here x nodes)).
  rewrite (getitem_Some _ _ _ Hdx). cbn [mbind result_bind].
  destruct (decide (x = h)) as [->|Hxh].
  - rewrite HR. cbn [mbind result_bind].
    assert (Hadd : num_add_float w (Finite R) = Ok (PyFloat (Finite R))).
    { unfold num_add_float.
      destruct Hw as [->| ->];
        [change (float_of_int 0) with (Ok (Finite 0))|];
        cbn [mbind result_bind mret result_ret]; unfold float_add;
        rewrite Z.add_0_l, Hround, (proj2 (Z.ltb_lt _ _) Hlim); reflexivity. }
    rewrite Hadd. cbn [mbind result_bind].
    apply (Size_loop_leaves g h D R); [|exact Hx|exact Hlim|exact Hround].
    intros v Hv. apply Hdeg. right. exact Hv.
  - change (wedges_at 1) with (Ok (Finite 0)). cbn [mbind result_bind].
    assert (Hadd : num_add_float w (Finite 0) = Ok (PyFloat (Finite 0))).
    { destruct Hw as [->| ->]; reflexivity. }
    rewrite Hadd. cbn [mbind result_bind].
    apply IH; [|exact Hnd| |right; reflexivity].
    + intros v Hv. apply Hdeg. right. exact Hv.
    + apply elem_of_cons in Hh as [Hh|Hh]; [congruence|exact Hh].
Qed.

(** On a star whose centre has degree [D], the wedge count that [Size]
    returns is the float nearest to C(D, 2). *)
Lemma Size_star g h D R :
  (∀ v, v ∈ vertices g →
        degrees g !! v = Some (if decide (v = h) then D else 1)) →
  h ∈ vertices g →
  wedges_at D = Ok (Finite R) → f64_round R = R →
  ∃ m, Size g = Ok (Z.of_nat (size (vertices g)), m, PyFloat (Finite R)).
Proof.
  intros Hdeg Hh HR Hround. unfold Size.
  destruct (Size_loop_star g h D R (set_order (vertices g)) 0 (PyInt 0))
    as [m Hm]; try assumption.
  - intros v Hv. apply Hdeg. apply set_order_elem_of. exact Hv.
  - rewrite set_order_perm. apply NoDup_elements.
  - apply set_order_elem_of. exact Hh.
  - left. reflexivity.
  - exists m. rewrite Hm. reflexivity.
Qed.

Lemma sum_single {A} `{EqDecision A} (f : A → Z) (h : A) xs :
  NoDup xs → h ∈ xs → (∀ x, x ∈ xs → x ≠ h → f x = 0) →
  foldr Z.add 0 (f <$> xs) = f h.
Proof.
  induction xs as [|x xs IH]; intros Hnd Hh Hzero; [inversion Hh|].
  apply NoDup_cons in Hnd as [Hx Hnd]. rewrite fmap_cons. cbn [foldr].
  destruct (decide (x = h)) as [->|Hxh].
  - assert (Hrest : foldr Z.add 0 (f <$> xs) = 0); [|lia].
    clear IH Hh. induction xs as [|y xs IH]; [reflexivity|].
    rewrite fmap_cons. cbn [foldr].
    apply not_elem_of_cons in Hx as [Hhy Hx].
    apply NoDup_cons in Hnd as [_ Hnd].
    rewrite IH; [|exact Hx|exact Hnd|].
    + rewrite (Hzero y); [lia|right; left|congruence].
    + intros z Hz Hzh. apply Hzero; [|exact Hzh].
      apply elem_of_cons in Hz as [->|Hz]; [left|right; right; exact Hz].
  - rewrite (Hzero x); [|left|exact Hxh].
    rewrite IH; [lia|exact Hnd| |].
    + apply elem_of_cons in Hh as [Hh|Hh]; [congruence|exact Hh].
    + intros z Hz. apply Hzero. right. exact Hz.
Qed.

Lemma wedge_count_star g h D :
  (∀ v, v ∈ vertices g →
        degrees g !! v = Some (if decide (v = h) then D else 1)) →
  h ∈ vertices g →
  wedge_count g = choose2 D.
Proof.
  intros Hdeg Hh. unfold wedge_count.
  rewrite (sum_single (λ v, choose2 (degree_of g v)) h).
  - unfold degree_of. rewrite (Hdeg h Hh), decide_True by reflexivity.
    reflexivity.
  - apply NoDup_elements.
  - apply elem_of_elements. exact Hh.
  - intros x Hx Hxh. apply elem_of_elements in Hx.
    unfold degree_of. rewrite (Hdeg x Hx), decide_False by exact Hxh.
    reflexivity.
Qed.

(** The star with [length leaves] leaves, built by [Add_und_edge]. *)
Lemma Size_built_star h leaves value R :
  NoDup leaves → h ∉ leaves → leaves ≠ [] →
  wedges_at (Z.of_nat (length leaves)) = Ok (Finite R) → f64_round R = R →
  ∃ g,
    add_edges (star_edges h leaves value) graph_init = (Ok tt, g) ∧
    Size g = Ok (Z.of_nat (S (length leaves)), degree_sum g,
                 PyFloat (Finite R)) ∧
    wedge_count g = choose2 (Z.of_nat (length leaves)).
Proof.
  intros Hnd Hh Hne HR Hround.
  destruct (star_grow h leaves value graph_init ∅ (star_inv_init h) Hnd Hh)
    as (g & Hrun & Hinv).
  { apply not_elem_of_empty. }
  { intros x _. apply not_elem_of_empty. }
  rewrite union_empty_r_L in Hinv.
  assert (HhS : h ∉ (list_to_set leaves : gset V)).
  { rewrite elem_of_list_to_set. exact Hh. }
  assert (Hsize : size (list_to_set leaves : gset V) = length leaves).
  { apply size_list_to_set. exact Hnd. }
  assert (HS : (list_to_set leaves : gset V) ≠ ∅).
  { intros Hempty. destruct leaves as [|x leaves]; [congruence|].
    apply (not_elem_of_empty (C := gset V) x). rewrite <- Hempty.
    apply elem_of_list_to_set. left. }
  assert (Hvs : vertices g = {[h]} ∪ list_to_set leaves).
  { rewrite (star_vertices h _ g Hinv). rewrite decide_False by exact HS.
    reflexivity. }
  assert (Hhv : h ∈ vertices g).
  { rewrite Hvs. apply elem_of_union_l, elem_of_singleton. reflexivity. }
  assert (Hdeg : ∀ v, v ∈ vertices g →
            degrees g !! v =
              Some (if decide (v = h) then Z.of_nat (length leaves) else 1)).
  { intros v Hv. rewrite <- Hsize. apply star_degrees; assumption. }
  destruct (Size_star g h _ R Hdeg Hhv HR Hround) as [m Hm].
  destruct (Size_n_m_exact g _ m _ (wf_loc g (star_wf h _ g Hinv)) Hm)
    as [_ ->].
  exists g. split; [exact Hrun|]. split.
  - rewrite Hm. do 3 f_equal. rewrite Hvs.
    rewrite size_union by (apply disjoint_singleton_l; exact HhS).
    rewrite size_singleton, Hsize. reflexivity.
  - apply (wedge_count_star g h); assumption.
Qed.

(** With 134217730 leaves the wedge count is beyond 2^53 and odd: the
    float that [Size] returns is one less. *)
Lemma Size_big_star h leaves value :
  NoDup leaves → h ∉ leaves → Z.of_nat (length leaves) = 134217730 →
  ∃ g,
    add_edges (star_edges h leaves value) graph_init = (Ok tt, g) ∧
    Size g = Ok (134217731, degree_sum g,
                 PyFloat (Finite 9007199456067584)) ∧
    wedge_count g = 9007199456067585.
Proof.
  intros Hnd Hh Hlen.
  destruct (Size_built_star h leaves value 9007199456067584 Hnd Hh)
    as (g & Hrun & Hsize & Hcount).
  - intros ->. simpl in Hlen. discriminate.
  - rewrite Hlen. vm_compute. reflexivity.
  - vm_compute. reflexivity.
  - exists g. split; [exact Hrun|].
    rewrite Nat2Z.inj_succ, Hlen in Hsize. rewrite Hlen in Hcount.
    split; [exact Hsize|exact Hcount].
Qed.

(** The budget of the [while] loop is never exhausted. *)
Lemma advance_not_stuck deg_list fuel min_deg :
  (1 ≤ fuel)%nat →
  min_deg < - Z.of_nat (length deg_list) ∨
    Z.of_nat (length deg_list) - min_deg < Z.of_nat fuel →
  advance fuel deg_list min_deg ≠ Err Stuck.
Proof.
  revert min_deg. induction fuel as [|fuel IH]; intros md Hfuel Hmd; [lia|].
  cbn [advance]. unfold list_index.
  destruct (0 <=? md) eqn:Hsign.
  - apply Z.leb_le in Hsign. rewrite (proj2 (Z.leb_le 0 md)) by lia. simpl.
    destruct (md <? Z.of_nat (length deg_list)) eqn:Hlt; simpl; [|discriminate].
    apply Z.ltb_lt in Hlt.
    destruct (deg_list !! Z.to_nat md) as [s|]; simpl; [|discriminate].
    case_decide; [|discriminate]. apply IH; lia.
  - apply Z.leb_gt in Hsign.
    destruct ((0 <=? Z.of_nat (length deg_list) + md)
              && (Z.of_nat (length deg_list) + md <? Z.of_nat (length deg_list)))
      eqn:Hrange; simpl; [|discriminate].
    apply andb_true_iff in Hrange as [Hlo _]. apply Z.leb_le in Hlo.
    destruct (deg_list !! Z.to_nat (Z.of_nat (length deg_list) + md)) as [s|];
      simpl; [|discriminate].
    case_decide; [|discriminate]. apply IH; lia.
Qed.

Lemma advance_fuel_enough deg_list min_deg :
  advance (advance_fuel deg_list) deg_list min_deg ≠ Err Stuck.
Proof.
  apply advance_not_stuck; unfold advance_fuel; lia.
Qed.

(** A graph built in a fresh store is its first object. *)
Lemma build_run es :
  ∃ g, add_edges es graph_init = (Ok tt, g) ∧ wf g ∧
       build es empty_state = (Ok 0%nat, mkState [g] None).
Proof.
  destruct (built_wf es) as (g & Hrun & Hg). exists g.
  split; [exact Hrun|]. split; [exact Hg|].
  unfold build, graph_new, call, empty_state. se_unfold. simpl.
  rewrite Hrun. reflexivity.
Qed.

(** ** [Degeneracy] does not get stuck *)

Lemma runs_bind {A B} N (m : SE state A) (f : A → SE state B) :
  runs N m → (∀ a, runs N (f a)) → runs N (m ≫= f).
Proof.
  intros Hm Hf st Hst. destruct (Hm st Hst) as [Hres Hlen].
  rewrite se_bind_unfold. destruct (m st) as [[a|e] st'] eqn:Hrun; simpl in *.
  - apply Hf. exact Hlen.
  - split; [|exact Hlen]. intros [= ->]. apply Hres. reflexivity.
Qed.

Lemma runs_ret {A} N (a : A) : runs N (mret a).
Proof. intros st Hst. split; [discriminate|exact Hst]. Qed.

Lemma runs_lift {A} N (r : result A) : r ≠ Err Stuck → runs N (se_lift r).
Proof. intros Hr st Hst. split; [exact Hr|exact Hst]. Qed.

Lemma runs_raise {A} N e : e ≠ Stuck → runs N (se_raise (A := A) e).
Proof. intros He st Hst. split; [simpl; congruence|exact Hst]. Qed.

Lemma runs_get N : runs N se_get.
Proof. intros st Hst. split; [discriminate|exact Hst]. Qed.

Lemma runs_field {A} N l (f : obj → A) : (l < N)%nat → runs N (field l f).
Proof.
  intros Hl st Hst. unfold field, load. se_unfold.
  destruct (lookup_lt_is_Some_2 (objs st) l) as [o Ho]; [lia|].
  rewrite Ho. split; [discriminate|exact Hst].
Qed.

Lemma runs_store N l f : runs N (store l f).
Proof.
  intros st Hst. rewrite store_run. simpl. rewrite length_alter.
  split; [discriminate|exact Hst].
Qed.

Lemma runs_top_order_append N l x : (l < N)%nat → runs N (top_order_append l x).
Proof.
  intros Hl st Hst. unfold top_order_append, get_top_order, load. se_unfold.
  destruct (lookup_lt_is_Some_2 (objs st) l) as [o Ho]; [lia|].
  rewrite Ho. destruct (cls o); simpl; [split; [discriminate|exact Hst]|].
  destruct (DAG_top_order st); simpl; (split; [discriminate|exact Hst]).
Qed.

Lemma runs_for {A} N (xs : list A) body :
  (∀ x, runs N (body x)) → runs N (se_for xs body).
Proof.
  intros Hbody. induction xs as [|x xs IH]; [apply runs_ret|].
  rewrite se_for_cons. apply runs_bind; [apply Hbody|]. intros _. exact IH.
Qed.

Lemma getitem_not_stuck `{Countable K} {A} (m : gmap K A) k :
  getitem m k ≠ Err Stuck.
Proof. unfold getitem. destruct (m !! k); discriminate. Qed.

Lemma list_index_not_stuck {A} (l : list A) i : list_index l i ≠ Err Stuck.
Proof.
  unfold list_index.
  destruct ((0 <=? _) && _); [|discriminate].
  destruct (l !! _); discriminate.
Qed.

Lemma set_remove_not_stuck x s : set_remove x s ≠ Err Stuck.
Proof. unfold set_remove. case_decide; discriminate. Qed.

Lemma set_pop_not_stuck s : set_pop s ≠ Err Stuck.
Proof. unfold set_pop. destruct (set_order s); discriminate. Qed.

Lemma container_remove_not_stuck x c : container_remove x c ≠ Err Stuck.
Proof. destruct c; simpl; [discriminate|]. case_decide; discriminate. Qed.

Lemma container_add_not_stuck x c : container_add x c ≠ Err Stuck.
Proof. destruct c; discriminate. Qed.

Ltac runs_step :=
  first
    [ apply runs_ret
    | apply runs_store
    | apply runs_field; assumption
    | apply runs_top_order_append; assumption
    | apply runs_lift;
      first [ apply getitem_not_stuck | apply list_index_not_stuck
            | apply set_remove_not_stuck | apply set_pop_not_stuck
            | apply container_remove_not_stuck | apply container_add_not_stuck
            | apply advance_fuel_enough ]
    | apply runs_bind; [|intros ?] ].

Lemma runs_core_init_loop N core_G nodes : runs N (core_init_loop core_G nodes).
Proof.
  unfold core_init_loop. apply runs_for. intros x. repeat runs_step.
Qed.

Lemma runs_bucket_loop N G nodes deg_list min_deg :
  (G < N)%nat → runs N (bucket_loop G nodes deg_list min_deg).
Proof.
  intros HG. revert deg_list min_deg.
  induction nodes as [|x nodes IH]; intros deg_list min_deg; cbn [bucket_loop].
  - apply runs_ret.
  - apply runs_bind; [runs_step|intros dg].
    apply runs_bind; [runs_step|intros deg].
    apply runs_bind; [runs_step|intros [i s]]. apply IH.
Qed.

Lemma runs_peel_loop N G core_G source nodes deg_list min_deg :
  (G < N)%nat → (core_G < N)%nat →
  runs N (peel_loop G core_G source nodes deg_list min_deg).
Proof.
  intros HG Hc. revert deg_list min_deg.
  induction nodes as [|x nodes IH]; intros deg_list min_deg; cbn [peel_loop].
  - apply runs_ret.
  - apply runs_bind; [runs_step|intros dg].
    apply runs_bind; [runs_step|intros deg].
    apply runs_bind; [runs_step|intros [i s]].
    apply runs_bind; [runs_step|intros s'].
    apply runs_bind; [runs_step|intros [j t]].
    do 14 (apply runs_bind; [runs_step|intros ?]).
    apply runs_bind; [|intros _; apply IH].
    case_decide; [apply runs_raise; discriminate|apply runs_ret].
Qed.

Lemma runs_main_loop N iters G core_G deg_list min_deg :
  (G < N)%nat → (core_G < N)%nat →
  runs N (main_loop iters G core_G deg_list min_deg).
Proof.
  intros HG Hc. revert deg_list min_deg.
  induction iters as [|iters IH]; intros deg_list min_deg; cbn [main_loop].
  - apply runs_ret.
  - apply runs_bind; [runs_step|intros md].
    apply runs_bind; [runs_step|intros [i s]].
    apply runs_bind; [runs_step|intros [source s']].
    apply runs_bind; [runs_step|intros _].
    apply runs_bind; [runs_step|intros al].
    apply runs_bind; [runs_step|intros c].
    apply runs_bind; [apply runs_peel_loop; assumption|intros [dl md']].
    apply IH.
Qed.

(** Called on an object of the store, [Degeneracy] returns or raises a
    Python exception: no reference dangles and the budget of the [while]
    loop suffices. *)
Lemma Degeneracy_not_stuck self st g :
  objs st !! self = Some g → (Degeneracy self st).1 ≠ Err Stuck.
Proof.
  intros Hself. rewrite (Degeneracy_start self st g Hself). cbv zeta.
  set (G := length (objs st)). set (core_G := S G).
  set (st2 := mkState _ (Some [])).
  assert (Hlen : (S (S G) ≤ length (objs st2))%nat).
  { unfold st2, G. cbn [objs]. rewrite length_app. simpl. lia. }
  assert (HG : (G < S (S G))%nat) by lia.
  assert (Hc : (core_G < S (S G))%nat) by (unfold core_G; lia).
  match goal with |- (?m st2).1 ≠ _ =>
    cut (runs (S (S G)) m); [intros Hruns; apply (Hruns st2 Hlen)|]
  end.
  apply runs_bind; [apply runs_core_init_loop|intros _].
  apply runs_bind; [runs_step|intros gv'].
  apply runs_bind; [apply runs_bucket_loop; assumption|intros [dl md]].
  apply runs_bind; [apply runs_main_loop; assumption|intros _].
  apply runs_ret.
Qed.

(** * The claims *)

(** C7.  After any sequence of [Add_und_edge] calls from the empty graph
    (the sequence completes without an exception), the stored degree of
    every vertex is the number of entries of its adjacency dict. *)
Theorem Add_und_edge_degree_is_neighbour_count (es : list (V * V * L)) :
  ∃ g, add_edges es graph_init = (Ok tt, g) ∧
    ∀ v, v ∈ vertices g →
      ∃ c, adj_list g !! v = Some c ∧ degrees g !! v = Some (container_len c).
Proof.
  destruct (built_wf es) as (g & Hrun & Hg). exists g.
  split; [exact Hrun|]. intros v Hv. exists (CDict (nbrs g v)).
  split; [apply wf_local_adj; [apply (wf_loc g Hg)|exact Hv]|].
  rewrite (wf_degree g (wf_loc g Hg) v Hv).
  unfold container_len, container_keys. rewrite size_dom. reflexivity.
Qed.

(** C8.  On a graph built by [Add_und_edge] calls, inserting an edge that
    is present again with another label returns the very same object
    state, from either endpoint: the labels stored on both sides and both
    degrees are as before.  [Add_und_edge(u, u, label)] leaves every graph
    as it is. *)
Theorem Add_und_edge_first_writer_wins
    (es : list (V * V * L)) (g : obj) (u v : V) (d : gmap V L)
    (value value' : L) :
  add_edges es graph_init = (Ok tt, g) →
  adj_list g !! u = Some (CDict d) → d !! v = Some value →
  Add_und_edge u v value' g = (Ok tt, g) ∧
  Add_und_edge v u value' g = (Ok tt, g) ∧
  nbrs g u !! v = Some value ∧ nbrs g v !! u = Some value ∧
  ∀ (g0 : obj) (w : V), Add_und_edge w w value' g0 = (Ok tt, g0).
Proof.
  intros Hrun Hadj Hd.
  destruct (built_wf es) as (g' & Hrun' & Hg).
  rewrite Hrun in Hrun'. injection Hrun' as <-.
  assert (Huv : nbrs g u !! v = Some value).
  { unfold nbrs. rewrite Hadj. exact Hd. }
  pose proof (wf_sym g Hg u v value Huv) as Hvu.
  assert (Hne : u ≠ v).
  { intros ->. rewrite (wf_noloop g Hg v) in Huv. discriminate. }
  split; [|split; [|split; [exact Huv|split; [exact Hvu|]]]].
  - rewrite (Add_und_edge_spec u v value' g Hg).
    rewrite decide_False by exact Hne.
    rewrite decide_True by (apply elem_of_dom; eauto). reflexivity.
  - rewrite (Add_und_edge_spec v u value' g Hg).
    rewrite decide_False by congruence.
    rewrite decide_True by (apply elem_of_dom; eauto). reflexivity.
  - intros g0 w. unfold Add_und_edge. rewrite decide_True by reflexivity.
    reflexivity.
Qed.

(** C10.  After any sequence of [Add_und_edge] calls from the empty graph,
    [vertices], the keys of [adj_list] and the keys of [degrees] are the
    same set, and no dict lookup fails: [isEdge] returns for all arguments,
    [Size] can only raise [OverflowError], [Deg_dist] returns, and
    [Degeneracy] does not raise [KeyError]. *)
Theorem built_graph_lookups_never_fail (es : list (V * V * L)) :
  ∃ g, add_edges es graph_init = (Ok tt, g) ∧
    dom (adj_list g) = vertices g ∧
    dom (degrees g) = vertices g ∧
    (∀ u v, ∃ b, isEdge u v g = Ok b) ∧
    (∀ e, Size g = Err e → e = OverflowError) ∧
    (∃ dd, Deg_dist g = Ok dd) ∧
    (∀ st self, objs st !! self = Some g →
                (Degeneracy self st).1 ≠ Err KeyError).
Proof.
  destruct (built_wf es) as (g & Hrun & Hg). exists g.
  pose proof (wf_loc g Hg) as Hl.
  split; [exact Hrun|]. split; [apply (wf_adj_dom g Hl)|].
  split; [apply (wf_deg_dom g Hl)|].
  split; [intros u v; apply isEdge_ok; exact Hl|].
  split; [intros e; apply Size_no_KeyError; exact Hl|].
  split; [apply Deg_dist_ok; exact Hl|].
  intros st self Hself.
  destruct (decide (vertices g = ∅)) as [Hempty|Hne].
  - rewrite (Degeneracy_empty self st g Hself Hempty). discriminate.
  - rewrite (Degeneracy_raises self st g Hself Hg Hne). discriminate.
Qed.

(** C6.  Called on a graph of the store, [Degeneracy] runs to a return or
    to a Python exception, and either way every object that was in the
    store before the call is exactly as it was; in particular the graph it
    is called on keeps its vertices, its adjacency with labels and its
    degrees. *)
Theorem Degeneracy_leaves_original_unchanged
    (st : state) (self l : nat) (g o : obj) :
  objs st !! self = Some g →
  objs st !! l = Some o →
  (Degeneracy self st).1 ≠ Err Stuck ∧
  objs (Degeneracy self st).2 !! l = Some o.
Proof.
  intros Hself Hl. split; [apply (Degeneracy_not_stuck self st g Hself)|].
  destruct (keeps_Degeneracy (length (objs st)) self st (le_n _))
    as (_ & Htake & _).
  rewrite (take_ge (objs st)) in Htake by lia.
  rewrite <- Hl, <- Htake at 1.
  symmetry. apply lookup_take_lt. eapply lookup_lt_Some. exact Hl.
Qed.

Lemma count_degree_values g i :
  wf_local g →
  count_degree g i =
    Z.of_nat (length (filter (λ x, x = i) (map_to_list (degrees g)).*2)).
Proof.
  intros Hg. unfold count_degree.
  rewrite <- (wf_deg_dom g Hg), <- count_values_keys. reflexivity.
Qed.

Lemma degree_values g d :
  wf_local g →
  d ∈ (map_to_list (degrees g)).*2 ↔
  ∃ v, v ∈ vertices g ∧ degrees g !! v = Some d.
Proof.
  intros Hg. rewrite list_elem_of_fmap. split.
  - intros [[v d'] [-> Hvd]]. apply elem_of_map_to_list in Hvd.
    exists v. split; [|exact Hvd].
    rewrite <- (wf_deg_dom g Hg). apply elem_of_dom. eauto.
  - intros (v & _ & Hvd). exists (v, d). split; [reflexivity|].
    apply elem_of_map_to_list. exact Hvd.
Qed.

(** C9.  For every graph built by [Add_und_edge] calls, [Deg_dist] returns
    a sequence whose entry [i] is the number of vertices of degree [i]; no
    vertex has a degree beyond the end of the sequence; the length of the
    sequence is the largest degree plus one; and a graph with a vertex has
    a largest degree. *)
Theorem Deg_dist_counts_degrees (es : list (V * V * L)) :
  ∃ g dd, add_edges es graph_init = (Ok tt, g) ∧
    Deg_dist g = Ok dd ∧
    (∀ i, (i < length dd)%nat → dd !! i = Some (count_degree g (Z.of_nat i))) ∧
    (∀ i, (length dd ≤ i)%nat → count_degree g (Z.of_nat i) = 0) ∧
    (∀ m, max_degree g m → Z.of_nat (length dd) = m + 1) ∧
    (vertices g ≠ ∅ → ∃ m, max_degree g m).
Proof.
  destruct (built_wf es) as (g & Hrun & Hg).
  pose proof (wf_loc g Hg) as Hl.
  destruct (Deg_dist_ok g Hl) as [dd Hdd]. exists g, dd.
  split; [exact Hrun|]. split; [exact Hdd|].
  unfold Deg_dist in Hdd. pose proof (bincount_length _ _ Hdd) as Hlen.
  split; [|split; [|split]].
  - intros i Hi. rewrite (count_degree_values g _ Hl).
    apply bincount_lookup; assumption.
  - intros i Hi. rewrite (count_degree_values g _ Hl).
    destruct (filter _ _) as [|x rest] eqn:Hf; [reflexivity|exfalso].
    assert (Hx : x ∈ filter (λ x, x = Z.of_nat i) (map_to_list (degrees g)).*2)
      by (rewrite Hf; left).
    apply list_elem_of_filter in Hx as [-> Hx].
    pose proof (foldr_max_bound _ _ Hx) as Hmax.
    destruct ((map_to_list (degrees g)).*2) as [|y ys]; [inversion Hx|].
    rewrite Hlen in Hi. lia.
  - intros m [(v & Hv & Hvm) Hmax].
    assert (Hin : m ∈ (map_to_list (degrees g)).*2).
    { apply (degree_values g m Hl). eauto. }
    assert (Hm0 : 0 ≤ m).
    { rewrite (wf_degree g Hl v Hv) in Hvm. injection Hvm as <-. lia. }
    assert (Heq : foldr Z.max 0 (map_to_list (degrees g)).*2 = m).
    { apply Z.le_antisymm; [|apply foldr_max_bound; exact Hin].
      apply foldr_max_le; [exact Hm0|].
      intros x Hx. apply (degree_values g x Hl) in Hx as (w & Hw & Hwx).
      eapply Hmax; eauto. }
    rewrite Hlen. rewrite Heq.
    destruct ((map_to_list (degrees g)).*2) as [|y ys]; [inversion Hin|].
    lia.
  - intros Hne. exists (foldr Z.max 0 (map_to_list (degrees g)).*2).
    assert (Hpos : ∀ x, x ∈ (map_to_list (degrees g)).*2 → 0 ≤ x).
    { intros x Hx. apply (degree_values g x Hl) in Hx as (w & Hw & Hwx).
      rewrite (wf_degree g Hl w Hw) in Hwx. injection Hwx as <-. lia. }
    assert (Hnil : (map_to_list (degrees g)).*2 ≠ []).
    { destruct (set_choose_L (vertices g) Hne) as [v Hv].
      intros Hnil.
      assert (Hin : Z.of_nat (size (nbrs g v)) ∈ (map_to_list (degrees g)).*2).
      { apply (degree_values g _ Hl). exists v. split; [exact Hv|].
        apply (wf_degree g Hl v Hv). }
      rewrite Hnil in Hin. inversion Hin. }
    split.
    + apply (degree_values g _ Hl). apply foldr_max_elem; assumption.
    + intros v d Hv Hvd. apply foldr_max_bound.
      apply (degree_values g d Hl). eauto.
Qed.

(** C1.  The claim fails on the code.  For a graph built by [Add_und_edge]
    calls, [Degeneracy] completes only when the graph has no vertex (it
    then returns a new [DAG] without vertices, with the empty topological
    order); as soon as the graph has a vertex it raises [AttributeError],
    for every iteration order of the sets. *)
Theorem Degeneracy_completes_only_on_empty_graph (es : list (V * V * L)) :
  ∃ g, add_edges es graph_init = (Ok tt, g) ∧
    ∀ st self, objs st !! self = Some g →
      if decide (vertices g = ∅) then
        Degeneracy self st =
          (Ok (S (length (objs st))),
           mkState (objs st ++ [g; mkObj ClsDAG ∅ ∅ ∅]) (Some []))
      else (Degeneracy self st).1 = Err AttributeError.
Proof.
  destruct (built_wf es) as (g & Hrun & Hg). exists g.
  split; [exact Hrun|]. intros st self Hself. case_decide as Hv.
  - apply Degeneracy_empty; assumption.
  - apply (Degeneracy_raises self st g); assumption.
Qed.

(** C4.  The claim fails on the code: [top_order] is an attribute of the
    class [DAG], shared by all instances.  Constructing a new [DAG] makes
    the topological order read through every [DAG] instance the empty
    list, and an element appended through one instance is read through
    every other instance. *)
Theorem DAG_top_order_is_shared
    (st : state) (d1 d2 : nat) (o1 o2 : obj) (t : list V) (x : V) :
  objs st !! d1 = Some o1 → cls o1 = ClsDAG →
  objs st !! d2 = Some o2 → cls o2 = ClsDAG →
  DAG_top_order st = Some t →
  (get_top_order d1 (DAG_new st).2).1 = Ok [] ∧
  (get_top_order d2 (top_order_append d1 x st).2).1 = Ok (t ++ [x]).
Proof.
  intros H1 Hc1 H2 Hc2 Ht. split.
  - rewrite DAG_new_run. unfold get_top_order, load. se_unfold.
    cbn [objs DAG_top_order snd].
    rewrite lookup_app_l by (eapply lookup_lt_Some; exact H1).
    rewrite H1, Hc1. reflexivity.
  - rewrite (top_order_append_run d1 o1 t x st H1 Hc1 Ht).
    unfold get_top_order, load. se_unfold. cbn [objs DAG_top_order snd].
    rewrite H2, Hc2. reflexivity.
Qed.

(** * Further properties of the code *)

(** ** [isEdge], [isNode] and [Add_und_edge] *)

Lemma graph_of_run es :
  add_edges es graph_init = (Ok tt, graph_of es) ∧ wf (graph_of es).
Proof.
  destruct (built_wf es) as (g & Hrun & Hg). unfold graph_of.
  rewrite Hrun. auto.
Qed.

Lemma se_for_app {S A} (xs ys : list A) (body : A → SE S unit) s :
  se_for (xs ++ ys) body s = (se_for xs body ≫= λ _, se_for ys body) s.
Proof.
  revert s. induction xs as [|x xs IH]; intros s; [reflexivity|].
  rewrite <- app_comm_cons, !se_for_cons, !se_bind_unfold.
  destruct (body x s) as [[[]|e] s1]; [|reflexivity].
  rewrite IH, se_bind_unfold. reflexivity.
Qed.

Lemma add_edges_app es es' g :
  add_edges (es ++ es') g =
    (add_edges es ≫= λ _, add_edges es') g.
Proof. apply se_for_app. Qed.

Lemma graph_of_app es es' :
  graph_of (es ++ es') = (add_edges es' (graph_of es)).2.
Proof.
  unfold graph_of at 1. rewrite add_edges_app, se_bind_unfold.
  rewrite (proj1 (graph_of_run es)). reflexivity.
Qed.

Lemma graph_of_snoc es u v value :
  graph_of (es ++ [(u, v, value)]) = (Add_und_edge u v value (graph_of es)).2.
Proof.
  rewrite graph_of_app. unfold add_edges. cbn [se_for]. unfold se_bind.
  simpl. destruct (Add_und_edge u v value (graph_of es)) as [[[]|e] g];
    reflexivity.
Qed.

(** [isEdge] and [edge_label] on a well-formed graph, by the neighbour
    dicts. *)
Lemma isEdge_wf g u v :
  wf g → isEdge u v g = Ok (if decide (v ∈ dom (nbrs g u)) then 1 else 0).
Proof.
  intros Hg. pose proof (wf_loc g Hg) as Hl. unfold isEdge.
  assert (Hside : ∀ a b,
    (if decide (a ∈ vertices g)
     then c ← getitem (adj_list g) a; mret (container_mem b c)
     else mret false) = Ok (bool_decide (b ∈ dom (nbrs g a)))).
  { intros a b. destruct (decide (a ∈ vertices g)) as [Ha|Ha].
    - rewrite (getitem_Some _ _ _ (wf_local_adj g a Hl Ha)). reflexivity.
    - rewrite (wf_local_not_vertex g a Hl Ha), dom_empty_L.
      rewrite bool_decide_eq_false_2 by apply not_elem_of_empty.
      reflexivity. }
  rewrite !Hside. cbn [mbind result_bind].
  destruct (decide (v ∈ dom (nbrs g u))) as [Hd|Hd].
  - rewrite bool_decide_eq_true_2 by exact Hd. reflexivity.
  - rewrite bool_decide_eq_false_2 by exact Hd. cbn [mbind result_bind].
    rewrite bool_decide_eq_false_2; [reflexivity|].
    intros Hd'. apply Hd. apply (wf_edge_dom g u v Hg). exact Hd'.
Qed.

Lemma edge_label_wf g u v :
  wf g →
  edge_label g u v = match nbrs g u !! v with
                     | Some l => Ok l
                     | None => Err KeyError
                     end.
Proof.
  intros Hg. pose proof (wf_loc g Hg) as Hl. unfold edge_label.
  destruct (decide (u ∈ vertices g)) as [Hu|Hu].
  - rewrite (getitem_Some _ _ _ (wf_local_adj g u Hl Hu)).
    cbn [mbind result_bind]. unfold getitem.
    destruct (nbrs g u !! v); reflexivity.
  - rewrite (wf_local_not_vertex g u Hl Hu), lookup_empty.
    unfold getitem.
    assert (Hnone : adj_list g !! u = None).
    { apply not_elem_of_dom. rewrite (wf_adj_dom g Hl). exact Hu. }
    rewrite Hnone. reflexivity.
Qed.

(** X1.  [isEdge] does not depend on the order of its arguments, on every
    object whose vertices all have an entry in [adj_list]: a graph, or a
    [DAG], where it therefore ignores the direction of an edge. *)
Theorem isEdge_symmetric (g : obj) (u v : V) :
  vertices g ⊆ dom (adj_list g) →
  isEdge u v g = isEdge v u g.
Proof.
  intros Hsub. unfold isEdge.
  assert (Hside : ∀ a b,
    (if decide (a ∈ vertices g)
     then c ← getitem (adj_list g) a; mret (container_mem b c)
     else mret false) =
    Ok (bool_decide (a ∈ vertices g) &&
        match adj_list g !! a with
        | Some c => container_mem b c
        | None => false
        end)).
  { intros a b. destruct (decide (a ∈ vertices g)) as [Ha|Ha].
    - destruct (proj1 (elem_of_dom _ _) (Hsub a Ha)) as [c Hc].
      rewrite (getitem_Some _ _ _ Hc), Hc.
      rewrite bool_decide_eq_true_2 by exact Ha. reflexivity.
    - rewrite bool_decide_eq_false_2 by exact Ha. reflexivity. }
  rewrite !Hside. cbn [mbind result_bind].
  destruct (bool_decide (u ∈ vertices g) && _),
    (bool_decide (v ∈ vertices g) && _); reflexivity.
Qed.

(** X2.  On a graph built by [Add_und_edge] calls, [isEdge] decides
    adjacency and both endpoints hold the same label: either [isEdge] is 1
    and [adj_list[u][v]] and [adj_list[v][u]] are the same label, or
    [isEdge] is 0 and both lookups raise [KeyError]. *)
Theorem isEdge_decides_adjacency (es : list (V * V * L)) (u v : V) :
  (isEdge u v (graph_of es) = Ok 1 ∧
   ∃ l, edge_label (graph_of es) u v = Ok l ∧
        edge_label (graph_of es) v u = Ok l) ∨
  (isEdge u v (graph_of es) = Ok 0 ∧
   edge_label (graph_of es) u v = Err KeyError ∧
   edge_label (graph_of es) v u = Err KeyError).
Proof.
  destruct (graph_of_run es) as [_ Hg].
  rewrite (isEdge_wf _ u v Hg), !(edge_label_wf _ _ _ Hg).
  destruct (nbrs (graph_of es) u !! v) as [l|] eqn:Huv.
  - left. rewrite decide_True by (apply elem_of_dom; eauto).
    split; [reflexivity|]. exists l.
    rewrite (wf_sym _ Hg u v l Huv). auto.
  - right. rewrite decide_False by (apply not_elem_of_dom; exact Huv).
    destruct (nbrs (graph_of es) v !! u) as [l|] eqn:Hvu; [|auto].
    apply (wf_sym _ Hg) in Hvu. congruence.
Qed.

(** X3.  No self loop is ever stored: on a graph built by [Add_und_edge]
    calls, [isEdge(u, u)] is 0 for every [u]. *)
Theorem isEdge_no_self_loop (es : list (V * V * L)) (u : V) :
  isEdge u u (graph_of es) = Ok 0.
Proof.
  destruct (graph_of_run es) as [_ Hg]. rewrite (isEdge_wf _ u u Hg).
  rewrite decide_False; [reflexivity|].
  apply not_elem_of_dom. apply (wf_noloop _ Hg).
Qed.

(** X4.  A graph built by [Add_und_edge] calls has no isolated vertex and
    no vertex adjacent to all vertices including itself: every stored
    degree is at least 1 and less than the number of vertices. *)
Theorem degree_between_1_and_n (es : list (V * V * L)) (v : V) :
  v ∈ vertices (graph_of es) →
  ∃ d, degrees (graph_of es) !! v = Some d ∧
       1 ≤ d < Z.of_nat (size (vertices (graph_of es))).
Proof.
  intros Hv. destruct (graph_of_run es) as [_ Hg].
  exists (Z.of_nat (size (nbrs (graph_of es) v))).
  split; [apply (wf_degree _ (wf_loc _ Hg) v Hv)|].
  pose proof (wf_degree_bounds _ v Hg Hv). lia.
Qed.

(** The neighbour dicts, the vertices and the class after one call. *)
Lemma Add_und_edge_nbrs g u v value x :
  wf g → u ≠ v →
  nbrs (Add_und_edge u v value g).2 x =
    if decide (x = u) then insert_if_absent v value (nbrs g u)
    else if decide (x = v) then insert_if_absent u value (nbrs g v)
    else nbrs g x.
Proof.
  intros Hg Huv. rewrite (Add_und_edge_spec u v value g Hg).
  rewrite decide_False by exact Huv. unfold insert_if_absent. cbn [snd].
  destruct (decide (v ∈ dom (nbrs g u))) as [Hd|Hd].
  - rewrite (decide_True (P := u ∈ dom (nbrs g v)))
      by (apply (wf_edge_dom g u v Hg); exact Hd).
    repeat case_decide; subst; reflexivity.
  - rewrite (decide_False (P := u ∈ dom (nbrs g v)))
      by (intros Hd'; apply Hd; apply (wf_edge_dom g u v Hg); exact Hd').
    rewrite !nbrs_link. repeat case_decide; subst; congruence.
Qed.

Lemma Add_und_edge_vertices g u v value :
  wf g → u ≠ v →
  vertices (Add_und_edge u v value g).2 = {[u]} ∪ ({[v]} ∪ vertices g).
Proof.
  intros Hg Huv. rewrite (Add_und_edge_spec u v value g Hg).
  rewrite decide_False by exact Huv. cbn [snd].
  destruct (decide (v ∈ dom (nbrs g u))) as [Hd|Hd]; cbn [link vertices].
  - pose proof (wf_nbr_vertex g u v Hg Hd) as [Hv _].
    apply (wf_edge_dom g u v Hg) in Hd.
    pose proof (wf_nbr_vertex g v u Hg Hd) as [Hu _].
    apply set_eq. intros x. rewrite !elem_of_union, !elem_of_singleton.
    split; [tauto|]. intros [->|[->|Hx]]; assumption.
  - apply set_eq. intros x. rewrite !elem_of_union, !elem_of_singleton. tauto.
Qed.

Lemma Add_und_edge_cls g u v value :
  wf g → cls (Add_und_edge u v value g).2 = cls g.
Proof.
  intros Hg. rewrite (Add_und_edge_spec u v value g Hg).
  repeat case_decide; reflexivity.
Qed.

Lemma Add_und_edge_wf_snd g u v value :
  wf g → wf (Add_und_edge u v value g).2.
Proof.
  intros Hg. destruct (Add_und_edge_wf u v value g Hg) as (g' & Hrun & Hg').
  rewrite Hrun. exact Hg'.
Qed.

Lemma add_edges_wf_snd es g : wf g → wf (add_edges es g).2.
Proof.
  intros Hg. destruct (add_edges_wf es g Hg) as (g' & Hrun & Hg').
  rewrite Hrun. exact Hg'.
Qed.

Lemma insert_if_absent_lookup b value d y :
  insert_if_absent b value d !! y =
    match d !! y with
    | Some l => Some l
    | None => if decide (y = b) then Some value else None
    end.
Proof.
  unfold insert_if_absent. case_decide as Hb.
  - apply elem_of_dom in Hb as [l Hl].
    destruct (d !! y) eqn:Hy; [reflexivity|].
    case_decide; [subst; congruence|reflexivity].
  - apply not_elem_of_dom in Hb.
    destruct (decide (y = b)) as [->|Hne].
    + rewrite lookup_insert_eq, Hb. reflexivity.
    + rewrite lookup_insert_ne by congruence. destruct (d !! y); reflexivity.
Qed.

(** A stored label survives every later call. *)
Lemma Add_und_edge_keeps_label g a b value x y l :
  wf g → nbrs g x !! y = Some l →
  nbrs (Add_und_edge a b value g).2 x !! y = Some l.
Proof.
  intros Hg Hxy. destruct (decide (a = b)) as [->|Hab].
  - unfold Add_und_edge. rewrite decide_True by reflexivity. exact Hxy.
  - rewrite (Add_und_edge_nbrs g a b value x Hg Hab).
    repeat case_decide; subst; rewrite ?insert_if_absent_lookup, ?Hxy;
      reflexivity.
Qed.

Lemma add_edges_keeps_label es g x y l :
  wf g → nbrs g x !! y = Some l → nbrs (add_edges es g).2 x !! y = Some l.
Proof.
  revert g. induction es as [|[[a b] value] es IH]; intros g Hg Hxy.
  - exact Hxy.
  - unfold add_edges. rewrite se_for_cons, se_bind_unfold. cbn [fst snd].
    destruct (Add_und_edge_wf a b value g Hg) as (g1 & Hrun & Hg1).
    pose proof (Add_und_edge_keeps_label g a b value x y l Hg Hxy) as Hl.
    rewrite Hrun in Hl |- *. apply (IH g1 Hg1 Hl).
Qed.

(** X5.  Insert and look up: after [Add_und_edge(u, v, value)] with two
    different endpoints on a built graph, both are vertices, [isEdge] is 1
    in both directions, and the label read at [adj_list[u][v]] is the one
    that was there before if the edge existed, [value] otherwise. *)
Theorem Add_und_edge_then_isEdge (es : list (V * V * L)) (u v : V) (value : L) :
  u ≠ v →
  isEdge u v (graph_of (es ++ [(u, v, value)])) = Ok 1 ∧
  isEdge v u (graph_of (es ++ [(u, v, value)])) = Ok 1 ∧
  isNode u (graph_of (es ++ [(u, v, value)])) = true ∧
  isNode v (graph_of (es ++ [(u, v, value)])) = true ∧
  edge_label (graph_of (es ++ [(u, v, value)])) u v =
    match edge_label (graph_of es) u v with
    | Ok l => Ok l
    | Err _ => Ok value
    end.
Proof.
  intros Huv. destruct (graph_of_run es) as [_ Hg].
  destruct (graph_of_run (es ++ [(u, v, value)])) as [_ Hg'].
  assert (Hn : nbrs (graph_of (es ++ [(u, v, value)])) u !! v =
               match nbrs (graph_of es) u !! v with
               | Some l => Some l
               | None => Some value
               end).
  { rewrite graph_of_snoc, (Add_und_edge_nbrs _ u v value u Hg Huv).
    rewrite decide_True by reflexivity. rewrite insert_if_absent_lookup.
    rewrite decide_True by reflexivity. reflexivity. }
  assert (Hin : v ∈ dom (nbrs (graph_of (es ++ [(u, v, value)])) u)).
  { apply elem_of_dom. rewrite Hn. destruct (nbrs (graph_of es) u !! v); eauto. }
  split; [rewrite (isEdge_wf _ u v Hg'), decide_True by exact Hin; reflexivity|].
  split.
  { rewrite (isEdge_wf _ v u Hg'), decide_True; [reflexivity|].
    apply (wf_edge_dom _ u v Hg'). exact Hin. }
  assert (Hvs : vertices (graph_of (es ++ [(u, v, value)])) =
                {[u]} ∪ ({[v]} ∪ vertices (graph_of es))).
  { rewrite graph_of_snoc. apply Add_und_edge_vertices; assumption. }
  unfold isNode. rewrite !Hvs.
  split; [apply bool_decide_eq_true_2; set_solver|].
  split; [apply bool_decide_eq_true_2; set_solver|].
  rewrite !(edge_label_wf _ _ _ Hg'), (edge_label_wf _ _ _ Hg), Hn.
  destruct (nbrs (graph_of es) u !! v); reflexivity.
Qed.

(** X6.  Nothing is ever removed or relabelled: an edge of a built graph is
    still there, with the same label, after any further sequence of
    [Add_und_edge] calls, and its endpoints are still vertices. *)
Theorem Add_und_edge_never_removes
    (es es' : list (V * V * L)) (u v : V) (l : L) :
  edge_label (graph_of es) u v = Ok l →
  edge_label (graph_of (es ++ es')) u v = Ok l ∧
  isEdge u v (graph_of (es ++ es')) = Ok 1 ∧
  isNode u (graph_of (es ++ es')) = true ∧
  isNode v (graph_of (es ++ es')) = true.
Proof.
  intros Hl. destruct (graph_of_run es) as [_ Hg].
  destruct (graph_of_run (es ++ es')) as [_ Hg'].
  rewrite (edge_label_wf _ _ _ Hg) in Hl.
  destruct (nbrs (graph_of es) u !! v) as [l'|] eqn:Huv; [|discriminate].
  injection Hl as ->.
  assert (Hn : nbrs (graph_of (es ++ es')) u !! v = Some l).
  { rewrite graph_of_app. apply add_edges_keeps_label; assumption. }
  assert (Hin : v ∈ dom (nbrs (graph_of (es ++ es')) u))
    by (apply elem_of_dom; eauto).
  split; [rewrite (edge_label_wf _ _ _ Hg'), Hn; reflexivity|].
  split; [rewrite (isEdge_wf _ u v Hg'), decide_True by exact Hin; reflexivity|].
  unfold isNode. split; apply bool_decide_eq_true_2.
  - apply (wf_edge_dom _ u v Hg') in Hin.
    apply (wf_nbr_vertex _ v u Hg' Hin).
  - apply (wf_nbr_vertex _ u v Hg' Hin).
Qed.

(** X7.  A new edge raises the degree of each endpoint by one (from nothing
    to 1 for a new vertex) and changes no other degree. *)
Theorem Add_und_edge_new_edge_degrees
    (es : list (V * V * L)) (u v : V) (value : L) :
  u ≠ v → isEdge u v (graph_of es) = Ok 0 →
  degrees (graph_of (es ++ [(u, v, value)])) !! u
    = Some (degree_of (graph_of es) u + 1) ∧
  degrees (graph_of (es ++ [(u, v, value)])) !! v
    = Some (degree_of (graph_of es) v + 1) ∧
  ∀ w, w ≠ u → w ≠ v →
    degrees (graph_of (es ++ [(u, v, value)])) !! w
      = degrees (graph_of es) !! w.
Proof.
  intros Huv Hedge. destruct (graph_of_run es) as [_ Hg].
  rewrite (isEdge_wf _ u v Hg) in Hedge.
  destruct (decide (v ∈ dom (nbrs (graph_of es) u))) as [|Hd]; [discriminate|].
  assert (Hdeg : ∀ x, degree_of (graph_of es) x
                      = Z.of_nat (size (nbrs (graph_of es) x))).
  { intros x. unfold degree_of.
    destruct (decide (x ∈ vertices (graph_of es))) as [Hx|Hx].
    - rewrite (wf_degree _ (wf_loc _ Hg) x Hx). reflexivity.
    - rewrite (wf_local_not_vertex _ x (wf_loc _ Hg) Hx), map_size_empty.
      assert (Hnone : degrees (graph_of es) !! x = None).
      { apply not_elem_of_dom. rewrite (wf_deg_dom _ (wf_loc _ Hg)). exact Hx. }
      rewrite Hnone. reflexivity. }
  rewrite graph_of_snoc, (Add_und_edge_spec u v value _ Hg).
  rewrite decide_False by exact Huv. rewrite decide_False by exact Hd.
  cbn [snd link degrees]. rewrite nbrs_link, decide_False by congruence.
  rewrite !Hdeg.
  split; [rewrite lookup_insert_ne by congruence; apply lookup_insert_eq|].
  split; [apply lookup_insert_eq|].
  intros w Hwu Hwv. rewrite !lookup_insert_ne by congruence. reflexivity.
Qed.

(** X8.  The order of the two endpoints does not matter:
    [Add_und_edge(u, v, value)] and [Add_und_edge(v, u, value)] give the
    same graph. *)
Theorem Add_und_edge_argument_order
    (es : list (V * V * L)) (u v : V) (value : L) :
  Add_und_edge u v value (graph_of es) = Add_und_edge v u value (graph_of es).
Proof.
  destruct (graph_of_run es) as [_ Hg].
  destruct (decide (u = v)) as [->|Huv]; [reflexivity|].
  rewrite !(Add_und_edge_spec _ _ value _ Hg).
  rewrite (decide_False (P := u = v)) by congruence.
  rewrite (decide_False (P := v = u)) by congruence.
  destruct (decide (v ∈ dom (nbrs (graph_of es) u))) as [Hd|Hd].
  - rewrite decide_True by (apply (wf_edge_dom _ u v Hg); exact Hd).
    reflexivity.
  - rewrite decide_False
      by (intros Hd'; apply Hd; apply (wf_edge_dom _ u v Hg); exact Hd').
    f_equal. unfold link at 1 3. cbn [cls adj_list vertices degrees link].
    rewrite !nbrs_link, !(decide_False (P := v = u)),
      !(decide_False (P := u = v)) by congruence.
    f_equal.
    + apply insert_insert_ne. congruence.
    + apply set_eq. intros x. rewrite !elem_of_union, !elem_of_singleton. tauto.
    + apply insert_insert_ne. congruence.
Qed.

(** A locally well-formed graph is determined by its class, its vertices
    and its neighbour dicts. *)
Lemma wf_local_ext g1 g2 :
  wf_local g1 → wf_local g2 →
  cls g1 = cls g2 → vertices g1 = vertices g2 →
  (∀ x, nbrs g1 x = nbrs g2 x) → g1 = g2.
Proof.
  intros H1 H2 Hcls Hvs Hn.
  assert (Hadj : adj_list g1 = adj_list g2).
  { apply map_eq. intros x.
    destruct (decide (x ∈ vertices g1)) as [Hx|Hx].
    - rewrite (wf_local_adj g1 x H1 Hx).
      rewrite Hvs in Hx. rewrite (wf_local_adj g2 x H2 Hx), Hn. reflexivity.
    - assert (adj_list g1 !! x = None) as ->.
      { apply not_elem_of_dom. rewrite (wf_adj_dom g1 H1). exact Hx. }
      rewrite Hvs in Hx. symmetry.
      apply not_elem_of_dom. rewrite (wf_adj_dom g2 H2). exact Hx. }
  assert (Hdeg : degrees g1 = degrees g2).
  { apply map_eq. intros x.
    destruct (decide (x ∈ vertices g1)) as [Hx|Hx].
    - rewrite (wf_degree g1 H1 x Hx).
      rewrite Hvs in Hx. rewrite (wf_degree g2 H2 x Hx), Hn. reflexivity.
    - assert (degrees g1 !! x = None) as ->.
      { apply not_elem_of_dom. rewrite (wf_deg_dom g1 H1). exact Hx. }
      rewrite Hvs in Hx. symmetry.
      apply not_elem_of_dom. rewrite (wf_deg_dom g2 H2). exact Hx. }
  destruct g1, g2. simpl in *. congruence.
Qed.

Lemma insert_if_absent_comm a b la lb (d : gmap V L) :
  a ≠ b →
  insert_if_absent a la (insert_if_absent b lb d) =
  insert_if_absent b lb (insert_if_absent a la d).
Proof.
  intros Hab. apply map_eq. intros y. rewrite !insert_if_absent_lookup.
  destruct (d !! y); [reflexivity|].
  repeat case_decide; subst; congruence.
Qed.

Lemma Add_und_edge_self_loop g u value :
  Add_und_edge u u value g = (Ok tt, g).
Proof. unfold Add_und_edge. rewrite decide_True by reflexivity. reflexivity. Qed.

Lemma Add_und_edge_commute g u1 v1 l1 u2 v2 l2 :
  wf g → ¬ (u1 = u2 ∧ v1 = v2) → ¬ (u1 = v2 ∧ v1 = u2) →
  (Add_und_edge u2 v2 l2 (Add_und_edge u1 v1 l1 g).2).2 =
  (Add_und_edge u1 v1 l1 (Add_und_edge u2 v2 l2 g).2).2.
Proof.
  intros Hg Hne1 Hne2.
  destruct (decide (u1 = v1)) as [->|H1];
    [rewrite !Add_und_edge_self_loop; reflexivity|].
  destruct (decide (u2 = v2)) as [->|H2];
    [rewrite !Add_und_edge_self_loop; reflexivity|].
  pose proof (Add_und_edge_wf_snd g u1 v1 l1 Hg) as Hg1.
  pose proof (Add_und_edge_wf_snd g u2 v2 l2 Hg) as Hg2.
  apply wf_local_ext.
  - apply wf_loc, Add_und_edge_wf_snd, Hg1.
  - apply wf_loc, Add_und_edge_wf_snd, Hg2.
  - rewrite !Add_und_edge_cls by assumption. reflexivity.
  - rewrite !Add_und_edge_vertices by assumption.
    apply set_eq. intros x. rewrite !elem_of_union, !elem_of_singleton. tauto.
  - intros x. rewrite !Add_und_edge_nbrs by assumption.
    repeat case_decide; subst; try reflexivity; try tauto;
      apply insert_if_absent_comm; intros ->; tauto.
Qed.

(** X9.  Two calls for two different unordered pairs commute: the graph
    they give does not depend on their order (nor on their labels being
    different). *)
Theorem Add_und_edge_calls_commute
    (es : list (V * V * L)) (u1 v1 u2 v2 : V) (l1 l2 : L) :
  ¬ (u1 = u2 ∧ v1 = v2) → ¬ (u1 = v2 ∧ v1 = u2) →
  graph_of (es ++ [(u1, v1, l1); (u2, v2, l2)]) =
  graph_of (es ++ [(u2, v2, l2); (u1, v1, l1)]).
Proof.
  intros Hne1 Hne2. destruct (graph_of_run es) as [_ Hg].
  replace (es ++ [(u1, v1, l1); (u2, v2, l2)])
    with ((es ++ [(u1, v1, l1)]) ++ [(u2, v2, l2)])
    by (rewrite <- (assoc_L (++)); reflexivity).
  replace (es ++ [(u2, v2, l2); (u1, v1, l1)])
    with ((es ++ [(u2, v2, l2)]) ++ [(u1, v1, l1)])
    by (rewrite <- (assoc_L (++)); reflexivity).
  rewrite !graph_of_snoc.
  apply Add_und_edge_commute; assumption.
Qed.

(** *** Sums over the vertices *)

Lemma sum_app {A} (f : A → Z) xs ys :
  foldr Z.add 0 (f <$> (xs ++ ys)) =
  foldr Z.add 0 (f <$> xs) + foldr Z.add 0 (f <$> ys).
Proof.
  induction xs as [|x xs IH]; [simpl; lia|].
  rewrite <- app_comm_cons, !fmap_cons. cbn [foldr]. lia.
Qed.

Lemma sum_ext {A} (f g : A → Z) xs :
  (∀ x, x ∈ xs → f x = g x) →
  foldr Z.add 0 (f <$> xs) = foldr Z.add 0 (g <$> xs).
Proof.
  induction xs as [|x xs IH]; intros Hfg; [reflexivity|].
  rewrite !fmap_cons. cbn [foldr].
  rewrite (Hfg x) by left. rewrite IH; [reflexivity|].
  intros y Hy. apply Hfg. right. exact Hy.
Qed.

Lemma sum_zero {A} (f : A → Z) xs :
  (∀ x, x ∈ xs → f x = 0) → foldr Z.add 0 (f <$> xs) = 0.
Proof.
  induction xs as [|x xs IH]; intros Hf; [reflexivity|].
  rewrite fmap_cons. cbn [foldr]. rewrite (Hf x) by left.
  rewrite IH; [reflexivity|]. intros y Hy. apply Hf. right. exact Hy.
Qed.

Lemma sum_add {A} (f g : A → Z) xs :
  foldr Z.add 0 ((λ x, f x + g x) <$> xs) =
  foldr Z.add 0 (f <$> xs) + foldr Z.add 0 (g <$> xs).
Proof.
  induction xs as [|x xs IH]; [reflexivity|].
  rewrite !fmap_cons. cbn [foldr]. lia.
Qed.

Lemma sum_le {A} (f : A → Z) c xs :
  (∀ x, x ∈ xs → f x ≤ c) →
  foldr Z.add 0 (f <$> xs) ≤ Z.of_nat (length xs) * c.
Proof.
  induction xs as [|x xs IH]; intros Hf; [simpl; lia|].
  rewrite fmap_cons. cbn [foldr length].
  assert (f x ≤ c) by (apply Hf; left).
  assert (foldr Z.add 0 (f <$> xs) ≤ Z.of_nat (length xs) * c)
    by (apply IH; intros y Hy; apply Hf; right; exact Hy).
  lia.
Qed.

Lemma sum_superset (f : V → Z) (X X' : gset V) :
  X ⊆ X' → (∀ x, x ∈ X' → x ∉ X → f x = 0) →
  foldr Z.add 0 (f <$> elements X') = foldr Z.add 0 (f <$> elements X).
Proof.
  intros Hsub Hzero.
  assert (Hsplit : X' = X ∪ X' ∖ X) by (apply union_difference_L; exact Hsub).
  rewrite Hsplit at 1.
  rewrite (sum_permutation f _ _ (elements_disj_union X (X' ∖ X)
             ltac:(apply disjoint_difference_r1; reflexivity))).
  rewrite sum_app, (sum_zero f (elements (X' ∖ X))); [lia|].
  intros x Hx. apply elem_of_elements, elem_of_difference in Hx as [Hx' Hx].
  apply Hzero; assumption.
Qed.

Lemma sum_indicator (h : V) (X : gset V) :
  h ∈ X →
  foldr Z.add 0 ((λ x, if decide (x = h) then 1 else 0) <$> elements X) = 1.
Proof.
  intros Hh.
  rewrite (sum_single (λ x, if decide (x = h) then 1 else 0) h).
  - rewrite decide_True by reflexivity. reflexivity.
  - apply NoDup_elements.
  - apply elem_of_elements. exact Hh.
  - intros x _ Hx. rewrite decide_False by exact Hx. reflexivity.
Qed.

Lemma degree_of_wf g x :
  wf g → degree_of g x = Z.of_nat (size (nbrs g x)).
Proof.
  intros Hg. unfold degree_of.
  destruct (decide (x ∈ vertices g)) as [Hx|Hx].
  - rewrite (wf_degree _ (wf_loc _ Hg) x Hx). reflexivity.
  - rewrite (wf_local_not_vertex _ x (wf_loc _ Hg) Hx), map_size_empty.
    assert (Hnone : degrees g !! x = None).
    { apply not_elem_of_dom. rewrite (wf_deg_dom _ (wf_loc _ Hg)). exact Hx. }
    rewrite Hnone. reflexivity.
Qed.

Lemma new_edge_degree_of g u v value x :
  wf g → u ≠ v → v ∉ dom (nbrs g u) →
  degree_of (Add_und_edge u v value g).2 x =
    degree_of g x + (if decide (x = u) then 1 else 0)
                  + (if decide (x = v) then 1 else 0).
Proof.
  intros Hg Huv Hd.
  assert (Hd' : u ∉ dom (nbrs g v)).
  { intros Hin. apply Hd. apply (wf_edge_dom g u v Hg). exact Hin. }
  rewrite (degree_of_wf _ x (Add_und_edge_wf_snd g u v value Hg)).
  rewrite (degree_of_wf g x Hg), (Add_und_edge_nbrs g u v value x Hg Huv).
  unfold insert_if_absent.
  repeat case_decide; subst; try congruence;
    rewrite ?map_size_insert_None by (apply not_elem_of_dom; assumption); lia.
Qed.

(** X10.  A new edge adds 2 to the sum of the degrees, the [m] that [Size]
    reports. *)
Theorem Add_und_edge_new_edge_degree_sum
    (es : list (V * V * L)) (u v : V) (value : L) :
  u ≠ v → isEdge u v (graph_of es) = Ok 0 →
  degree_sum (graph_of (es ++ [(u, v, value)])) = degree_sum (graph_of es) + 2.
Proof.
  intros Huv Hedge. destruct (graph_of_run es) as [_ Hg].
  rewrite (isEdge_wf _ u v Hg) in Hedge.
  destruct (decide (v ∈ dom (nbrs (graph_of es) u))) as [|Hd]; [discriminate|].
  rewrite graph_of_snoc. unfold degree_sum.
  rewrite (Add_und_edge_vertices _ u v value Hg Huv).
  set (X' := {[u]} ∪ ({[v]} ∪ vertices (graph_of es))).
  rewrite (sum_ext _ _ _
             (λ x _, new_edge_degree_of _ u v value x Hg Huv Hd)).
  rewrite !(sum_add _ _ (elements X')).
  rewrite (sum_indicator u X'), (sum_indicator v X') by (unfold X'; set_solver).
  rewrite (sum_superset (degree_of (graph_of es)) (vertices (graph_of es)) X');
    [lia|unfold X'; set_solver|].
  intros x _ Hx. unfold degree_of.
  assert (Hnone : degrees (graph_of es) !! x = None).
  { apply not_elem_of_dom. rewrite (wf_deg_dom _ (wf_loc _ Hg)). exact Hx. }
  rewrite Hnone. reflexivity.
Qed.

(** ** [Size] and [Deg_dist] on built graphs *)

Lemma choose2_mono d n : 1 ≤ d ≤ n → choose2 d ≤ choose2 n.
Proof.
  intros Hd. unfold choose2. apply Z.div_le_mono; [lia|nia].
Qed.

Lemma wedge_count_bound g :
  wf g →
  wedge_count g ≤
    Z.of_nat (size (vertices g)) * choose2 (Z.of_nat (size (vertices g)) - 1).
Proof.
  intros Hg. unfold wedge_count.
  etransitivity; [apply (sum_le _ (choose2 (Z.of_nat (size (vertices g)) - 1)))|].
  - intros x Hx. apply elem_of_elements in Hx.
    rewrite (degree_of_wf g x Hg).
    pose proof (wf_degree_bounds g x Hg Hx). apply choose2_mono. lia.
  - apply Z.eq_le_incl. reflexivity.
Qed.

Lemma wedge_count_small g :
  wf g → Z.of_nat (size (vertices g)) ≤ 262144 → wedge_count g < 2 ^ 53.
Proof.
  intros Hg Hn. pose proof (wedge_count_bound g Hg) as Hb.
  set (N := Z.of_nat (size (vertices g))) in *.
  assert (HN : 0 ≤ N) by (unfold N; lia).
  assert (Hc : 0 ≤ choose2 (N - 1)) by apply choose2_nonneg.
  assert (Hc2 : 2 * choose2 (N - 1) ≤ (N - 1) * (N - 1 - 1)).
  { unfold choose2. apply Z.mul_div_le. lia. }
  destruct (Z.eq_dec N 0) as [->|HN0]; [simpl in Hb; lia|].
  assert (Hq : (N - 1) * (N - 1 - 1) ≤ 262143 * 262142) by nia.
  assert (Hp : N * choose2 (N - 1) ≤ 262144 * choose2 (N - 1)) by nia.
  change (2 ^ 53) with 9007199254740992. lia.
Qed.

(** X11.  On a graph with at most 262144 vertices built by [Add_und_edge]
    calls, [Size] returns the number of vertices, the exact sum of the
    degrees and the exact number of wedges; the wedge count is the int 0 on
    the empty graph and a float otherwise. *)
Theorem Size_exact_up_to_262144_vertices (es : list (V * V * L)) :
  Z.of_nat (size (vertices (graph_of es))) ≤ 262144 →
  Size (graph_of es) =
    Ok (Z.of_nat (size (vertices (graph_of es))),
        degree_sum (graph_of es),
        if decide (vertices (graph_of es) = ∅) then PyInt 0
        else PyFloat (Finite (wedge_count (graph_of es)))).
Proof.
  intros Hn. destruct (graph_of_run es) as [_ Hg].
  apply Size_exact_below_2_53; [apply (wf_loc _ Hg)|].
  apply wedge_count_small; assumption.
Qed.

Lemma sum_indicator_seq (x : Z) (N : nat) :
  0 ≤ x < Z.of_nat N →
  foldr Z.add 0
    ((λ i : nat, if decide (x = Z.of_nat i) then 1 else 0) <$> seq 0 N) = 1.
Proof.
  intros Hx.
  rewrite (sum_single (λ i : nat, if decide (x = Z.of_nat i) then 1 else 0)
             (Z.to_nat x)).
  - rewrite decide_True by lia. reflexivity.
  - apply NoDup_seq.
  - apply elem_of_seq. lia.
  - intros i _ Hi. rewrite decide_False by lia. reflexivity.
Qed.

Lemma count_total (xs : list Z) (N : nat) :
  (∀ x, x ∈ xs → 0 ≤ x < Z.of_nat N) →
  foldr Z.add 0
    ((λ i : nat, Z.of_nat (length (filter (λ x, x = Z.of_nat i) xs)))
       <$> seq 0 N) = Z.of_nat (length xs).
Proof.
  induction xs as [|x xs IH]; intros Hin.
  - apply sum_zero. intros i _. reflexivity.
  - rewrite (sum_ext _
      (λ i : nat, (if decide (x = Z.of_nat i) then 1 else 0) +
                  Z.of_nat (length (filter (λ y, y = Z.of_nat i) xs)))).
    + rewrite sum_add, sum_indicator_seq by (apply Hin; left).
      rewrite IH by (intros y Hy; apply Hin; right; exact Hy).
      cbn [length]. lia.
    + intros i _. rewrite filter_cons. case_decide; cbn [length]; lia.
Qed.

(** X12.  The degree distribution of a built graph counts every vertex
    exactly once, and none at degree 0: the entries of [Deg_dist] add up to
    the number of vertices and the entry 0, when there is one, is 0. *)
Theorem Deg_dist_counts_every_vertex_once (es : list (V * V * L)) :
  ∃ dd, Deg_dist (graph_of es) = Ok dd ∧
    foldr Z.add 0 dd = Z.of_nat (size (vertices (graph_of es))) ∧
    (∀ c, dd !! 0%nat = Some c → c = 0) ∧
    (vertices (graph_of es) = ∅ → dd = []).
Proof.
  destruct (graph_of_run es) as [_ Hg]. pose proof (wf_loc _ Hg) as Hl.
  destruct (Deg_dist_ok _ Hl) as [dd Hdd]. exists dd.
  split; [exact Hdd|]. unfold Deg_dist in Hdd.
  set (degs := (map_to_list (degrees (graph_of es))).*2) in *.
  assert (Hdegs : ∀ d, d ∈ degs → 1 ≤ d).
  { intros d Hd. apply (degree_values _ d Hl) in Hd as (w & Hw & Hwd).
    rewrite (wf_degree _ Hl w Hw) in Hwd. injection Hwd as <-.
    pose proof (wf_degree_bounds _ w Hg Hw). lia. }
  assert (Hlen : length degs = size (vertices (graph_of es))).
  { unfold degs. rewrite length_fmap, length_map_to_list.
    rewrite <- (wf_deg_dom _ Hl), size_dom. reflexivity. }
  pose proof (bincount_length _ _ Hdd) as Hbins.
  split; [|split].
  - unfold bincount in Hdd. case_decide; [|discriminate].
    injection Hdd as <-. rewrite <- Hlen.
    apply count_total. intros x Hx.
    pose proof (Hdegs x Hx). pose proof (foldr_max_bound _ _ Hx).
    destruct degs; [inversion Hx|]. lia.
  - intros c Hc.
    assert (Hlt : (0 < length dd)%nat) by (eapply lookup_lt_Some; exact Hc).
    rewrite (bincount_lookup _ _ 0 Hdd Hlt) in Hc. injection Hc as <-.
    destruct (filter _ degs) as [|x rest] eqn:Hf; [reflexivity|exfalso].
    assert (Hx : x ∈ filter (λ x, x = Z.of_nat 0) degs) by (rewrite Hf; left).
    apply list_elem_of_filter in Hx as [-> Hx].
    specialize (Hdegs _ Hx). simpl in Hdegs. lia.
  - intros Hempty. rewrite Hempty, size_empty in Hlen.
    destruct degs; [|discriminate]. destruct dd; [reflexivity|discriminate].
Qed.

(** ** Sequences of [Add_und_edge] calls *)

(** The call [(u, v, _)] names the pair [{x, y}]. *)
Lemma Add_und_edge_label_origin g a b value x y l :
  wf g → nbrs (Add_und_edge a b value g).2 x !! y = Some l →
  nbrs g x !! y = Some l ∨
  (l = value ∧ a ≠ b ∧ ((a = x ∧ b = y) ∨ (a = y ∧ b = x))).
Proof.
  intros Hg. destruct (decide (a = b)) as [->|Hab].
  - rewrite Add_und_edge_self_loop. auto.
  - rewrite (Add_und_edge_nbrs g a b value x Hg Hab).
    repeat case_decide; subst; rewrite ?insert_if_absent_lookup;
      try (destruct (nbrs g _ !! y) eqn:Hy; [auto|];
           case_decide; [subst|discriminate]; intros [= <-]; right; auto);
      auto.
Qed.

Lemma add_edges_cons e es g :
  add_edges (e :: es) g =
    (Add_und_edge e.1.1 e.1.2 e.2 ≫= λ _, add_edges es) g.
Proof. reflexivity. Qed.

Lemma add_edges_cons_snd u v value es g :
  wf g →
  (add_edges ((u, v, value) :: es) g).2 =
  (add_edges es (Add_und_edge u v value g).2).2.
Proof.
  intros Hg. rewrite add_edges_cons, se_bind_unfold. cbn [fst snd].
  destruct (Add_und_edge_wf u v value g Hg) as (g1 & -> & _). reflexivity.
Qed.

Lemma add_edges_label_origin es g x y l :
  wf g → nbrs (add_edges es g).2 x !! y = Some l →
  nbrs g x !! y = Some l ∨
  ∃ u v, (u, v, l) ∈ es ∧ u ≠ v ∧ ((u = x ∧ v = y) ∨ (u = y ∧ v = x)).
Proof.
  revert g. induction es as [|[[a b] value] es IH]; intros g Hg Hl.
  - left. exact Hl.
  - rewrite (add_edges_cons_snd a b value es g Hg) in Hl.
    apply IH in Hl; [|apply Add_und_edge_wf_snd; exact Hg].
    destruct Hl as [Hl|(u & v & Hin & Huv & Hxy)].
    + apply (Add_und_edge_label_origin g a b value x y l Hg) in Hl
        as [Hl|(-> & Hab & Hxy)]; [left; exact Hl|].
      right. exists a, b. split; [left|auto].
    + right. exists u, v. split; [right; exact Hin|auto].
Qed.

Lemma add_edges_edge_present es g u v value :
  wf g → (u, v, value) ∈ es → u ≠ v →
  v ∈ dom (nbrs (add_edges es g).2 u).
Proof.
  revert g. induction es as [|[[a b] value'] es IH]; intros g Hg Hin Huv;
    [inversion Hin|].
  rewrite (add_edges_cons_snd a b value' es g Hg).
  pose proof (Add_und_edge_wf_snd g a b value' Hg) as Hg1.
  apply elem_of_cons in Hin as [[= <- <- <-]|Hin].
  - assert (Hsome : is_Some (nbrs (Add_und_edge u v value g).2 u !! v)).
    { rewrite (Add_und_edge_nbrs g u v value u Hg Huv).
      rewrite decide_True by reflexivity. rewrite insert_if_absent_lookup.
      rewrite decide_True by reflexivity.
      destruct (nbrs g u !! v); eauto. }
    destruct Hsome as [l Hl]. apply elem_of_dom. exists l.
    apply add_edges_keeps_label; assumption.
  - apply IH; assumption.
Qed.

(** X13.  After a sequence of [Add_und_edge] calls on the empty graph,
    [isEdge(x, y)] is 1 exactly when [x] and [y] differ and some call of
    the sequence named the two, in either order. *)
Theorem isEdge_iff_some_call_named_it (es : list (V * V * L)) (x y : V) :
  isEdge x y (graph_of es) = Ok 1 ↔
  x ≠ y ∧ ∃ l, (x, y, l) ∈ es ∨ (y, x, l) ∈ es.
Proof.
  destruct (graph_of_run es) as [_ Hg]. rewrite (isEdge_wf _ x y Hg).
  split.
  - case_decide as Hd; [intros _|discriminate].
    apply elem_of_dom in Hd as [l Hl].
    assert (Hxy : x ≠ y).
    { intros ->. rewrite (wf_noloop _ Hg y) in Hl. discriminate. }
    split; [exact Hxy|]. unfold graph_of in Hl.
    apply (add_edges_label_origin es graph_init x y l wf_graph_init) in Hl
      as [Hl|(u & v & Hin & _ & [[-> ->]|[-> ->]])].
    + rewrite nbrs_graph_init, lookup_empty in Hl. discriminate.
    + exists l. left. exact Hin.
    + exists l. right. exact Hin.
  - intros [Hxy [l [Hin|Hin]]].
    + rewrite decide_True; [reflexivity|]. unfold graph_of.
      apply (add_edges_edge_present es graph_init x y l wf_graph_init Hin Hxy).
    + rewrite decide_True; [reflexivity|]. apply (wf_edge_dom _ x y Hg).
      unfold graph_of.
      apply (add_edges_edge_present es graph_init y x l wf_graph_init Hin).
      congruence.
Qed.

(** The label of an edge is the value of the first call that names it. *)
Lemma add_edges_first_label es1 es2 g u v value :
  wf g → u ≠ v → v ∉ dom (nbrs g u) →
  (∀ a b l, (a, b, l) ∈ es1 → ¬ (a = u ∧ b = v) ∧ ¬ (a = v ∧ b = u)) →
  nbrs (add_edges (es1 ++ (u, v, value) :: es2) g).2 u !! v = Some value.
Proof.
  intros Hg Huv Hd Hnot.
  assert (Happ : (add_edges (es1 ++ (u, v, value) :: es2) g).2 =
                 (add_edges es2
                    (Add_und_edge u v value (add_edges es1 g).2).2).2).
  { rewrite add_edges_app, se_bind_unfold.
    destruct (add_edges_wf es1 g Hg) as (g1 & Hrun & Hg1). rewrite Hrun.
    cbn [snd]. apply add_edges_cons_snd. exact Hg1. }
  rewrite Happ. pose proof (add_edges_wf_snd es1 g Hg) as Hg1.
  apply add_edges_keeps_label; [apply Add_und_edge_wf_snd; exact Hg1|].
  rewrite (Add_und_edge_nbrs _ u v value u Hg1 Huv).
  rewrite decide_True by reflexivity.
  rewrite insert_if_absent_lookup, decide_True by reflexivity.
  destruct (nbrs (add_edges es1 g).2 u !! v) as [l|] eqn:Hl; [|reflexivity].
  exfalso.
  apply (add_edges_label_origin es1 g u v l Hg) in Hl
    as [Hl|(a & b & Hin & _ & Hab)].
  - apply Hd. apply elem_of_dom. eauto.
  - destruct (Hnot a b l Hin) as [H1 H2]. tauto.
Qed.

(** X14.  First writer wins along a whole sequence: the label of an edge is
    the value passed by the first call of the sequence that names its two
    endpoints, in either order, whatever later calls pass. *)
Theorem label_is_from_first_call
    (es1 es2 : list (V * V * L)) (u v : V) (value : L) :
  u ≠ v →
  (∀ a b l, (a, b, l) ∈ es1 → ¬ (a = u ∧ b = v) ∧ ¬ (a = v ∧ b = u)) →
  edge_label (graph_of (es1 ++ (u, v, value) :: es2)) u v = Ok value ∧
  edge_label (graph_of (es1 ++ (u, v, value) :: es2)) v u = Ok value.
Proof.
  intros Huv Hnot. destruct (graph_of_run (es1 ++ (u, v, value) :: es2)) as [_ Hg].
  assert (Hl : nbrs (graph_of (es1 ++ (u, v, value) :: es2)) u !! v = Some value).
  { unfold graph_of. apply add_edges_first_label;
      [apply wf_graph_init|exact Huv| |exact Hnot].
    rewrite nbrs_graph_init, dom_empty_L. apply not_elem_of_empty. }
  rewrite !(edge_label_wf _ _ _ Hg), Hl, (wf_sym _ Hg u v value Hl). auto.
Qed.

(** ** The loop of [Read_edges] over the actors of one line *)

Lemma se_for_fmap {S A B} (f : A → B) (xs : list A) (body : B → SE S unit) s :
  se_for (f <$> xs) body s = se_for xs (λ x, body (f x)) s.
Proof.
  revert s. induction xs as [|x xs IH]; intros s; [reflexivity|].
  rewrite fmap_cons, !se_for_cons, !se_bind_unfold.
  destruct (body (f x) s) as [[[]|e] s1]; [apply IH|reflexivity].
Qed.

Lemma add_cast_calls movie actors g :
  add_cast movie actors g = add_edges (cast_edges movie actors) g.
Proof.
  unfold add_cast, add_edges, cast_edges. rewrite se_for_fmap. reflexivity.
Qed.

Lemma elem_of_combinations2 {A} (l : list A) a b :
  (a, b) ∈ combinations2 l → a ∈ l ∧ b ∈ l.
Proof.
  induction l as [|x l IH]; simpl; [intros Hin; inversion Hin|].
  rewrite elem_of_app, list_elem_of_fmap.
  intros [(y & [= -> ->] & Hy)|Hin].
  - split; [left|right; exact Hy].
  - destruct (IH Hin). split; right; assumption.
Qed.

Lemma combinations2_pair {A} (l : list A) a b :
  a ∈ l → b ∈ l → a ≠ b →
  (a, b) ∈ combinations2 l ∨ (b, a) ∈ combinations2 l.
Proof.
  induction l as [|x l IH]; intros Ha Hb Hab; [inversion Ha|].
  simpl. rewrite !elem_of_app, !list_elem_of_fmap.
  apply elem_of_cons in Ha as [->|Ha]; apply elem_of_cons in Hb as [->|Hb].
  - congruence.
  - left. left. exists b. auto.
  - right. left. exists a. auto.
  - destruct (IH Ha Hb Hab); [left|right]; right; assumption.
Qed.

Lemma elem_of_cast_edges movie actors u v l :
  (u, v, l) ∈ cast_edges movie actors ↔
  l = movie ∧ (u, v) ∈ combinations2 actors.
Proof.
  unfold cast_edges. rewrite list_elem_of_fmap. split.
  - intros ([a b] & [= -> -> ->] & Hin). auto.
  - intros [-> Hin]. exists (u, v). auto.
Qed.

(** A block of calls that all pass the same label, after calls that do not
    name the pair and before any further calls. *)
Lemma add_edges_label_block es1 es2 es3 g u v value :
  wf g → u ≠ v → v ∉ dom (nbrs g u) →
  (∀ a b l, (a, b, l) ∈ es1 → ¬ (a = u ∧ b = v) ∧ ¬ (a = v ∧ b = u)) →
  (∀ a b l, (a, b, l) ∈ es2 → l = value) →
  (∃ l, (u, v, l) ∈ es2 ∨ (v, u, l) ∈ es2) →
  nbrs (add_edges (es1 ++ es2 ++ es3) g).2 u !! v = Some value.
Proof.
  intros Hg Huv Hd Hnot Hsame Hnamed.
  assert (Hsplit : (add_edges (es1 ++ es2 ++ es3) g).2 =
            (add_edges es3 (add_edges es2 (add_edges es1 g).2).2).2).
  { rewrite add_edges_app, se_bind_unfold.
    destruct (add_edges_wf es1 g Hg) as (g1 & Hrun1 & Hg1). rewrite Hrun1.
    rewrite add_edges_app, se_bind_unfold.
    destruct (add_edges_wf es2 g1 Hg1) as (g2 & Hrun2 & Hg2). rewrite Hrun2.
    cbn [snd]. rewrite Hrun2. reflexivity. }
  rewrite Hsplit.
  pose proof (add_edges_wf_snd es1 g Hg) as Hg1.
  pose proof (add_edges_wf_snd es2 _ Hg1) as Hg2.
  apply add_edges_keeps_label; [exact Hg2|].
  assert (Habsent : nbrs (add_edges es1 g).2 u !! v = None).
  { destruct (nbrs (add_edges es1 g).2 u !! v) as [l|] eqn:Hl; [|reflexivity].
    exfalso. apply (add_edges_label_origin es1 g u v l Hg) in Hl
      as [Hl|(a & b & Hin & _ & Hab)].
    - apply Hd. apply elem_of_dom. eauto.
    - destruct (Hnot a b l Hin). tauto. }
  assert (Hpresent : v ∈ dom (nbrs (add_edges es2 (add_edges es1 g).2).2 u)).
  { destruct Hnamed as [l [Hin|Hin]].
    - apply (add_edges_edge_present es2 _ u v l Hg1 Hin Huv).
    - apply (wf_edge_dom _ u v Hg2).
      apply (add_edges_edge_present es2 _ v u l Hg1 Hin). congruence. }
  apply elem_of_dom in Hpresent as [l Hl]. rewrite Hl. f_equal.
  apply (add_edges_label_origin es2 _ u v l Hg1) in Hl
    as [Hl|(a & b & Hin & _ & _)]; [congruence|].
  apply (Hsame a b l Hin).
Qed.

(** ** [Degeneracy] on adjacency sets *)

Lemma set_order_NoDup (s : gset V) : NoDup (set_order s).
Proof. rewrite set_order_perm. apply NoDup_elements. Qed.

Lemma set_order_to_set (s : gset V) : list_to_set (set_order s) = s.
Proof.
  apply set_eq. intros x. rewrite elem_of_list_to_set. apply set_order_elem_of.
Qed.

Lemma working_G pre gG gc t : objs (working pre gG gc t) !! length pre = Some gG.
Proof. unfold working. cbn [objs]. apply list_lookup_middle. reflexivity. Qed.

Lemma working_core pre gG gc t :
  objs (working pre gG gc t) !! S (length pre) = Some gc.
Proof.
  unfold working. cbn [objs]. rewrite lookup_app_r by lia.
  replace (S (length pre) - length pre)%nat with 1%nat by lia. reflexivity.
Qed.

Lemma field_G {A} (f : obj → A) pre gG gc t :
  field (length pre) f (working pre gG gc t) = (Ok (f gG), working pre gG gc t).
Proof. apply field_run, working_G. Qed.

Lemma field_core {A} (f : obj → A) pre gG gc t :
  field (S (length pre)) f (working pre gG gc t)
  = (Ok (f gc), working pre gG gc t).
Proof. apply field_run, working_core. Qed.

Lemma store_G f pre gG gc t :
  store (length pre) f (working pre gG gc t) = (Ok tt, working pre (f gG) gc t).
Proof.
  rewrite store_run. unfold working. cbn [objs DAG_top_order].
  rewrite alter_app_r_alt by lia. rewrite Nat.sub_diag. reflexivity.
Qed.

Lemma store_core f pre gG gc t :
  store (S (length pre)) f (working pre gG gc t)
  = (Ok tt, working pre gG (f gc) t).
Proof.
  rewrite store_run. unfold working. cbn [objs DAG_top_order].
  rewrite alter_app_r_alt by lia.
  replace (S (length pre) - length pre)%nat with 1%nat by lia. reflexivity.
Qed.

Lemma append_core pre gG gc t x :
  cls gc = ClsDAG →
  top_order_append (S (length pre)) x (working pre gG gc t)
  = (Ok tt, working pre gG gc (t ++ [x])).
Proof.
  intros Hcls.
  rewrite (top_order_append_run _ gc t x _ (working_core pre gG gc t) Hcls);
    reflexivity.
Qed.

Lemma succs_set_adj_list g x c y :
  succs (set_adj_list <[x := c]> g) y =
    if decide (y = x) then container_keys c else succs g y.
Proof.
  unfold succs. cbn [adj_list set_adj_list]. case_decide as Hy.
  - subst. rewrite lookup_insert_eq. reflexivity.
  - rewrite lookup_insert_ne by congruence. reflexivity.
Qed.

Lemma succs_set_degrees g f y : succs (set_degrees f g) y = succs g y.
Proof. reflexivity. Qed.

(** One round of lines 221-236 on sets. *)
Lemma peel_loop_step pre gG gc t source node rest dl md k s s2 a o cd :
  degrees gG !! node = Some (Z.of_nat (S k)) →
  dl !! S k = Some s → node ∈ s → dl !! k = Some s2 →
  adj_list gG !! node = Some (CSet a) → source ∈ a →
  adj_list gc !! source = Some (CSet o) →
  degrees gc !! source = Some cd → node ≠ source →
  peel_loop (length pre) (S (length pre)) source (node :: rest) dl md
    (working pre gG gc t) =
  peel_loop (length pre) (S (length pre)) source rest
    (<[k := {[node]} ∪ s2]> (<[S k := s ∖ {[node]}]> dl))
    (if Z.of_nat k <? md then Z.of_nat k else md)
    (working pre
       (set_degrees <[node := Z.of_nat k]>
          (set_adj_list <[node := CSet (a ∖ {[source]})]> gG))
       (set_degrees <[source := cd + 1]>
          (set_adj_list <[source := CSet ({[node]} ∪ o)]> gc)) t).
Proof.
  intros Hdeg Hs Hnode Hs2 Hadj Hsrc Hcadj Hcdeg Hne.
  assert (Hs2' : <[S k := s ∖ {[node]}]> dl !! k = Some s2).
  { rewrite list_lookup_insert_ne by lia. exact Hs2. }
  cbn [peel_loop].
  rewrite se_bind_unfold, field_G. cbv beta iota.
  rewrite se_bind_unfold. unfold se_lift at 1.
  rewrite (getitem_Some _ _ _ Hdeg). cbv beta iota.
  rewrite se_bind_unfold. unfold se_lift at 1.
  rewrite (list_index_nat _ _ _ Hs). cbv beta iota.
  rewrite se_bind_unfold. unfold se_lift at 1. unfold set_remove.
  rewrite decide_True by exact Hnode. cbv beta iota.
  replace (Z.of_nat (S k) - 1) with (Z.of_nat k) by lia.
  rewrite se_bind_unfold. unfold se_lift at 1.
  rewrite (list_index_nat _ _ _ Hs2'). cbv beta iota.
  rewrite se_bind_unfold, field_G. cbv beta iota.
  rewrite se_bind_unfold. unfold se_lift at 1.
  rewrite (getitem_Some _ _ _ Hadj). cbv beta iota.
  rewrite se_bind_unfold. unfold se_lift at 1. unfold container_remove.
  rewrite decide_True by exact Hsrc. cbv beta iota.
  rewrite se_bind_unfold, store_G. cbv beta iota.
  rewrite se_bind_unfold, field_G. cbv beta iota.
  rewrite se_bind_unfold. unfold se_lift at 1. cbn [degrees set_adj_list].
  rewrite (getitem_Some _ _ _ Hdeg). cbv beta iota.
  rewrite se_bind_unfold, store_G. cbv beta iota.
  rewrite se_bind_unfold, field_core. cbv beta iota.
  rewrite se_bind_unfold. unfold se_lift at 1.
  rewrite (getitem_Some _ _ _ Hcadj). cbv beta iota.
  rewrite se_bind_unfold. unfold se_lift at 1. unfold container_add.
  cbv beta iota.
  rewrite se_bind_unfold, store_core. cbv beta iota.
  rewrite se_bind_unfold, field_core. cbv beta iota.
  rewrite se_bind_unfold. unfold se_lift at 1. cbn [degrees set_adj_list].
  rewrite (getitem_Some _ _ _ Hcdeg). cbv beta iota.
  rewrite se_bind_unfold, store_core. cbv beta iota.
  rewrite decide_False by exact Hne.
  replace (Z.of_nat (S k) - 1) with (Z.of_nat k) by lia.
  reflexivity.
Qed.

Lemma size_remove (s : gset V) x k :
  x ∈ s → size s = S k → size (s ∖ {[x]}) = k.
Proof.
  intros Hx Hs. rewrite size_difference by set_solver.
  rewrite size_singleton. lia.
Qed.

(** Lines 221-236 for the neighbours [todo] of [source]: each of them
    loses [source] and one degree, moves one bucket down, and becomes a
    successor of [source] in the output. *)
Lemma peel_loop_run pre t source vs todo :
  ∀ gG gc dl md Rm,
  NoDup todo → source ∉ Rm → source ∈ vs →
  (∀ x, x ∈ todo → x ∈ Rm ∧ source ∈ succs gG x ∧ x ∉ succs gc source) →
  peel_ok gG Rm dl md → dag_ok vs gc →
  ∃ gG' gc' dl' md',
    peel_loop (length pre) (S (length pre)) source todo dl md
      (working pre gG gc t) = (Ok (dl', md'), working pre gG' gc' t) ∧
    peel_ok gG' Rm dl' md' ∧ dag_ok vs gc' ∧
    (∀ x, x ∈ Rm → succs gG' x = if decide (x ∈ todo)
                                  then succs gG x ∖ {[source]} else succs gG x) ∧
    succs gc' source = list_to_set todo ∪ succs gc source ∧
    (∀ u, u ≠ source → succs gc' u = succs gc u).
Proof.
  induction todo as [|node rest IH]; intros gG gc dl md Rm Hnd Hsrc Hsv Htodo Hp Hd.
  - exists gG, gc, dl, md. split; [reflexivity|]. split; [exact Hp|].
    split; [exact Hd|]. split.
    { intros x _. rewrite decide_False; [reflexivity|]. apply not_elem_of_nil. }
    split; [|reflexivity]. simpl. set_solver.
  - apply NoDup_cons in Hnd as [Hnotin Hnd].
    destruct (Htodo node) as (HnR & Hsn & Hnc); [left|].
    assert (Hne : node ≠ source) by (intros ->; contradiction).
    destruct Hp as (Hadj & Hb & Hmd0 & Hmd).
    destruct (Hadj node HnR) as (Hna & Hndeg & Hnlt).
    destruct (size (succs gG node)) as [|k] eqn:Hsz.
    { apply size_empty_iff in Hsz. clear -Hsz Hsn. set_solver. }
    destruct (lookup_lt_is_Some_2 dl (S k)) as [s Hs]; [lia|].
    destruct (lookup_lt_is_Some_2 dl k) as [s2 Hs2]; [lia|].
    assert (Hns : node ∈ s) by (apply (Hb _ _ Hs); auto).
    destruct Hd as (Hcls & Hcvs & Hc).
    destruct (Hc source Hsv) as (Hca & Hcd).
    rewrite (peel_loop_step pre gG gc t source node rest dl md k s s2
               _ _ _ Hndeg Hs Hns Hs2 Hna Hsn Hca Hcd Hne).
    set (gG1 := set_degrees _ (set_adj_list _ gG)).
    set (gc1 := set_degrees _ (set_adj_list _ gc)).
    set (dl1 := <[k := _]> (<[S k := _]> dl)).
    set (md1 := if Z.of_nat k <? md then Z.of_nat k else md).
    assert (HsG1 : ∀ x, succs gG1 x = if decide (x = node)
                                       then succs gG node ∖ {[source]}
                                       else succs gG x).
    { intros x. unfold gG1. rewrite succs_set_degrees, succs_set_adj_list.
      reflexivity. }
    assert (Hsc1 : ∀ u, succs gc1 u = if decide (u = source)
                                      then {[node]} ∪ succs gc source
                                      else succs gc u).
    { intros u. unfold gc1. rewrite succs_set_degrees, succs_set_adj_list.
      reflexivity. }
    assert (Hsz1 : size (succs gG node ∖ {[source]}) = k)
      by (apply size_remove; assumption).
    assert (Hlen1 : length dl1 = length dl).
    { unfold dl1. rewrite !length_insert. reflexivity. }
    destruct (IH gG1 gc1 dl1 md1 Rm Hnd Hsrc Hsv)
      as (gG' & gc' & dl' & md' & Hrun & Hp' & Hd' & HsG' & Hsc' & Hother).
    + intros x Hx. destruct (Htodo x) as (HxR & Hsx & Hxc); [right; exact Hx|].
      assert (x ≠ node) by (intros ->; contradiction).
      split; [exact HxR|]. rewrite HsG1, Hsc1.
      rewrite decide_False by assumption. rewrite decide_True by reflexivity.
      split; [exact Hsx|]. set_solver.
    + split; [|split; [|split]].
      * intros x HxR. rewrite HsG1. unfold gG1.
        cbn [adj_list degrees set_degrees set_adj_list]. rewrite Hlen1.
        destruct (Hadj x HxR) as (Hxa & Hxd & Hxlt).
        case_decide as Hx.
        -- subst x. rewrite !lookup_insert_eq, Hsz1.
           split; [reflexivity|]. split; [reflexivity|lia].
        -- rewrite !lookup_insert_ne by congruence. auto.
      * intros i s' Hi x. rewrite HsG1. unfold dl1 in Hi.
        assert (Hk : (k < length dl)%nat) by lia.
        destruct (decide (i = k)) as [->|Hik].
        { rewrite list_lookup_insert_eq in Hi by (rewrite length_insert; lia).
          injection Hi as <-. rewrite elem_of_union, elem_of_singleton.
          rewrite (Hb _ _ Hs2 x). case_decide as Hx.
          - subst x. split; [auto|]. intros _. left. reflexivity.
          - split; [intros [?|?]; [contradiction|assumption]|auto]. }
        rewrite list_lookup_insert_ne in Hi by congruence.
        destruct (decide (i = S k)) as [->|HiS].
        { rewrite list_lookup_insert_eq in Hi by lia.
          injection Hi as <-. rewrite elem_of_difference, elem_of_singleton.
          rewrite (Hb _ _ Hs x). case_decide as Hx.
          - subst x. split; [intros [_ Hc']; contradiction|].
            intros [_ Hc']. lia.
          - split; [intros [? _]; assumption|auto]. }
        rewrite list_lookup_insert_ne in Hi by congruence.
        rewrite (Hb _ _ Hi x). case_decide as Hx; [|reflexivity].
        subst x. split; [intros [_ Hc']; lia|intros [_ Hc']; lia].
      * unfold md1. destruct (Z.ltb_spec (Z.of_nat k) md); lia.
      * intros x HxR. rewrite HsG1. specialize (Hmd x HxR). unfold md1.
        case_decide as Hx.
        -- rewrite Hsz1. destruct (Z.ltb_spec (Z.of_nat k) md); lia.
        -- destruct (Z.ltb_spec (Z.of_nat k) md); lia.
    + split; [exact Hcls|]. split; [exact Hcvs|].
      intros u Hu. rewrite Hsc1. unfold gc1.
      cbn [adj_list degrees set_degrees set_adj_list].
      destruct (Hc u Hu) as (Hua & Hud). case_decide as Hus.
      * subst u. rewrite !lookup_insert_eq. split; [reflexivity|].
        rewrite size_union by set_solver. rewrite size_singleton.
        f_equal. lia.
      * rewrite !lookup_insert_ne by congruence. auto.
    + exists gG', gc', dl', md'. split; [exact Hrun|].
      split; [exact Hp'|]. split; [exact Hd'|]. split; [|split].
      * intros x HxR. rewrite (HsG' x HxR), HsG1.
        destruct (decide (x = node)) as [->|Hx].
        -- rewrite decide_False by exact Hnotin.
           rewrite decide_True by left. reflexivity.
        -- destruct (decide (x ∈ rest)) as [Hxr|Hxr].
           ++ rewrite decide_True by (right; exact Hxr). reflexivity.
           ++ rewrite decide_False; [reflexivity|].
              intros Hin. apply elem_of_cons in Hin as [?|?]; contradiction.
      * rewrite Hsc', Hsc1. rewrite decide_True by reflexivity.
        simpl. set_solver.
      * intros u Hu. rewrite (Hother u Hu), Hsc1.
        rewrite decide_False by exact Hu. reflexivity.
Qed.

(** The [while] of lines 212-213 stops at the first bucket from [min_deg]
    on that is not empty. *)
Lemma advance_least fuel :
  ∀ dl (m j : nat) s,
  dl !! j = Some s → size s ≠ 0%nat → (m ≤ j)%nat → (j - m < fuel)%nat →
  ∃ k s', advance fuel dl (Z.of_nat m) = Ok (Z.of_nat k) ∧ (m ≤ k)%nat ∧
    dl !! k = Some s' ∧ size s' ≠ 0%nat ∧
    ∀ i s'', (m ≤ i < k)%nat → dl !! i = Some s'' → size s'' = 0%nat.
Proof.
  induction fuel as [|fuel IH]; intros dl m j s Hj Hs Hmj Hfuel; [lia|].
  pose proof (lookup_lt_Some _ _ _ Hj) as Hlt.
  destruct (lookup_lt_is_Some_2 dl m) as [sm Hsm]; [lia|].
  cbn [advance]. rewrite (list_index_nat _ _ _ Hsm). cbn [mbind result_bind].
  case_decide as Hz.
  - assert (m ≠ j) by (intros ->; congruence).
    replace (Z.of_nat m + 1) with (Z.of_nat (S m)) by lia.
    destruct (IH dl (S m) j s Hj Hs) as (k & s' & Hrun & Hk & Hs' & Hne & Hall);
      [lia|lia|].
    exists k, s'. split; [exact Hrun|]. split; [lia|]. split; [exact Hs'|].
    split; [exact Hne|]. intros i s'' Hi His.
    destruct (decide (i = m)) as [->|Him]; [congruence|].
    apply (Hall i s''); [lia|exact His].
  - exists m, sm. split; [reflexivity|]. split; [lia|]. split; [exact Hsm|].
    split; [exact Hz|]. intros i s'' Hi. lia.
Qed.

(** Line 215: the vertex taken leaves its bucket. *)
Lemma peel_ok_pop gG Rm dl md k s source :
  peel_ok gG Rm dl md → dl !! k = Some s → source ∈ s →
  peel_ok gG (Rm ∖ {[source]}) (<[k := s ∖ {[source]}]> dl) md.
Proof.
  intros (Hadj & Hb & Hmd0 & Hmd) Hs Hsrc.
  pose proof (lookup_lt_Some _ _ _ Hs) as Hlt.
  split; [|split; [|split]].
  - intros x Hx. rewrite length_insert. apply Hadj. set_solver.
  - intros i s' Hi x. destruct (decide (i = k)) as [->|Hik].
    + rewrite list_lookup_insert_eq in Hi by exact Hlt. injection Hi as <-.
      rewrite !elem_of_difference, (Hb _ _ Hs x). tauto.
    + rewrite list_lookup_insert_ne in Hi by congruence.
      rewrite elem_of_difference, (Hb _ _ Hi x). split; [|tauto].
      intros [HxR Hsz]. split; [|exact Hsz]. split; [exact HxR|].
      intros Hx. apply elem_of_singleton in Hx. subst x.
      apply (Hb _ _ Hs) in Hsrc as [_ Hsz']. congruence.
  - exact Hmd0.
  - intros x Hx. apply Hmd. set_solver.
Qed.

Lemma app_snoc_split {A} (t : list A) x t1 u t2 :
  t ++ [x] = t1 ++ u :: t2 →
  (t2 = [] ∧ t1 = t ∧ u = x) ∨ ∃ t2', t2 = t2' ++ [x] ∧ t = t1 ++ u :: t2'.
Proof.
  destruct t2 as [|y t2' _] using rev_ind; intros Heq.
  - left. apply (app_inj_tail t t1 x u) in Heq as [-> ->]. auto.
  - right. rewrite app_comm_cons, (assoc_L (++)) in Heq.
    apply app_inj_tail in Heq as [-> ->]. eauto.
Qed.


(** The main loop, lines 207-236, on sets: [iters] rounds remove the
    [iters] vertices that remain. *)
Lemma main_loop_sets pre g :
  set_graph g →
  ∀ iters t gG gc dl md,
  peel_inv g gG gc t dl md →
  size (vertices g ∖ list_to_set t) = iters →
  ∃ t' gG' gc' dl' md',
    main_loop iters (length pre) (S (length pre)) dl md (working pre gG gc t)
      = (Ok tt, working pre gG' gc' t') ∧
    peel_inv g gG' gc' t' dl' md' ∧
    vertices g ∖ list_to_set t' = ∅.
Proof.
  intros Hg. induction iters as [|iters IH]; intros t gG gc dl md Hinv Hsize.
  - exists t, gG, gc, dl, md. split; [reflexivity|]. split; [exact Hinv|].
    apply size_empty_iff in Hsize. apply leibniz_equiv. exact Hsize.
  - destruct Hinv as [Hnd Hsub Hpeel Hcur Hdag Hnone Hout Hmin].
    pose proof Hpeel as (Hadj & Hb & Hmd0 & Hmd).
    assert (Hex : ∃ x, x ∈ vertices g ∖ list_to_set t).
    { apply size_pos_elem_of. lia. }
    destruct Hex as [x0 Hx0].
    destruct (Hadj x0 Hx0) as (_ & _ & Hx0lt).
    destruct (lookup_lt_is_Some_2 dl _ Hx0lt) as [s0 Hs0].
    assert (Hx0s : x0 ∈ s0) by (apply (Hb _ _ Hs0); auto).
    assert (Hs0ne : size s0 ≠ 0%nat).
    { intros Hz. apply size_empty_iff in Hz. set_solver. }
    destruct (advance_least (advance_fuel dl) dl (Z.to_nat md) _ s0 Hs0 Hs0ne)
      as (k & s & Hadv & Hmk & Hs & Hsne & Hall).
    { specialize (Hmd x0 Hx0). lia. }
    { unfold advance_fuel. lia. }
    rewrite Z2Nat.id in Hadv by exact Hmd0.
    assert (Hleast : ∀ x, x ∈ vertices g ∖ list_to_set t →
                          (k ≤ size (succs gG x))%nat).
    { intros x Hx. destruct (Hadj x Hx) as (_ & _ & Hxlt).
      destruct (lookup_lt_is_Some_2 dl _ Hxlt) as [sx Hsx].
      destruct (decide (k ≤ size (succs gG x))%nat) as [|Hlt]; [assumption|].
      assert (Hz : size sx = 0%nat).
      { apply (Hall (size (succs gG x)) sx); [|exact Hsx].
        specialize (Hmd x Hx). lia. }
      apply size_empty_iff in Hz.
      assert (x ∈ sx) by (apply (Hb _ _ Hsx); auto). set_solver. }
    assert (Hsne' : s ≠ ∅).
    { intros ->. apply Hsne. apply size_empty. }
    destruct (set_order_nonempty s Hsne') as (source & others & Hord & Hsrc).
    destruct (proj1 (Hb _ _ Hs source) Hsrc) as [HsR Hsk].
    assert (Hsv : source ∈ vertices g) by set_solver.
    assert (Hst : source ∉ t).
    { intros Hin. apply elem_of_difference in HsR as [_ HsR]. apply HsR.
      apply elem_of_list_to_set. exact Hin. }
    destruct (Hadj source HsR) as (Hsadj & _ & _).
    destruct Hdag as (Hcls & Hcvs & Hc).
    cbn [main_loop].
    rewrite se_bind_unfold. unfold se_lift at 1. rewrite Hadv. cbv beta iota.
    rewrite se_bind_unfold. unfold se_lift at 1.
    rewrite (list_index_nat _ _ _ Hs). cbv beta iota.
    rewrite se_bind_unfold. unfold se_lift at 1. unfold set_pop.
    rewrite Hord. cbv beta iota.
    rewrite se_bind_unfold, (append_core pre gG gc t source Hcls).
    cbv beta iota.
    rewrite se_bind_unfold, field_G. cbv beta iota.
    rewrite se_bind_unfold. unfold se_lift at 1.
    rewrite (getitem_Some _ _ _ Hsadj). cbv beta iota. cbn [container_keys].
    assert (HsucS : succs gG source = succs g source ∖ list_to_set t)
      by (apply Hcur; assumption).
    assert (Hnotin : ∀ y, y ∈ list_to_set (C := gset V) t ↔ y ∈ t)
      by (intros y; apply elem_of_list_to_set).
    destruct (peel_loop_run pre (t ++ [source]) source (vertices g)
                (set_order (succs gG source)) gG gc
                (<[k := s ∖ {[source]}]> dl) (Z.of_nat k)
                (vertices g ∖ list_to_set t ∖ {[source]}))
      as (gG' & gc' & dl' & md' & Hrun & Hp' & Hd' & HsG' & Hsc' & Hother).
    + apply set_order_NoDup.
    + set_solver.
    + exact Hsv.
    + intros x Hx. apply set_order_elem_of in Hx. rewrite HsucS in Hx.
      apply elem_of_difference in Hx as [Hxs Hxt].
      assert (Hxv : x ∈ vertices g) by (apply (sg_closed g Hg source x); assumption).
      assert (Hxne : x ≠ source).
      { intros ->. apply (sg_noloop g Hg source Hsv). exact Hxs. }
      split; [set_solver|]. split.
      * rewrite Hcur; [|exact Hxv|intros Hin; apply Hxt, Hnotin; exact Hin].
        apply elem_of_difference. split.
        -- apply (sg_sym g Hg source x); assumption.
        -- intros Hin. apply Hst, Hnotin. exact Hin.
      * rewrite (Hnone source Hsv Hst). apply not_elem_of_empty.
    + apply peel_ok_pop; [|exact Hs|exact Hsrc].
      split; [exact Hadj|]. split; [exact Hb|]. split; [lia|].
      intros x Hx. specialize (Hleast x Hx). lia.
    + split; [exact Hcls|]. split; [exact Hcvs|exact Hc].
    + rewrite (se_bind_ok _ _ _ _ _ Hrun).
      assert (HRm' : vertices g ∖ list_to_set (t ++ [source])
                     = vertices g ∖ list_to_set t ∖ {[source]}).
      { rewrite list_to_set_app_L. simpl. clear. set_solver. }
      destruct (IH (t ++ [source]) gG' gc' dl' md')
        as (t' & gG'' & gc'' & dl'' & md'' & Hrun' & Hinv' & Hfin).
      * split.
        -- apply NoDup_app. split; [exact Hnd|]. split.
           ++ intros y Hy Hy'. apply list_elem_of_singleton in Hy'. subst y.
              contradiction.
           ++ apply NoDup_singleton.
        -- intros y Hy. apply elem_of_app in Hy as [Hy|Hy]; [auto|].
           apply list_elem_of_singleton in Hy. subst y. exact Hsv.
        -- rewrite HRm'. exact Hp'.
        -- intros x Hxv Hxt.
           assert (Hxt' : x ∉ t) by (intros Hin; apply Hxt, elem_of_app; auto).
           assert (Hxs : x ≠ source).
           { intros ->. apply Hxt, elem_of_app. right. left. }
           rewrite HsG' by set_solver.
           rewrite (Hcur x Hxv Hxt'), list_to_set_app_L. simpl.
           case_decide as Hin.
           ++ set_solver.
           ++ assert (Hns : source ∉ succs g x).
              { intros Hsx. apply Hin. apply set_order_elem_of.
                rewrite HsucS. apply elem_of_difference. split.
                - apply (sg_sym g Hg x source); assumption.
                - intros Hin'. apply Hxt', Hnotin. exact Hin'. }
              set_solver.
        -- exact Hd'.
        -- intros u Huv Hut.
           assert (Hus : u ≠ source).
           { intros ->. apply Hut, elem_of_app. right. left. }
           rewrite (Hother u Hus). apply Hnone; [exact Huv|].
           intros Hin. apply Hut, elem_of_app. auto.
        -- intros t1 u t2 Heq.
           apply app_snoc_split in Heq as [(-> & -> & ->)|(t2' & -> & ->)].
           ++ rewrite Hsc', (Hnone source Hsv Hst), set_order_to_set, HsucS.
              apply union_empty_r_L.
           ++ assert (Hus : u ≠ source).
              { intros ->. apply Hst, elem_of_app. right. left. }
              rewrite (Hother u Hus). apply (Hout t1 u t2'). reflexivity.
        -- intros t1 u t2 w Heq Hwv Hwt.
           apply app_snoc_split in Heq as [(-> & -> & ->)|(t2' & -> & ->)].
           ++ rewrite <- HsucS, <- (Hcur w Hwv Hwt), Hsk. apply Hleast.
              apply elem_of_difference. split; [exact Hwv|].
              intros Hin. apply Hwt, Hnotin. exact Hin.
           ++ apply (Hmin t1 u t2' w); [reflexivity|assumption|assumption].
      * rewrite HRm'. rewrite size_difference by set_solver.
        rewrite size_singleton. lia.
      * exists t', gG'', gc'', dl'', md''. auto.
Qed.

(** Lines 191-193 on the store of [Degeneracy]: every vertex gets an empty
    set of successors and the degree 0. *)
Lemma core_init_loop_sets pre gG t nodes :
  ∀ gc, ∃ gc',
    core_init_loop (S (length pre)) nodes (working pre gG gc t)
      = (Ok tt, working pre gG gc' t) ∧
    cls gc' = cls gc ∧ vertices gc' = vertices gc ∧
    (∀ u, u ∈ nodes → adj_list gc' !! u = Some (CSet ∅) ∧
                      degrees gc' !! u = Some 0) ∧
    (∀ u, u ∉ nodes → adj_list gc' !! u = adj_list gc !! u ∧
                      degrees gc' !! u = degrees gc !! u).
Proof.
  induction nodes as [|x nodes IH]; intros gc.
  - exists gc. split; [reflexivity|]. split; [reflexivity|].
    split; [reflexivity|]. split; [|auto].
    intros u Hu. apply not_elem_of_nil in Hu. contradiction.
  - unfold core_init_loop. rewrite se_for_cons.
    rewrite !se_bind_unfold, store_core. cbv beta iota.
    rewrite store_core. cbv beta iota.
    destruct (IH (set_degrees <[x := 0]> (set_adj_list <[x := CSet ∅]> gc)))
      as (gc' & Hrun & Hcls & Hvs & Hin & Hout).
    exists gc'. split; [exact Hrun|]. split; [exact Hcls|].
    split; [exact Hvs|]. split.
    + intros u Hu. destruct (decide (u ∈ nodes)) as [Hun|Hun]; [auto|].
      apply elem_of_cons in Hu as [->|Hu]; [|contradiction].
      destruct (Hout x Hun) as [-> ->].
      cbn [adj_list degrees set_degrees set_adj_list].
      rewrite !lookup_insert_eq. auto.
    + intros u Hu. apply not_elem_of_cons in Hu as [Hux Hun].
      destruct (Hout u Hun) as [-> ->].
      cbn [adj_list degrees set_degrees set_adj_list].
      rewrite !lookup_insert_ne by congruence. auto.
Qed.

(** Lines 199-203 on sets: every vertex enters the bucket of its degree. *)
Lemma bucket_loop_sets pre gG gc t nodes :
  ∀ dl md P,
  (∀ x, x ∈ nodes →
     adj_list gG !! x = Some (CSet (succs gG x)) ∧
     degrees gG !! x = Some (Z.of_nat (size (succs gG x))) ∧
     (size (succs gG x) < length dl)%nat) →
  peel_ok gG P dl md →
  ∃ dl' md',
    bucket_loop (length pre) nodes dl md (working pre gG gc t)
      = (Ok (dl', md'), working pre gG gc t) ∧
    peel_ok gG (P ∪ list_to_set nodes) dl' md'.
Proof.
  induction nodes as [|x nodes IH]; intros dl md P Hnodes Hp.
  - exists dl, md. split; [reflexivity|]. simpl.
    rewrite union_empty_r_L. exact Hp.
  - destruct (Hnodes x) as (Hxa & Hxd & Hxlt); [left|].
    destruct (lookup_lt_is_Some_2 dl _ Hxlt) as [s Hs].
    destruct Hp as (Hadj & Hb & Hmd0 & Hmd).
    cbn [bucket_loop].
    rewrite se_bind_unfold, field_G. cbv beta iota.
    rewrite se_bind_unfold. unfold se_lift at 1.
    rewrite (getitem_Some _ _ _ Hxd). cbv beta iota.
    rewrite se_bind_unfold. unfold se_lift at 1.
    rewrite (list_index_nat _ _ _ Hs). cbv beta iota.
    set (dx := size (succs gG x)) in *.
    destruct (IH (<[dx := {[x]} ∪ s]> dl)
                 (if Z.of_nat dx <? md then Z.of_nat dx else md)
                 (P ∪ {[x]}))
      as (dl' & md' & Hrun & Hp').
    + intros y Hy. rewrite length_insert. apply Hnodes. right. exact Hy.
    + split; [|split; [|split]].
      * intros y Hy. rewrite length_insert.
        apply elem_of_union in Hy as [Hy|Hy]; [apply Hadj; exact Hy|].
        apply elem_of_singleton in Hy. subst y. auto.
      * intros i s' Hi y. destruct (decide (i = dx)) as [->|Hne].
        -- rewrite list_lookup_insert_eq in Hi by exact Hxlt.
           injection Hi as <-.
           rewrite !elem_of_union, !elem_of_singleton, (Hb _ _ Hs y).
           split; [intros [-> | [? ?]]; auto|].
           intros [[? | ->] ?]; auto.
        -- rewrite list_lookup_insert_ne in Hi by congruence.
           rewrite elem_of_union, elem_of_singleton, (Hb _ _ Hi y).
           split; [intros [? ?]; auto|].
           intros [[? | ->] ?]; [auto|]. unfold dx in Hne. congruence.
      * destruct (Z.ltb_spec (Z.of_nat dx) md); lia.
      * intros y Hy. apply elem_of_union in Hy as [Hy|Hy].
        -- specialize (Hmd y Hy).
           destruct (Z.ltb_spec (Z.of_nat dx) md); lia.
        -- apply elem_of_singleton in Hy. subst y. fold dx.
           destruct (Z.ltb_spec (Z.of_nat dx) md); lia.
    + exists dl', md'. split; [exact Hrun|].
      replace (P ∪ list_to_set (x :: nodes))
        with (P ∪ {[x]} ∪ list_to_set nodes) by (simpl; set_solver).
      exact Hp'.
Qed.

Lemma set_graph_degree_lt g v :
  set_graph g → v ∈ vertices g → (size (succs g v) < size (vertices g))%nat.
Proof.
  intros Hg Hv.
  assert (Hsub : succs g v ⊆ vertices g ∖ {[v]}).
  { intros x Hx. apply elem_of_difference. split.
    - apply (sg_closed g Hg v x); assumption.
    - intros Hxv. apply elem_of_singleton in Hxv. subst x.
      apply (sg_noloop g Hg v Hv). exact Hx. }
  apply subseteq_size in Hsub.
  rewrite size_difference in Hsub by set_solver.
  rewrite size_singleton in Hsub.
  assert (size (vertices g) ≠ 0%nat).
  { intros Hz. apply size_empty_iff in Hz. set_solver. }
  lia.
Qed.

(** [Degeneracy] on a graph of sets: it returns the new [DAG], and the
    state it leaves satisfies the loop invariant with every vertex
    removed. *)
Lemma Degeneracy_sets self st g :
  objs st !! self = Some g → set_graph g →
  ∃ gG gc t dl md,
    Degeneracy self st
      = (Ok (S (length (objs st))), working (objs st) gG gc t) ∧
    peel_inv g gG gc t dl md ∧
    list_to_set t = vertices g.
Proof.
  intros Hself Hg. rewrite (Degeneracy_start self st g Hself). cbv zeta.
  change (mkState (objs st ++ [g; mkObj ClsDAG ∅ (vertices g) ∅]) (Some []))
    with (working (objs st) g (mkObj ClsDAG ∅ (vertices g) ∅) []).
  destruct (core_init_loop_sets (objs st) g [] (set_order (vertices g))
              (mkObj ClsDAG ∅ (vertices g) ∅))
    as (gc & Hrun & Hcls & Hvs & Hin & _).
  rewrite (se_bind_ok _ _ _ _ _ Hrun).
  rewrite se_bind_unfold, field_G. cbv beta iota.
  destruct (bucket_loop_sets (objs st) g gc [] (set_order (vertices g))
              (replicate (size (vertices g)) ∅)
              (Z.of_nat (size (vertices g))) ∅)
    as (dl & md & Hbrun & Hp).
  { intros x Hx. apply set_order_elem_of in Hx. rewrite length_replicate.
    split; [apply (sg_adj g Hg x Hx)|].
    split; [apply (sg_degree g Hg x Hx)|].
    apply set_graph_degree_lt; assumption. }
  { split; [|split; [|split]].
    - intros x Hx. apply not_elem_of_empty in Hx. contradiction.
    - intros i s Hi x. apply lookup_replicate in Hi as [-> _]. set_solver.
    - lia.
    - intros x Hx. apply not_elem_of_empty in Hx. contradiction. }
  rewrite (se_bind_ok _ _ _ _ _ Hbrun).
  rewrite set_order_to_set, union_empty_l_L in Hp.
  assert (Hsucc0 : ∀ u, u ∈ vertices g → succs gc u = ∅).
  { intros u Hu. unfold succs.
    destruct (Hin u) as [-> _]; [apply set_order_elem_of; exact Hu|].
    reflexivity. }
  destruct (main_loop_sets (objs st) g Hg (size (vertices g)) [] g gc dl md)
    as (t & gG' & gc' & dl' & md' & Hmrun & Hinv & Hfin).
  { split.
    - apply NoDup_nil_2.
    - intros x Hx. apply not_elem_of_nil in Hx. contradiction.
    - simpl. rewrite difference_empty_L. exact Hp.
    - intros x _ _. simpl. rewrite difference_empty_L. reflexivity.
    - split; [exact Hcls|]. split; [exact Hvs|]. intros u Hu.
      rewrite (Hsucc0 u Hu).
      apply Hin. apply set_order_elem_of. exact Hu.
    - intros u Hu _. apply Hsucc0. exact Hu.
    - intros t1 u t2 Heq. destruct t1; discriminate Heq.
    - intros t1 u t2 w Heq. destruct t1; discriminate Heq. }
  { simpl. rewrite difference_empty_L. reflexivity. }
  rewrite se_bind_unfold, Hmrun. cbv beta iota.
  exists gG', gc', t, dl', md'. split; [reflexivity|]. split; [exact Hinv|].
  apply set_eq. intros x. split.
  - intros Hx. apply elem_of_list_to_set in Hx. apply (pi_sub _ _ _ _ _ _ Hinv x Hx).
  - intros Hx. destruct (decide (x ∈ (list_to_set t : gset V))); [assumption|].
    exfalso. assert (x ∈ vertices g ∖ list_to_set t) by set_solver.
    rewrite Hfin in H0. set_solver.
Qed.

(** A check of [set_graph] that can be computed. *)
Lemma set_graph_check g :
  set_Forall (λ v,
    adj_list g !! v = Some (CSet (succs g v)) ∧
    degrees g !! v = Some (Z.of_nat (size (succs g v))) ∧
    (v ∉ succs g v) ∧
    set_Forall (λ u, u ∈ vertices g ∧ v ∈ succs g u) (succs g v))
    (vertices g) →
  set_graph g.
Proof.
  intros Hall. split.
  - intros v Hv. apply (Hall v Hv).
  - intros v Hv. apply (Hall v Hv).
  - intros u v Hu Hv. destruct (Hall u Hu) as (_ & _ & _ & Hn).
    apply (Hn v Hv).
  - intros u v Hu Hv. destruct (Hall u Hu) as (_ & _ & _ & Hn).
    apply (Hn v Hv).
  - intros v Hv. apply (Hall v Hv).
Qed.

(** What the final state of [Degeneracy] says about one vertex [u] of the
    order [t1 ++ u :: t2]. *)
Lemma peel_inv_out g gG gc t dl md t1 u t2 :
  set_graph g → peel_inv g gG gc t dl md → list_to_set t = vertices g →
  t = t1 ++ u :: t2 →
  u ∈ vertices g ∧
  succs gc u = succs g u ∩ list_to_set (u :: t2) ∧
  (∀ w, w ∈ u :: t2 →
     w ∈ vertices g ∧
     succs g w ∖ list_to_set t1 = succs g w ∩ list_to_set (u :: t2)) ∧
  ∀ v, v ∈ succs gc u ↔ v ∈ succs g u ∧ v ∈ t2.
Proof.
  intros Hg Hinv Hfin ->.
  pose proof (pi_nodup _ _ _ _ _ _ Hinv) as Hnd.
  apply NoDup_app in Hnd as (_ & Hdisj & Hnd2).
  assert (Hu : u ∈ vertices g).
  { apply (pi_sub _ _ _ _ _ _ Hinv). apply elem_of_app. right. left. }
  assert (Hrest : ∀ w, w ∈ u :: t2 →
            w ∈ vertices g ∧
            succs g w ∖ list_to_set t1 = succs g w ∩ list_to_set (u :: t2)).
  { intros w Hw.
    assert (Hwv : w ∈ vertices g).
    { apply (pi_sub _ _ _ _ _ _ Hinv). apply elem_of_app. right. exact Hw. }
    split; [exact Hwv|]. apply set_eq. intros v.
    rewrite elem_of_difference, elem_of_intersection, !elem_of_list_to_set.
    split.
    - intros [Hv Hvt]. split; [exact Hv|].
      assert (Hvv : v ∈ vertices g) by (apply (sg_closed g Hg w v); assumption).
      rewrite <- Hfin in Hvv. apply elem_of_list_to_set in Hvv.
      apply elem_of_app in Hvv as [?|?]; [contradiction|assumption].
    - intros [Hv Hvt]. split; [exact Hv|]. intros Hv1.
      apply (Hdisj v Hv1 Hvt). }
  split; [exact Hu|].
  assert (Hout : succs gc u = succs g u ∩ list_to_set (u :: t2)).
  { rewrite (pi_out _ _ _ _ _ _ Hinv t1 u t2 eq_refl).
    apply Hrest. left. }
  split; [exact Hout|]. split; [exact Hrest|].
  intros v. rewrite Hout, elem_of_intersection, elem_of_list_to_set.
  split.
  - intros [Hv Hvt]. split; [exact Hv|].
    apply elem_of_cons in Hvt as [->|Hvt]; [|exact Hvt].
    exfalso. apply (sg_noloop g Hg u Hu). exact Hv.
  - intros [Hv Hvt]. split; [exact Hv|]. right. exact Hvt.
Qed.

(** X18.  On a graph whose adjacency values are sets, [Degeneracy]
    returns a new [DAG] on the same vertices; the order it leaves in
    [DAG.top_order] lists every vertex once; and the successors recorded
    for a vertex are exactly its neighbours that come later in the order,
    their number being its degree in the [DAG]. *)
Theorem Degeneracy_on_sets_orients_forward (self : nat) (st : state) (g : obj) :
  objs st !! self = Some g → set_graph g →
  ∃ core c t,
    (Degeneracy self st).1 = Ok core ∧
    objs (Degeneracy self st).2 !! core = Some c ∧
    DAG_top_order (Degeneracy self st).2 = Some t ∧
    cls c = ClsDAG ∧ vertices c = vertices g ∧
    t ≡ₚ elements (vertices g) ∧
    ∀ t1 u t2, t = t1 ++ u :: t2 →
      adj_list c !! u = Some (CSet (succs c u)) ∧
      degrees c !! u = Some (Z.of_nat (size (succs c u))) ∧
      ∀ v, v ∈ succs c u ↔ v ∈ succs g u ∧ v ∈ t2.
Proof.
  intros Hself Hg.
  destruct (Degeneracy_sets self st g Hself Hg)
    as (gG & gc & t & dl & md & Hrun & Hinv & Hfin).
  exists (S (length (objs st))), gc, t. rewrite Hrun. cbn [fst snd].
  destruct (pi_dag _ _ _ _ _ _ Hinv) as (Hcls & Hvs & Hc).
  split; [reflexivity|]. split; [apply working_core|].
  split; [reflexivity|]. split; [exact Hcls|]. split; [exact Hvs|]. split.
  - rewrite <- Hfin. symmetry. apply elements_list_to_set.
    apply (pi_nodup _ _ _ _ _ _ Hinv).
  - intros t1 u t2 Heq.
    destruct (peel_inv_out g gG gc t dl md t1 u t2 Hg Hinv Hfin Heq)
      as (Hu & _ & _ & Hout).
    destruct (Hc u Hu) as [Ha Hd]. auto.
Qed.

(** X19.  On a graph whose adjacency values are sets, the [DAG] that
    [Degeneracy] returns has every edge of the graph in exactly one
    direction, and no other edge. *)
Theorem Degeneracy_on_sets_directs_each_edge_once
    (self : nat) (st : state) (g : obj) :
  objs st !! self = Some g → set_graph g →
  ∃ core c,
    (Degeneracy self st).1 = Ok core ∧
    objs (Degeneracy self st).2 !! core = Some c ∧
    (∀ u v, u ∈ vertices g → v ∈ succs g u →
       (v ∈ succs c u ∧ u ∉ succs c v) ∨ (u ∈ succs c v ∧ v ∉ succs c u)) ∧
    (∀ u v, u ∈ vertices g → v ∈ succs c u → v ∈ succs g u).
Proof.
  intros Hself Hg.
  destruct (Degeneracy_sets self st g Hself Hg)
    as (gG & gc & t & dl & md & Hrun & Hinv & Hfin).
  exists (S (length (objs st))), gc. rewrite Hrun. cbn [fst snd].
  split; [reflexivity|]. split; [apply working_core|].
  pose proof (pi_nodup _ _ _ _ _ _ Hinv) as Hnd.
  assert (Hsplit : ∀ u, u ∈ vertices g → ∃ t1 t2, t = t1 ++ u :: t2).
  { intros u Hu. rewrite <- Hfin in Hu. apply elem_of_list_to_set in Hu.
    apply list_elem_of_split in Hu. exact Hu. }
  assert (Hfwd : ∀ a b ta tb, t = ta ++ a :: tb → b ∈ tb →
                   a ∈ succs g b → b ∈ vertices g → b ≠ a →
                   (b ∈ succs gc a ∧ a ∉ succs gc b)).
  { intros a b ta tb Heq Hb Hab Hbv Hne.
    destruct (peel_inv_out g gG gc t dl md ta a tb Hg Hinv Hfin Heq)
      as (Ha & _ & _ & Hout).
    split.
    - apply Hout. split; [|exact Hb]. apply (sg_sym g Hg b a); assumption.
    - intros Hin. apply list_elem_of_split in Hb as (l1 & l2 & ->).
      assert (Heq' : t = (ta ++ a :: l1) ++ b :: l2).
      { rewrite Heq, <- (assoc_L (++)). reflexivity. }
      destruct (peel_inv_out g gG gc t dl md _ b l2 Hg Hinv Hfin Heq')
        as (_ & _ & _ & Hout').
      apply Hout' in Hin as [_ Hin].
      rewrite Heq' in Hnd. apply NoDup_app in Hnd as (_ & Hdisj & _).
      apply (Hdisj a); [apply elem_of_app; right; left|right; exact Hin]. }
  split.
  - intros u v Hu Hv.
    assert (Hvv : v ∈ vertices g) by (apply (sg_closed g Hg u v); assumption).
    assert (Hne : v ≠ u).
    { intros ->. apply (sg_noloop g Hg u Hu). exact Hv. }
    assert (Hvu : u ∈ succs g v) by (apply (sg_sym g Hg u v); assumption).
    destruct (Hsplit u Hu) as (t1 & t2 & Heq).
    assert (Hvt : v ∈ t1 ++ u :: t2).
    { rewrite <- Heq. apply (elem_of_list_to_set (C := gset V)).
      rewrite Hfin. exact Hvv. }
    apply elem_of_app in Hvt as [Hvt|Hvt].
    + right. apply list_elem_of_split in Hvt as (l1 & l2 & ->).
      apply (Hfwd v u l1 (l2 ++ u :: t2)).
      * rewrite Heq, <- (assoc_L (++)). reflexivity.
      * apply elem_of_app. right. left.
      * exact Hv.
      * exact Hu.
      * congruence.
    + apply elem_of_cons in Hvt as [?|Hvt]; [contradiction|].
      left. apply (Hfwd u v t1 t2); auto.
  - intros u v Hu Hv. destruct (Hsplit u Hu) as (t1 & t2 & Heq).
    destruct (peel_inv_out g gG gc t dl md t1 u t2 Hg Hinv Hfin Heq)
      as (_ & _ & _ & Hout).
    apply Hout in Hv as [Hv _]. exact Hv.
Qed.

(** X20.  On a graph whose adjacency values are sets, the order that
    [Degeneracy] leaves is a minimum-degree removal order: among the
    vertices from [u] on, [u] has the fewest neighbours, and these are its
    successors in the [DAG]. *)
Theorem Degeneracy_on_sets_removes_minimum_degree
    (self : nat) (st : state) (g : obj) :
  objs st !! self = Some g → set_graph g →
  ∃ core c t,
    (Degeneracy self st).1 = Ok core ∧
    objs (Degeneracy self st).2 !! core = Some c ∧
    DAG_top_order (Degeneracy self st).2 = Some t ∧
    ∀ t1 u t2, t = t1 ++ u :: t2 →
      succs c u = succs g u ∩ list_to_set (u :: t2) ∧
      ∀ w, w ∈ u :: t2 →
        (size (succs g u ∩ list_to_set (u :: t2))
         ≤ size (succs g w ∩ list_to_set (u :: t2)))%nat.
Proof.
  intros Hself Hg.
  destruct (Degeneracy_sets self st g Hself Hg)
    as (gG & gc & t & dl & md & Hrun & Hinv & Hfin).
  exists (S (length (objs st))), gc, t. rewrite Hrun. cbn [fst snd].
  split; [reflexivity|]. split; [apply working_core|].
  split; [reflexivity|]. intros t1 u t2 Heq.
  destruct (peel_inv_out g gG gc t dl md t1 u t2 Hg Hinv Hfin Heq)
    as (Hu & Hout & Hrest & _).
  split; [exact Hout|]. intros w Hw.
  destruct (Hrest w Hw) as [Hwv <-].
  destruct (Hrest u) as [_ <-]; [left|].
  apply (pi_min _ _ _ _ _ _ Hinv t1 u t2 w Heq Hwv).
  intros Hw1. pose proof (pi_nodup _ _ _ _ _ _ Hinv) as Hnd.
  rewrite Heq in Hnd. apply NoDup_app in Hnd as (_ & Hdisj & _).
  apply (Hdisj w Hw1 Hw).
Qed.

(** ** What a failing [Degeneracy] leaves behind *)

(** Lines 199-203 leave in [min_deg] a value that is at most the start
    value and at most the degree of every vertex placed. *)
Lemma bucket_loop_min G g nodes :
  ∀ st deg_list min_deg dl md st',
  objs st !! G = Some g →
  bucket_loop G nodes deg_list min_deg st = (Ok (dl, md), st') →
  md ≤ min_deg ∧ ∀ x d, x ∈ nodes → degrees g !! x = Some d → md ≤ d.
Proof.
  induction nodes as [|x nodes IH]; intros st dl0 md0 dl md st' HG Hrun.
  - injection Hrun as _ <- _. split; [lia|].
    intros y d Hy. apply not_elem_of_nil in Hy. contradiction.
  - cbn [bucket_loop] in Hrun.
    rewrite (se_bind_ok _ _ _ _ _ (field_run G degrees st g HG)) in Hrun.
    rewrite se_bind_unfold in Hrun. unfold se_lift at 1 in Hrun.
    unfold getitem at 1 in Hrun.
    destruct (degrees g !! x) as [dx|] eqn:Hdx; [|discriminate].
    cbv beta iota in Hrun.
    rewrite se_bind_unfold in Hrun. unfold se_lift at 1 in Hrun.
    destruct (list_index dl0 dx) as [[i s]|e]; [|discriminate].
    cbv beta iota in Hrun.
    apply (IH _ _ _ _ _ _ HG) in Hrun as [Hle Hall].
    split; [destruct (Z.ltb_spec dx md0); lia|].
    intros y d Hy Hd. apply elem_of_cons in Hy as [->|Hy].
    + assert (d = dx) as -> by congruence.
      destruct (Z.ltb_spec dx md0); lia.
    + apply (Hall y d Hy Hd).
Qed.

(** On a graph built by [Add_und_edge] with a vertex, the first round of
    the main loop appends the vertex it takes to the order and raises at
    line 232 before it writes to [G] or to [core_G]. *)
Lemma main_loop_fails pre g gc t deg_list min_deg iters :
  cls gc = ClsDAG → wf g → vertices g ≠ ∅ →
  buckets_ok g deg_list (vertices g) → min_ok g (vertices g) min_deg →
  ∃ source,
    source ∈ vertices g ∧ degrees g !! source = Some min_deg ∧
    main_loop (S iters) (length pre) (S (length pre)) deg_list min_deg
      (working pre g gc t)
    = (Err AttributeError, working pre g gc (t ++ [source])).
Proof.
  intros Hcls Hg Hne (Hlen & Hb1 & Hb2) Hm.
  destruct Hm as [[Hempty _]|(x0 & Hx0 & Hx0d)]; [contradiction|].
  destruct (Hb2 x0 Hx0) as (k & s & Hk & Hs & Hx0s).
  assert (min_deg = Z.of_nat k) as -> by congruence.
  assert (Hsne : s ≠ ∅) by (intros ->; apply not_elem_of_empty in Hx0s; exact Hx0s).
  assert (Hsz : size s ≠ 0%nat).
  { intros Hz. apply size_empty_iff in Hz. apply Hsne.
    apply leibniz_equiv. exact Hz. }
  destruct (set_order_nonempty s Hsne) as (source & rest & Hord & Hsrc).
  destruct (Hb1 k s source Hs Hsrc) as [Hsv Hsd].
  pose proof (wf_local_adj g source (wf_loc g Hg) Hsv) as Hadj.
  pose proof (wf_nonisolated g Hg source Hsv) as Hnbr.
  assert (Hdne : dom (nbrs g source) ≠ ∅).
  { intros Hd. apply Hnbr. apply dom_empty_iff_L. exact Hd. }
  destruct (set_order_nonempty _ Hdne) as (node & rest' & Hord' & Hnode).
  destruct (wf_nbr_vertex g source node Hg Hnode) as [Hnv Hneq].
  pose proof (wf_degree g (wf_loc g Hg) node Hnv) as Hnd.
  pose proof (wf_degree_bounds g node Hg Hnv) as Hnb.
  destruct (Hb2 node Hnv) as (kn & sn & Hkn & Hsn & Hnsn).
  assert (kn = size (nbrs g node)) as ->.
  { rewrite Hnd in Hkn. injection Hkn as Hkn. lia. }
  pose proof (wf_local_adj g node (wf_loc g Hg) Hnv) as Hnadj.
  exists source. split; [exact Hsv|]. split; [exact Hsd|].
  cbn [main_loop].
  rewrite se_bind_unfold. unfold se_lift at 1.
  rewrite (advance_stop _ _ _ Hs Hsz). cbv beta iota.
  rewrite se_bind_unfold. unfold se_lift at 1.
  rewrite (list_index_nat _ _ _ Hs). cbv beta iota.
  rewrite se_bind_unfold. unfold se_lift at 1.
  unfold set_pop. rewrite Hord. cbv beta iota.
  rewrite se_bind_unfold, (append_core pre g gc t source Hcls). cbv beta iota.
  rewrite se_bind_unfold, field_G. cbv beta iota.
  rewrite se_bind_unfold. unfold se_lift at 1.
  rewrite (getitem_Some _ _ _ Hadj). cbv beta iota.
  cbn [container_keys]. rewrite Hord'.
  set (dl1 := <[k := s ∖ {[source]}]> deg_list).
  assert (Hdl1 : dl1 !! size (nbrs g node)
                 = Some (if decide (k = size (nbrs g node))
                         then s ∖ {[source]} else sn)).
  { unfold dl1. case_decide as Hkk.
    - subst k. apply list_lookup_insert_eq. rewrite Hlen. lia.
    - rewrite list_lookup_insert_ne by exact Hkk. exact Hsn. }
  cbn [peel_loop]. rewrite se_bind_unfold.
  rewrite se_bind_unfold, field_G. cbv beta iota.
  rewrite se_bind_unfold. unfold se_lift at 1.
  rewrite (getitem_Some _ _ _ Hnd). cbv beta iota.
  rewrite se_bind_unfold. unfold se_lift at 1.
  rewrite (list_index_nat _ _ _ Hdl1). cbv beta iota.
  rewrite se_bind_unfold. unfold se_lift at 1.
  unfold set_remove. rewrite decide_True.
  2:{ case_decide as Hkk.
      - subst k. rewrite Hs in Hsn. injection Hsn as <-.
        apply elem_of_difference. split; [exact Hnsn|].
        rewrite elem_of_singleton. congruence.
      - exact Hnsn. }
  cbv beta iota.
  set (dl2 := <[size (nbrs g node) := _]> dl1).
  assert (Hdl2 : is_Some (dl2 !! (size (nbrs g node) - 1)%nat)).
  { apply lookup_lt_is_Some_2. unfold dl2, dl1.
    rewrite !length_insert, Hlen. lia. }
  destruct Hdl2 as [t2 Hdl2].
  replace (Z.of_nat (size (nbrs g node)) - 1)
    with (Z.of_nat (size (nbrs g node) - 1)) by lia.
  rewrite se_bind_unfold. unfold se_lift at 1.
  rewrite (list_index_nat _ _ _ Hdl2). cbv beta iota.
  rewrite se_bind_unfold, field_G. cbv beta iota.
  rewrite se_bind_unfold. unfold se_lift at 1.
  rewrite (getitem_Some _ _ _ Hnadj). cbv beta iota.
  reflexivity.
Qed.

(** X21.  What the failing call leaves behind: on a graph built by
    [Add_und_edge] with at least one vertex, [Degeneracy] raises
    [AttributeError] after it has bound [DAG.top_order] to a new list and
    appended one vertex of least degree to it.  The store holds two more
    objects, the untouched copy of the graph and a [DAG] on its vertices
    without any edge, and every [DAG] that existed before the call now
    reads that one-vertex list as its order. *)
Theorem Degeneracy_failure_overwrites_shared_order
    (es : list (V * V * L)) (self : nat) (st : state) :
  objs st !! self = Some (graph_of es) → vertices (graph_of es) ≠ ∅ →
  ∃ source c,
    Degeneracy self st
      = (Err AttributeError,
         mkState (objs st ++ [graph_of es; c]) (Some [source])) ∧
    source ∈ vertices (graph_of es) ∧
    (∀ w, w ∈ vertices (graph_of es) →
          degree_of (graph_of es) source ≤ degree_of (graph_of es) w) ∧
    cls c = ClsDAG ∧ vertices c = vertices (graph_of es) ∧
    (∀ u, u ∈ vertices (graph_of es) →
          adj_list c !! u = Some (CSet ∅) ∧ degrees c !! u = Some 0) ∧
    ∀ d o, objs st !! d = Some o → cls o = ClsDAG →
      (get_top_order d (Degeneracy self st).2).1 = Ok [source].
Proof.
  intros Hself Hne. destruct (graph_of_run es) as [_ Hg].
  set (g := graph_of es) in *.
  rewrite (Degeneracy_start self st g Hself). cbv zeta.
  change (mkState (objs st ++ [g; mkObj ClsDAG ∅ (vertices g) ∅]) (Some []))
    with (working (objs st) g (mkObj ClsDAG ∅ (vertices g) ∅) []).
  destruct (core_init_loop_sets (objs st) g [] (set_order (vertices g))
              (mkObj ClsDAG ∅ (vertices g) ∅))
    as (gc & Hrun & Hcls & Hvs & Hin & _).
  rewrite (se_bind_ok _ _ _ _ _ Hrun).
  rewrite se_bind_unfold, field_G. cbv beta iota.
  pose proof (working_G (objs st) g gc []) as HG.
  destruct (bucket_loop_run (length (objs st)) g _ (set_order (vertices g))
              (replicate (size (vertices g)) ∅)
              (Z.of_nat (size (vertices g))) ∅ HG Hg)
    as (dl & md & Hbrun & Hb & Hm).
  { intros x Hx. apply set_order_elem_of. exact Hx. }
  { apply buckets_ok_start. }
  { left. auto. }
  rewrite set_order_to_set, union_empty_l_L in Hb, Hm.
  destruct (bucket_loop_min _ g _ _ _ _ _ _ _ HG Hbrun) as [_ Hmin].
  rewrite (se_bind_ok _ _ _ _ _ Hbrun). cbv beta iota.
  destruct (size (vertices g)) as [|n'] eqn:Hsz.
  { exfalso. apply Hne. apply leibniz_equiv. apply size_empty_iff. exact Hsz. }
  destruct (main_loop_fails (objs st) g gc [] dl md n' Hcls Hg Hne Hb Hm)
    as (source & Hsv & Hsd & Hmain).
  rewrite se_bind_unfold, Hmain. cbv beta iota.
  exists source, gc. split; [reflexivity|]. split; [exact Hsv|]. split.
  { intros w Hw. unfold degree_of. rewrite Hsd.
    pose proof (wf_degree g (wf_loc g Hg) w Hw) as Hwd. rewrite Hwd.
    cbn [default]. apply (Hmin w _); [|exact Hwd].
    apply set_order_elem_of. exact Hw. }
  split; [exact Hcls|]. split; [exact Hvs|]. split.
  { intros u Hu. apply Hin. apply set_order_elem_of. exact Hu. }
  intros d o Hd Ho. cbn [snd]. unfold get_top_order, load. se_unfold.
  unfold working. cbn [objs DAG_top_order].
  rewrite (lookup_app_l_Some _ _ _ _ Hd), Ho. reflexivity.
Qed.

(** ** Which names are vertices *)

Lemma built_vertex_origin es x :
  x ∈ vertices (graph_of es) ↔
  ∃ y l, x ≠ y ∧ ((x, y, l) ∈ es ∨ (y, x, l) ∈ es).
Proof.
  destruct (graph_of_run es) as [_ Hg]. split.
  - intros Hx. pose proof (wf_nonisolated _ Hg x Hx) as Hne.
    apply map_choose in Hne as (y & l & Hl).
    assert (Hxy : x ≠ y).
    { intros ->. rewrite (wf_noloop _ Hg y) in Hl. discriminate. }
    exists y, l. split; [exact Hxy|]. unfold graph_of in Hl.
    apply (add_edges_label_origin es graph_init x y l wf_graph_init) in Hl
      as [Hl|(u & v & Hin & _ & [[-> ->]|[-> ->]])]; [|auto|auto].
    rewrite nbrs_graph_init, lookup_empty in Hl. discriminate.
  - intros (y & l & Hxy & Hin).
    assert (Hd : y ∈ dom (nbrs (graph_of es) x)).
    { destruct Hin as [Hin|Hin].
      - apply (add_edges_edge_present es graph_init x y l wf_graph_init Hin Hxy).
      - apply (wf_edge_dom _ x y Hg). unfold graph_of.
        apply (add_edges_edge_present es graph_init y x l wf_graph_init Hin).
        congruence. }
    rewrite <- (wf_adj_dom _ (wf_loc _ Hg)). apply elem_of_dom.
    destruct (adj_list (graph_of es) !! x) as [c|] eqn:Hadj; [eauto|].
    rewrite (nbrs_None _ _ Hadj), dom_empty_L in Hd.
    apply not_elem_of_empty in Hd. contradiction.
Qed.

(** X22.  After a sequence of [Add_und_edge] calls on the empty graph,
    [isNode(x)] holds exactly when some call named [x] together with a
    different endpoint: a call [Add_und_edge(x, x)] does not make [x] a
    vertex. *)
Theorem isNode_iff_named_with_another (es : list (V * V * L)) (x : V) :
  isNode x (graph_of es) = true ↔
  ∃ y l, x ≠ y ∧ ((x, y, l) ∈ es ∨ (y, x, l) ∈ es).
Proof.
  unfold isNode. rewrite bool_decide_eq_true. apply built_vertex_origin.
Qed.
End Graph.

(** ** The claims on concrete graphs

    Vertices and labels are strings, and sets are iterated in the order of
    [elements]. *)

(** C2.  The claim fails on the code.  On the path a - b - c, [Degeneracy]
    raises [AttributeError] at the first neighbour of the first vertex it
    takes: no [DAG] is returned, and the only topological order in the
    store is the one-element list that line 216 left behind, not a
    permutation of the three vertices. *)
Theorem Degeneracy_path_has_no_order :
  ((build [("a", "b", "m1"); ("b", "c", "m2")] ≫= Degeneracy)
     (empty_state (V := string) (L := string))).1 = Err AttributeError ∧
  DAG_top_order
    ((build [("a", "b", "m1"); ("b", "c", "m2")] ≫= Degeneracy)
       (empty_state (V := string) (L := string))).2 = Some ["c"].
Proof. vm_compute. split; reflexivity. Qed.

(** C3.  The claim fails on the code.  On the graph with the single edge
    (x, y), [Degeneracy] raises [AttributeError] before line 235 is
    reached: the [DAG] under construction (object 2 of the store) has no
    successor for x and none for y, so neither x -> y nor y -> x is
    present, while the working copy (object 1) still has the edge. *)
Theorem Degeneracy_single_edge_has_no_direction :
  ((build [("x", "y", "m")] ≫= Degeneracy)
     (empty_state (V := string) (L := string))).1 = Err AttributeError ∧
  out_edges ((build [("x", "y", "m")] ≫= Degeneracy)
               (empty_state (V := string) (L := string))).2 2 "x" = Some ∅ ∧
  out_edges ((build [("x", "y", "m")] ≫= Degeneracy)
               (empty_state (V := string) (L := string))).2 2 "y" = Some ∅ ∧
  out_edges ((build [("x", "y", "m")] ≫= Degeneracy)
               (empty_state (V := string) (L := string))).2 1 "x" = Some {["y"]}.
Proof. vm_compute. repeat split; reflexivity. Qed.

(** C5.  The claim fails on the code: [Size] computes the wedge count with
    true division, in floating point.  On the triangle a, b, c it returns
    [3, 6, 3.0]: [m] is the exact int 6, the wedge count is the float 3.0.
    On the star with centre 0 and the 134217730 leaves 1, 2, ..., built by
    [Add_und_edge], it returns the wedge count 9007199456067584.0 for every
    iteration order, while the number of wedges is 9007199456067585. *)
Theorem Size_wedges_are_floats :
  Size (add_edges [("a", "b", "m1"); ("a", "c", "m1"); ("b", "c", "m1")]
          (graph_init (V := string) (L := string))).2
    = Ok (3, 6, PyFloat (Finite 3)) ∧
  ∀ (order : SetOrder nat) (value : string),
    ∃ g,
      add_edges (star_edges 0%nat (seq 1 (Z.to_nat 134217730)) value)
        graph_init = (Ok tt, g) ∧
      Size (order := order) g
        = Ok (134217731, degree_sum g, PyFloat (Finite 9007199456067584)) ∧
      wedge_count g = 9007199456067585.
Proof.
  split; [vm_compute; reflexivity|].
  intros order value. apply Size_big_star.
  - apply NoDup_seq.
  - rewrite elem_of_seq. lia.
  - rewrite length_seq. apply Z2Nat.id. lia.
Qed.

(** The degree distribution of the triangle: three vertices of degree 2,
    which is the largest degree. *)
Example Deg_dist_triangle :
  Deg_dist (add_edges [("a", "b", "m1"); ("a", "c", "m1"); ("b", "c", "m1")]
              (graph_init (V := string) (L := string))).2 = Ok [0; 0; 3].
Proof. vm_compute. reflexivity. Qed.

(** [Degeneracy] itself peels: on an object whose adjacency values are sets
    (here the path a - b - c - d) it returns the [DAG] with the order
    a, b, c, d and the edges a -> b, b -> c, c -> d, and the object it was
    called on is as before. *)
Example Degeneracy_on_set_adjacency :
  let g := mkObj (V := string) (L := string) ClsGraph
             {[ "a" := CSet {[ "b" ]}; "b" := CSet {[ "a"; "c" ]};
                "c" := CSet {[ "b"; "d" ]}; "d" := CSet {[ "c" ]} ]}
             {[ "a"; "b"; "c"; "d" ]}
             {[ "a" := 1; "b" := 2; "c" := 2; "d" := 1 ]} in
  let r := Degeneracy 0 (mkState [g] None) in
  r.1 = Ok 2%nat ∧
  DAG_top_order r.2 = Some ["a"; "b"; "c"; "d"] ∧
  out_edges r.2 2 "a" = Some {[ "b" ]} ∧
  out_edges r.2 2 "b" = Some {[ "c" ]} ∧
  out_edges r.2 2 "c" = Some {[ "d" ]} ∧
  out_edges r.2 2 "d" = Some ∅ ∧
  out_edges r.2 1 "b" = Some {[ "c" ]} ∧
  objs r.2 !! 0%nat = Some g.
Proof. vm_compute. repeat split; reflexivity. Qed.

(** The shared topological order on a store with two [DAG] instances. *)
Lemma DAG_top_order_is_shared_witness :
  (get_top_order 0
     (DAG_new (mkState [mkObj (V := string) (L := string) ClsDAG ∅ ∅ ∅;
                        mkObj ClsDAG ∅ ∅ ∅] (Some ["a"]))).2).1 = Ok [] ∧
  (get_top_order 1
     (top_order_append 0 "b"
        (mkState [mkObj (V := string) (L := string) ClsDAG ∅ ∅ ∅;
                  mkObj ClsDAG ∅ ∅ ∅] (Some ["a"]))).2).1 = Ok ["a"; "b"].
Proof.
  exact (DAG_top_order_is_shared
           (mkState [mkObj (V := string) (L := string) ClsDAG ∅ ∅ ∅;
                     mkObj ClsDAG ∅ ∅ ∅] (Some ["a"]))
           0 1 _ _ ["a"] "b" eq_refl eq_refl eq_refl eq_refl eq_refl).
Defined.

(** The graph with the single edge (x, y) after [Degeneracy]. *)
Lemma Degeneracy_leaves_original_unchanged_witness :
  (Degeneracy 0
     (mkState [mkObj (V := string) (L := string) ClsGraph
                 {[ "x" := CDict {[ "y" := "m" ]};
                    "y" := CDict {[ "x" := "m" ]} ]}
                 {[ "x"; "y" ]} {[ "x" := 1; "y" := 1 ]}] None)).1
  ≠ Err Stuck ∧
  objs (Degeneracy 0
          (mkState [mkObj (V := string) (L := string) ClsGraph
                      {[ "x" := CDict {[ "y" := "m" ]};
                         "y" := CDict {[ "x" := "m" ]} ]}
                      {[ "x"; "y" ]} {[ "x" := 1; "y" := 1 ]}] None)).2 !! 0%nat
  = Some (mkObj ClsGraph
            {[ "x" := CDict {[ "y" := "m" ]}; "y" := CDict {[ "x" := "m" ]} ]}
            {[ "x"; "y" ]} {[ "x" := 1; "y" := 1 ]}).
Proof.
  eapply (Degeneracy_leaves_original_unchanged _ 0 0); reflexivity.
Defined.

(** The edge (x, y) with label m1, inserted again with label m2. *)
Lemma Add_und_edge_first_writer_wins_witness :
  Add_und_edge "x" "y" "m2"
    (mkObj (V := string) (L := string) ClsGraph
       {[ "x" := CDict {[ "y" := "m1" ]}; "y" := CDict {[ "x" := "m1" ]} ]}
       {[ "x"; "y" ]} {[ "x" := 1; "y" := 1 ]})
  = (Ok tt,
     mkObj ClsGraph
       {[ "x" := CDict {[ "y" := "m1" ]}; "y" := CDict {[ "x" := "m1" ]} ]}
       {[ "x"; "y" ]} {[ "x" := 1; "y" := 1 ]}).
Proof.
  refine (proj1 (Add_und_edge_first_writer_wins
                   [("x", "y", "m1")] _ "x" "y" {[ "y" := "m1" ]} "m1" "m2"
                   _ _ _)).
  - vm_compute. reflexivity.
  - vm_compute. reflexivity.
  - vm_compute. reflexivity.
Defined.

(** * [Read_edges], lines 115-131

    Vertices and labels are Python strings.  The input is the sequence of
    lines that iterating the open file yields; opening and decoding the
    file are outside the model.  The parameter [sep] is never used by the
    code. *)

(** The body of the loop for one line, lines 119-131. *)
Definition Read_edges_line (line : pystr)
  : SE (obj (V := pystr) (L := pystr)) unit :=
  match strip line with
  | [] => mret tt
  | _ :: _ =>
      match split_on 32 (strip line) with
      | movie :: actors => add_cast movie actors
      | [] => se_raise IndexError
      end
  end.

Definition Read_edges (lines : list pystr)
  : SE (obj (V := pystr) (L := pystr)) unit :=
  se_for lines Read_edges_line.

(** The calls to [Add_und_edge] that a line and a file lead to. *)
Definition line_edges (line : pystr) : list (pystr * pystr * pystr) :=
  match split_on 32 (strip line) with
  | movie :: actors => cast_edges movie actors
  | [] => []
  end.

Definition file_edges (lines : list pystr) : list (pystr * pystr * pystr) :=
  concat (line_edges <$> lines).

(** [line] has the tokens [movie :: actors] with [a] and [b] among the
    actors. *)
Definition costars (line : pystr) (movie a b : pystr) : Prop :=
  ∃ actors, split_on 32 (strip line) = movie :: actors ∧
            a ∈ actors ∧ b ∈ actors.

Lemma split_on_nonempty sep s : split_on sep s ≠ [].
Proof.
  destruct s as [|c r]; simpl; [discriminate|].
  destruct (c =? sep)%N; [discriminate|].
  destruct (split_on sep r); discriminate.
Qed.

Lemma Read_edges_line_calls line g :
  Read_edges_line line g = add_edges (line_edges line) g.
Proof.
  unfold Read_edges_line, line_edges.
  destruct (strip line) as [|c r] eqn:Hs.
  - reflexivity.
  - destruct (split_on 32 (c :: r)) as [|movie actors] eqn:Hsp.
    + exfalso. exact (split_on_nonempty _ _ Hsp).
    + apply add_cast_calls.
Qed.

Lemma Read_edges_calls lines g :
  Read_edges lines g = add_edges (file_edges lines) g.
Proof.
  revert g. induction lines as [|line lines IH]; intros g; [reflexivity|].
  unfold Read_edges, file_edges in *. rewrite fmap_cons, se_for_cons.
  cbn [concat]. rewrite add_edges_app, !se_bind_unfold.
  rewrite Read_edges_line_calls.
  destruct (add_edges (line_edges line) g) as [[[]|e] g1]; [apply IH|reflexivity].
Qed.

Lemma elem_of_line_edges line u v l :
  (u, v, l) ∈ line_edges line → costars line l u v.
Proof.
  unfold line_edges, costars.
  destruct (split_on 32 (strip line)) as [|movie actors]; [intros H; inversion H|].
  rewrite elem_of_cast_edges. intros [-> Hin].
  apply elem_of_combinations2 in Hin as [Hu Hv]. eauto.
Qed.

Lemma costars_line_edges line movie a b :
  costars line movie a b → a ≠ b →
  (a, b, movie) ∈ line_edges line ∨ (b, a, movie) ∈ line_edges line.
Proof.
  intros (actors & Hsp & Ha & Hb) Hab. unfold line_edges. rewrite Hsp.
  rewrite !elem_of_cast_edges.
  destruct (combinations2_pair actors a b Ha Hb Hab); auto.
Qed.

Lemma elem_of_file_edges lines e :
  e ∈ file_edges lines ↔ ∃ line, line ∈ lines ∧ e ∈ line_edges line.
Proof.
  unfold file_edges. induction lines as [|l lines IH].
  - cbn. split; [intros Hin; inversion Hin|intros (line & Hin & _); inversion Hin].
  - rewrite fmap_cons. cbn [concat]. rewrite elem_of_app, IH. split.
    + intros [He|(line & Hline & He)];
        [exists l; split; [left|exact He]|exists line; split; [right|]; assumption].
    + intros (line & Hline & He). apply elem_of_cons in Hline as [->|Hline];
        [left; exact He|right; eauto].
Qed.

(** X15.  [Read_edges] completes on every sequence of lines, and leaves a
    graph that a sequence of [Add_und_edge] calls gives: every vertex has
    its degree equal to the size of its adjacency dict, and at least 1. *)
Theorem Read_edges_completes (lines : list pystr) :
  (Read_edges lines graph_init).1 = Ok tt ∧
  (∃ es, (Read_edges lines graph_init).2 = graph_of es) ∧
  ∀ v, v ∈ vertices (Read_edges lines graph_init).2 →
    ∃ c, adj_list (Read_edges lines graph_init).2 !! v = Some c ∧
         degrees (Read_edges lines graph_init).2 !! v = Some (container_len c) ∧
         1 ≤ container_len c.
Proof.
  rewrite Read_edges_calls.
  destruct (graph_of_run (file_edges lines)) as [Hrun Hg].
  rewrite Hrun. cbn [fst snd].
  split; [reflexivity|]. split; [eauto|]. intros v Hv.
  exists (CDict (nbrs (graph_of (file_edges lines)) v)).
  split; [apply (wf_local_adj _ v (wf_loc _ Hg) Hv)|].
  unfold container_len, container_keys. rewrite size_dom.
  split; [apply (wf_degree _ (wf_loc _ Hg) v Hv)|].
  destruct (wf_degree_bounds _ v Hg Hv) as [Hlo _].
  apply Nat2Z.inj_le in Hlo. exact Hlo.
Qed.

(** X16.  After [Read_edges], two names are joined by an edge exactly when
    they differ and are both among the actors (the tokens after the first)
    of some line. *)
Theorem Read_edges_edge_iff_costars (lines : list pystr) (a b : pystr) :
  isEdge a b (Read_edges lines graph_init).2 = Ok 1 ↔
  a ≠ b ∧ ∃ line movie, line ∈ lines ∧ costars line movie a b.
Proof.
  rewrite Read_edges_calls.
  destruct (graph_of_run (file_edges lines)) as [_ Hg].
  fold (graph_of (file_edges lines)). rewrite (isEdge_wf _ a b Hg). split.
  - case_decide as Hd; [intros _|discriminate].
    apply elem_of_dom in Hd as [l Hl].
    assert (Hab : a ≠ b).
    { intros ->. rewrite (wf_noloop _ Hg b) in Hl. discriminate. }
    split; [exact Hab|]. unfold graph_of in Hl.
    apply (add_edges_label_origin _ graph_init a b l wf_graph_init) in Hl
      as [Hl|(u & v & Hin & _ & Huv)].
    { rewrite nbrs_graph_init, lookup_empty in Hl. discriminate. }
    apply elem_of_file_edges in Hin as (line & Hline & Hin).
    apply elem_of_line_edges in Hin as (actors & Hsp & Hu & Hv).
    exists line, l. split; [exact Hline|]. exists actors.
    destruct Huv as [[-> ->]|[-> ->]]; auto.
  - intros [Hab (line & movie & Hline & Hco)].
    rewrite decide_True; [reflexivity|]. unfold graph_of.
    destruct (costars_line_edges line movie a b Hco Hab) as [Hin|Hin].
    + apply (add_edges_edge_present _ graph_init a b movie wf_graph_init);
        [|exact Hab]. apply elem_of_file_edges. eauto.
    + apply (wf_edge_dom _ a b Hg). unfold graph_of.
      apply (add_edges_edge_present _ graph_init b a movie wf_graph_init);
        [|congruence]. apply elem_of_file_edges. eauto.
Qed.

(** X17.  The label of an edge read from a file is the first token of the
    first line on which its two endpoints are both actors. *)
Theorem Read_edges_label_is_first_movie
    (pre post : list pystr) (line movie a b : pystr) :
  a ≠ b → costars line movie a b →
  (∀ line' movie', line' ∈ pre → ¬ costars line' movie' a b) →
  edge_label (Read_edges (pre ++ line :: post) graph_init).2 a b = Ok movie ∧
  edge_label (Read_edges (pre ++ line :: post) graph_init).2 b a = Ok movie.
Proof.
  intros Hab Hco Hfirst. rewrite Read_edges_calls.
  destruct (graph_of_run (file_edges (pre ++ line :: post))) as [_ Hg].
  fold (graph_of (file_edges (pre ++ line :: post))).
  assert (Hl : nbrs (graph_of (file_edges (pre ++ line :: post))) a !! b
               = Some movie).
  { unfold graph_of, file_edges. rewrite fmap_app, fmap_cons, concat_app.
    cbn [concat].
    apply add_edges_label_block; [apply wf_graph_init|exact Hab| | | |].
    - rewrite nbrs_graph_init, dom_empty_L. apply not_elem_of_empty.
    - intros u v l Hin.
      apply (elem_of_file_edges pre) in Hin as (line' & Hline' & Hin).
      apply elem_of_line_edges in Hin as (actors & Hsp & Hu & Hv).
      split; intros [-> ->]; apply (Hfirst line' l Hline'); exists actors; auto.
    - intros u v l Hin. apply elem_of_line_edges in Hin as (actors & Hsp & _).
      destruct Hco as (actors' & Hsp' & _). congruence.
    - exists movie. apply costars_line_edges; assumption. }
  rewrite !(edge_label_wf _ _ _ Hg), Hl, (wf_sym _ Hg a b movie Hl). auto.
Qed.

(** X23.  After [Read_edges] on the empty graph, a name is a vertex
    exactly when some line has it among its actors together with a
    different actor: the only actor of a line, and the movie names, are
    not vertices unless another line brings them in. *)
Theorem Read_edges_vertex_iff_costar (lines : list pystr) (a : pystr) :
  isNode a (Read_edges lines graph_init).2 = true ↔
  ∃ line movie b, line ∈ lines ∧ a ≠ b ∧ costars line movie a b.
Proof.
  rewrite Read_edges_calls. fold (graph_of (file_edges lines)).
  unfold isNode. rewrite bool_decide_eq_true, built_vertex_origin. split.
  - intros (y & l & Hay & [Hin|Hin]);
      apply elem_of_file_edges in Hin as (line & Hline & Hin);
      apply elem_of_line_edges in Hin as (actors & Hsp & Hu & Hv);
      exists line, l, y; (split; [exact Hline|]); (split; [exact Hay|]);
      exists actors; auto.
  - intros (line & movie & b & Hline & Hab & Hco). exists b, movie.
    split; [exact Hab|].
    destruct (costars_line_edges line movie a b Hco Hab) as [Hin|Hin];
      [left|right]; apply elem_of_file_edges; eauto.
Qed.

(** * The further properties on concrete graphs *)

(** The edge (x, y) read from both ends. *)
Lemma isEdge_symmetric_witness :
  isEdge "x" "y" (graph_of (V := string) (L := string) [("x", "y", "m")])
  = isEdge "y" "x" (graph_of [("x", "y", "m")]).
Proof.
  apply (isEdge_symmetric (V := string) (L := string)).
  apply (bool_decide_unpack _). vm_compute. reflexivity.
Defined.

(** The middle vertex of the path a - b - c. *)
Lemma degree_between_1_and_n_witness :
  ∃ d, degrees (graph_of (V := string) (L := string)
                  [("a", "b", "m1"); ("b", "c", "m2")]) !! "b" = Some d ∧
       1 ≤ d < Z.of_nat (size (vertices (graph_of (V := string) (L := string)
                                           [("a", "b", "m1"); ("b", "c", "m2")]))).
Proof.
  apply (degree_between_1_and_n (V := string) (L := string)).
  apply (bool_decide_unpack _). vm_compute. reflexivity.
Defined.

(** The edge (b, c) added to the graph with the edge (a, b). *)
Lemma Add_und_edge_then_isEdge_witness :
  isEdge "b" "c" (graph_of (V := string) (L := string)
                    ([("a", "b", "m1")] ++ [("b", "c", "m2")])) = Ok 1.
Proof.
  refine (proj1 (Add_und_edge_then_isEdge (V := string) (L := string)
                   [("a", "b", "m1")] "b" "c" "m2" _)).
  discriminate.
Defined.

(** The edge (a, b) with label m1 survives a second call for it. *)
Lemma Add_und_edge_never_removes_witness :
  edge_label (graph_of (V := string) (L := string)
                ([("a", "b", "m1")] ++ [("b", "a", "m2"); ("b", "c", "m3")]))
    "a" "b" = Ok "m1".
Proof.
  refine (proj1 (Add_und_edge_never_removes (V := string) (L := string)
                   [("a", "b", "m1")] [("b", "a", "m2"); ("b", "c", "m3")]
                   "a" "b" "m1" _)).
  vm_compute. reflexivity.
Defined.

(** The edge (b, c) added to the graph with the edge (a, b): b goes from
    degree 1 to 2. *)
Lemma Add_und_edge_new_edge_degrees_witness :
  degrees (graph_of (V := string) (L := string)
             ([("a", "b", "m1")] ++ [("b", "c", "m2")])) !! "b"
  = Some (degree_of (graph_of [("a", "b", "m1")]) "b" + 1).
Proof.
  refine (proj1 (Add_und_edge_new_edge_degrees (V := string) (L := string)
                   [("a", "b", "m1")] "b" "c" "m2" _ _)).
  - discriminate.
  - vm_compute. reflexivity.
Defined.

(** The edges (b, c) and (c, a) added in either order to the edge (a, b). *)
Lemma Add_und_edge_calls_commute_witness :
  graph_of (V := string) (L := string)
    ([("a", "b", "m1")] ++ [("b", "c", "m2"); ("c", "a", "m3")]) =
  graph_of ([("a", "b", "m1")] ++ [("c", "a", "m3"); ("b", "c", "m2")]).
Proof.
  apply (Add_und_edge_calls_commute (V := string) (L := string)).
  - intros [Heq _]. discriminate Heq.
  - intros [Heq _]. discriminate Heq.
Defined.

(** The edge (b, c) added to the graph with the edge (a, b). *)
Lemma Add_und_edge_new_edge_degree_sum_witness :
  degree_sum (graph_of (V := string) (L := string)
                ([("a", "b", "m1")] ++ [("b", "c", "m2")]))
  = degree_sum (graph_of [("a", "b", "m1")]) + 2.
Proof.
  apply (Add_und_edge_new_edge_degree_sum (V := string) (L := string)).
  - discriminate.
  - vm_compute. reflexivity.
Defined.

(** The triangle. *)
Lemma Size_exact_up_to_262144_vertices_witness :
  let g := graph_of (V := string) (L := string)
             [("a", "b", "m1"); ("a", "c", "m1"); ("b", "c", "m1")] in
  Size g = Ok (Z.of_nat (size (vertices g)), degree_sum g,
               if decide (vertices g = ∅) then PyInt 0
               else PyFloat (Finite (wedge_count g))).
Proof.
  apply (Size_exact_up_to_262144_vertices (V := string) (L := string)).
  vm_compute. discriminate.
Defined.

(** The pair (a, b) is first named by the second call. *)
Lemma label_is_from_first_call_witness :
  edge_label (graph_of (V := string) (L := string)
                ([("a", "c", "m0")] ++ ("a", "b", "m1") :: [("b", "a", "m2")]))
    "a" "b" = Ok "m1".
Proof.
  refine (proj1 (label_is_from_first_call (V := string) (L := string)
                   [("a", "c", "m0")] [("b", "a", "m2")] "a" "b" "m1" _ _)).
  - discriminate.
  - intros a b l Hin. apply list_elem_of_singleton in Hin.
    injection Hin as -> -> ->. split; intros [Ha Hb]; discriminate.
Defined.

(** Two lines on which a and b are both actors, after a line on which they
    are not: the label is the movie of the first of the two. *)
Lemma Read_edges_label_is_first_movie_witness :
  edge_label
    (Read_edges ([py "m0 a c" ++ [10%N]]
                 ++ (py "m1 a b c" ++ [10%N]) :: [py "m2 b a" ++ [10%N]])
       graph_init).2 (py "a") (py "b") = Ok (py "m1").
Proof.
  refine (proj1 (Read_edges_label_is_first_movie
                   [py "m0 a c" ++ [10%N]] [py "m2 b a" ++ [10%N]]
                   (py "m1 a b c" ++ [10%N]) (py "m1") (py "a") (py "b")
                   _ _ _)).
  - discriminate.
  - exists [py "a"; py "b"; py "c"]. split; [vm_compute; reflexivity|].
    split; [left|right; left].
  - intros line' movie' Hin (actors & Hsp & Ha & Hb).
    apply list_elem_of_singleton in Hin. subst line'.
    vm_compute in Hsp. injection Hsp as _ <-.
    apply elem_of_cons in Hb as [Hb|Hb]; [discriminate Hb|].
    apply list_elem_of_singleton in Hb. discriminate Hb.
Defined.

(** The path a - b - c with sets as adjacency values, in a store of its
    own. *)
Lemma Degeneracy_on_sets_orients_forward_witness :
  let g := mkObj (V := string) (L := string) ClsGraph
             {[ "a" := CSet {[ "b" ]}; "b" := CSet {[ "a"; "c" ]};
                "c" := CSet {[ "b" ]} ]}
             {[ "a"; "b"; "c" ]} {[ "a" := 1; "b" := 2; "c" := 1 ]} in
  ∃ core c t,
    (Degeneracy 0 (mkState [g] None)).1 = Ok core ∧
    objs (Degeneracy 0 (mkState [g] None)).2 !! core = Some c ∧
    DAG_top_order (Degeneracy 0 (mkState [g] None)).2 = Some t ∧
    t ≡ₚ elements (vertices g).
Proof.
  intros g.
  destruct (Degeneracy_on_sets_orients_forward 0 (mkState [g] None) g)
    as (core & c & t & Hrun & Hc & Ht & _ & _ & Hperm & _).
  - reflexivity.
  - apply set_graph_check, (bool_decide_unpack _). vm_compute. reflexivity.
  - exists core, c, t. auto.
Defined.

Lemma Degeneracy_on_sets_directs_each_edge_once_witness :
  let g := mkObj (V := string) (L := string) ClsGraph
             {[ "a" := CSet {[ "b" ]}; "b" := CSet {[ "a"; "c" ]};
                "c" := CSet {[ "b" ]} ]}
             {[ "a"; "b"; "c" ]} {[ "a" := 1; "b" := 2; "c" := 1 ]} in
  ∃ core c,
    (Degeneracy 0 (mkState [g] None)).1 = Ok core ∧
    objs (Degeneracy 0 (mkState [g] None)).2 !! core = Some c ∧
    (("b" ∈ succs c "a" ∧ "a" ∉ succs c "b") ∨
     ("a" ∈ succs c "b" ∧ "b" ∉ succs c "a")).
Proof.
  intros g.
  destruct (Degeneracy_on_sets_directs_each_edge_once 0 (mkState [g] None) g)
    as (core & c & Hrun & Hc & Hone & _).
  - reflexivity.
  - apply set_graph_check, (bool_decide_unpack _). vm_compute. reflexivity.
  - exists core, c. split; [exact Hrun|]. split; [exact Hc|].
    apply Hone; apply (bool_decide_unpack _); vm_compute; reflexivity.
Defined.

Lemma Degeneracy_on_sets_removes_minimum_degree_witness :
  let g := mkObj (V := string) (L := string) ClsGraph
             {[ "a" := CSet {[ "b" ]}; "b" := CSet {[ "a"; "c" ]};
                "c" := CSet {[ "b" ]} ]}
             {[ "a"; "b"; "c" ]} {[ "a" := 1; "b" := 2; "c" := 1 ]} in
  ∃ core c t,
    (Degeneracy 0 (mkState [g] None)).1 = Ok core ∧
    objs (Degeneracy 0 (mkState [g] None)).2 !! core = Some c ∧
    DAG_top_order (Degeneracy 0 (mkState [g] None)).2 = Some t.
Proof.
  intros g.
  destruct (Degeneracy_on_sets_removes_minimum_degree 0 (mkState [g] None) g)
    as (core & c & t & Hrun & Hc & Ht & _).
  - reflexivity.
  - apply set_graph_check, (bool_decide_unpack _). vm_compute. reflexivity.
  - exists core, c, t. auto.
Defined.

(** The single edge (x, y) in a store of its own. *)
Lemma Degeneracy_failure_overwrites_shared_order_witness :
  ∃ source,
    (Degeneracy 0 (mkState [graph_of (V := string) (L := string)
                              [("x", "y", "m")]] None)).1
      = Err AttributeError ∧
    DAG_top_order
      (Degeneracy 0 (mkState [graph_of (V := string) (L := string)
                                [("x", "y", "m")]] None)).2
      = Some [source].
Proof.
  destruct (Degeneracy_failure_overwrites_shared_order
              (V := string) (L := string) [("x", "y", "m")] 0
              (mkState [graph_of [("x", "y", "m")]] None))
    as (source & c & Hrun & _).
  - reflexivity.
  - apply (bool_decide_unpack _). vm_compute. reflexivity.
  - exists source. rewrite Hrun. split; reflexivity.
Defined.

End GraphTools.
